(** * git_script.py: a shallow embedding and its verified properties

    The program back-fills a commit history: it schedules commit days inside a
    date range ([backfill]), cosmetically edits a batch of files
    ([touch_files]) and derives a conventional-commit subject from the staged
    diff ([_classify_change], [pick_type], [generate_commit_message]).

    Conventions of the embedding.
    - A Python [str] is a list of code points ([char] = [N]); lengths are
      counted in code points, as [len] does.  Whitespace ([str.isspace], the
      regex class \s) is the full Unicode list.  The regex class \w, the flag
      IGNORECASE and [str.lower] are given for the ASCII range; code points
      above 127 are neither word characters nor cased in this model.
    - Python [int]s are [Z]; list lengths and indices are [nat].
    - A naive [datetime] is its number of microseconds since 0001-01-01, so
      that [timedelta(days=i)] adds [i * 86400000000].
    - Everything the script asks of its environment (the random generator, the
      file system, git, the ISO date parser, the memory for the pool of day
      slots) is a field of [world] or of the threaded [state]; exceptions are
      values of [exn]. *)

From Stdlib Require Import String Ascii.
From Stdlib Require Import ZArith NArith Bool Lia List.
From Stdlib Require Import Permutation Sorted.
Import ListNotations.

(* ------------------------------------------------------------------ *)
(** ** Python strings *)

Module Str.

Definition char := N.
Definition str := list char.

(** String literals of the source, as code points. *)
Definition u (s : string) : str := map N_of_ascii (list_ascii_of_string s).

Definition NL : char := 10%N.

Fixpoint eqb (a b : str) : bool :=
  match a, b with
  | [], [] => true
  | x :: a', y :: b' => N.eqb x y && eqb a' b'
  | _, _ => false
  end.

Definition between (lo c hi : N) : bool := (N.leb lo c && N.leb c hi)%bool.

(** [str.isspace] on one character; also the regex class \s. *)
Definition isspace (c : char) : bool :=
  between 9 c 13 || between 28 c 32 || N.eqb c 133 || N.eqb c 160
  || N.eqb c 5760 || between 8192 c 8202 || N.eqb c 8232 || N.eqb c 8233
  || N.eqb c 8239 || N.eqb c 8287 || N.eqb c 12288.

(** The line boundaries of [str.splitlines]. *)
Definition is_linebreak (c : char) : bool :=
  between 10 c 13 || between 28 c 30 || N.eqb c 133
  || N.eqb c 8232 || N.eqb c 8233.

(** The regex class \w (ASCII range). *)
Definition is_word (c : char) : bool :=
  between 48 c 57 || between 65 c 90 || between 97 c 122 || N.eqb c 95.

Definition lower_char (c : char) : char :=
  if between 65 c 90 then (c + 32)%N else c.

Definition lower (s : str) : str := map lower_char s.

(** [s.startswith(p)] *)
Fixpoint startswith (p s : str) : bool :=
  match p, s with
  | [], _ => true
  | x :: p', y :: s' => N.eqb x y && startswith p' s'
  | _ :: _, [] => false
  end.

(** [s.endswith(p)] *)
Definition endswith (p s : str) : bool := startswith (rev p) (rev s).

(** [s.lstrip()], [s.rstrip()], [s.strip()] *)
Fixpoint lstrip (s : str) : str :=
  match s with
  | c :: s' => if isspace c then lstrip s' else s
  | [] => []
  end.

Definition rstrip (s : str) : str := rev (lstrip (rev s)).

Definition strip (s : str) : str := rstrip (lstrip s).

(** [needle in s] *)
Fixpoint contains (needle s : str) : bool :=
  startswith needle s ||
  match s with
  | [] => false
  | _ :: s' => contains needle s'
  end.

(** [s.replace(a, b)] for one-character [a] and [b]. *)
Definition replace_char (a b : char) (s : str) : str :=
  map (fun c => if N.eqb c a then b else c) s.

(** [s.rfind(c)]: the index of the last occurrence, [None] for -1. *)
Fixpoint rfind (c : char) (s : str) : option nat :=
  match s with
  | [] => None
  | x :: s' =>
      match rfind c s' with
      | Some i => Some (S i)
      | None => if N.eqb x c then Some 0 else None
      end
  end.

(** [sep.join(parts)] *)
Fixpoint join (sep : str) (parts : list str) : str :=
  match parts with
  | [] => []
  | [p] => p
  | p :: rest => p ++ sep ++ join sep rest
  end.

(** [s.split(sep)] for a one-character separator: never an empty list. *)
Fixpoint split_on (sep : char) (s : str) : list str :=
  match s with
  | [] => [[]]
  | c :: s' =>
      if N.eqb c sep then [] :: split_on sep s'
      else match split_on sep s' with
           | w :: ws => (c :: w) :: ws
           | [] => [[c]]
           end
  end.

(** [s.split()]: the maximal runs of non-whitespace characters. *)
Fixpoint split_ws_aux (s cur : str) : list str :=
  match s with
  | [] => match cur with [] => [] | _ => [rev cur] end
  | c :: s' =>
      if isspace c
      then match cur with
           | [] => split_ws_aux s' []
           | _ => rev cur :: split_ws_aux s' []
           end
      else split_ws_aux s' (c :: cur)
  end.

Definition split_ws (s : str) : list str := split_ws_aux s [].

(** [s.splitlines()] (line ends dropped; "\r\n" is one boundary). *)
Fixpoint splitlines_aux (s cur : str) : list str :=
  match s with
  | [] => match cur with [] => [] | _ => [rev cur] end
  | c :: s' =>
      if is_linebreak c
      then match s' with
           | d :: s'' =>
               if (N.eqb c 13 && N.eqb d 10)%bool
               then rev cur :: splitlines_aux s'' []
               else rev cur :: splitlines_aux s' []
           | [] => [rev cur]
           end
      else splitlines_aux s' (c :: cur)
  end.

Definition splitlines (s : str) : list str := splitlines_aux s [].

(** [f.readlines()] on text already in universal-newline form: every line
    keeps its terminating "\n"; only the last line may lack one. *)
Fixpoint readlines_aux (s cur : str) : list str :=
  match s with
  | [] => match cur with [] => [] | _ => [rev cur] end
  | c :: s' =>
      if N.eqb c NL then rev (c :: cur) :: readlines_aux s' []
      else readlines_aux s' (c :: cur)
  end.

Definition readlines (s : str) : list str := readlines_aux s [].

(** [f.writelines(lines)] *)
Definition writelines (lines : list str) : str := concat lines.

(** Decimal rendering of an [int], as [str(n)] and f-strings do. *)
Fixpoint digits_of_uint (d : Decimal.uint) : str :=
  match d with
  | Decimal.Nil => []
  | Decimal.D0 d' => 48%N :: digits_of_uint d'
  | Decimal.D1 d' => 49%N :: digits_of_uint d'
  | Decimal.D2 d' => 50%N :: digits_of_uint d'
  | Decimal.D3 d' => 51%N :: digits_of_uint d'
  | Decimal.D4 d' => 52%N :: digits_of_uint d'
  | Decimal.D5 d' => 53%N :: digits_of_uint d'
  | Decimal.D6 d' => 54%N :: digits_of_uint d'
  | Decimal.D7 d' => 55%N :: digits_of_uint d'
  | Decimal.D8 d' => 56%N :: digits_of_uint d'
  | Decimal.D9 d' => 57%N :: digits_of_uint d'
  end.

Definition str_of_int (z : Z) : str :=
  match z with
  | Z0 => [48%N]
  | Zpos p => digits_of_uint (Pos.to_uint p)
  | Zneg p => 45%N :: digits_of_uint (Pos.to_uint p)
  end.

End Str.

Import Str.

Declare Scope str_scope.
Delimit Scope str_scope with str.
Bind Scope str_scope with str.
Notation "a =? b" := (Str.eqb a b) : str_scope.

(* ------------------------------------------------------------------ *)
(** ** Exceptions *)

Inductive exn : Type :=
| SystemExit (msg : str)      (* raise SystemExit(msg) *)
| ValueError                  (* random.sample, tuple unpacking, the date parser *)
| CalledProcessError          (* subprocess.run(..., check=True) *)
| OverflowError               (* [day] * n with n beyond sys.maxsize *)
| MemoryError.                (* a list too long for the memory there is *)

Inductive result (A : Type) : Type :=
| Ok (a : A)
| Raise (e : exn).

Arguments Ok {A} a.
Arguments Raise {A} e.

Definition rbind {A B} (r : result A) (k : A -> result B) : result B :=
  match r with
  | Ok a => k a
  | Raise e => Raise e
  end.

Notation "'try!' x <- r ; k" := (rbind r (fun x => k))
  (at level 10, x pattern, r at level 100, k at level 200).

(* ------------------------------------------------------------------ *)
(** ** pathlib.Path (relative POSIX paths with at least one component) *)

Module PathLib.

Record Path : Type := mkPath { dirs : list str; name : str }.

(** [p.parts] and [p.parts[0]] *)
Definition parts (p : Path) : list str := dirs p ++ [name p].
Definition parts0 (p : Path) : str := hd (name p) (dirs p).

(** [str(p)] *)
Definition to_str (p : Path) : str := join (u "/") (parts p).

(** The test [0 < i < len(name) - 1] of [suffix] and [stem]. *)
Definition dot_index (nm : str) : option nat :=
  match rfind 46%N nm with
  | Some i => if (0 <? i) && (S i <? length nm) then Some i else None
  | None => None
  end.

(** [p.suffix] *)
Definition suffix (p : Path) : str :=
  match dot_index (name p) with
  | Some i => skipn i (name p)
  | None => []
  end.

(** [p.stem] *)
Definition stem (p : Path) : str :=
  match dot_index (name p) with
  | Some i => firstn i (name p)
  | None => name p
  end.

Fixpoint strs_eqb (a b : list str) : bool :=
  match a, b with
  | [], [] => true
  | x :: a', y :: b' => Str.eqb x y && strs_eqb a' b'
  | _, _ => false
  end.

Definition path_eqb (p q : Path) : bool :=
  strs_eqb (dirs p) (dirs q) && Str.eqb (name p) (name q).

(** [f.suffix in {...}] *)
Definition suffix_in (exts : list str) (p : Path) : bool :=
  existsb (Str.eqb (suffix p)) exts.

End PathLib.

Import PathLib.

(* ------------------------------------------------------------------ *)
(** ** The regular expressions of the script *)

Module Re.

Definition is_word_opt (c : option char) : bool :=
  match c with
  | Some x => is_word x
  | None => false
  end.

(** \b between the character before the position ([None] at the start of the
    text) and the rest of the text. *)
Definition wb (prev : option char) (rest : str) : bool :=
  xorb (is_word_opt prev) (is_word_opt (hd_error rest)).

(** A literal of the pattern against the head of [s]; with [ci] the
    comparison ignores (ASCII) case.  The literals below are lower case.
    (Python's IGNORECASE lets the letters i and s of a pattern also match the
    non-ASCII letters U+0130, U+0131 and U+017F; a keyword found that way
    holds one of these letters, none of which fix, feat, feature or refactor
    can take, so that it is tallied under a key that [pick_type] never
    reads.) *)
Fixpoint lit (ci : bool) (p s : str) : bool :=
  match p, s with
  | [], _ => true
  | x :: p', y :: s' =>
      N.eqb x (if ci then lower_char y else y) && lit ci p' s'
  | _ :: _, [] => false
  end.

Definition last_error (s : str) : option char := hd_error (rev s).

(** [lit] followed by \b: the length matched. *)
Definition lit_b (ci : bool) (p s : str) : option nat :=
  if lit ci p s && wb (last_error (firstn (length p) s)) (skipn (length p) s)
  then Some (length p) else None.

(** An alternation [(p1|p2|...)\b]: the first alternative that matches
    together with the boundary behind it. *)
Fixpoint alt_b (ci : bool) (ps : list str) (s : str) : option nat :=
  match ps with
  | [] => None
  | p :: ps' =>
      match lit_b ci p s with
      | Some n => Some n
      | None => alt_b ci ps' s
      end
  end.

(** The alternatives of [_keyword_re], in the order of the pattern. *)
Definition keywords : list str :=
  map u ["fix"; "bug"; "error"; "issue"; "exception"; "todo"; "refactor";
         "feature"; "feat"; "add"; "added"; "remove"; "removed"]%string.

(** [_keyword_re] tried at one position: \b, an alternative, \b. *)
Definition keyword_at (prev : option char) (s : str) : option nat :=
  if wb prev s then alt_b true keywords s else None.

(** [_keyword_re.search(text)] *)
Fixpoint search_from (prev : option char) (s : str) : bool :=
  match keyword_at prev s with
  | Some _ => true
  | None =>
      match s with
      | [] => false
      | c :: s' => search_from (Some c) s'
      end
  end.

Definition keyword_search (text : str) : bool := search_from None text.

(** [_keyword_re.findall(text)]: the matches from left to right, the scan
    resuming behind each match ([skip] counts the characters of the current
    match that are still to be passed). *)
Fixpoint findall_from (prev : option char) (s : str) (skip : nat) : list str :=
  match s with
  | [] => []
  | c :: s' =>
      match skip with
      | S k => findall_from (Some c) s' k
      | O =>
          match keyword_at prev s with
          | Some n => firstn n s :: findall_from (Some c) s' (n - 1)
          | None => findall_from (Some c) s' 0
          end
      end
  end.

Definition keyword_findall (text : str) : list str := findall_from None text 0.

(** [re.match(r"(def|class|function)\b", text)] *)
Definition definition_re (text : str) : bool :=
  match alt_b false (map u ["def"; "class"; "function"]%string) text with
  | Some _ => true
  | None => false
  end.

(** [re.match(r"(test_|it\(|describe\()", text)] *)
Definition test_re (text : str) : bool :=
  existsb (fun p => lit false p text) (map u ["test_"; "it("; "describe("]%string).

(** [re.match(r"^\s*def\s+\w+", line)].  The classes \s and \w are disjoint
    and neither contains the letter d, so the greedy runs decide the match. *)
Definition def_line_re (line : str) : bool :=
  let r := lstrip line in
  lit false (u "def") r &&
  match skipn 3 r with
  | c :: r2 =>
      isspace c &&
      match lstrip r2 with
      | d :: _ => is_word d
      | [] => false
      end
  | [] => false
  end.

End Re.

(* ------------------------------------------------------------------ *)
(** ** collections.Counter *)

Module Counter.

(** The numbers a tally holds: Python [int]s, and the [float]s that arise from
    adding 0.5, kept as a count of halves (exact in binary floating point). *)
Inductive num : Type :=
| Int (n : Z)
| Float (halves : Z).

(** Twice the value. *)
Definition twice (v : num) : Z :=
  match v with
  | Int n => 2 * n
  | Float h => h
  end.

(** [a + b]: an [int] only when both are. *)
Definition add (a b : num) : num :=
  match a, b with
  | Int x, Int y => Int (x + y)
  | _, _ => Float (twice a + twice b)
  end.

(** [v > 0] *)
Definition positive (v : num) : bool := (0 <? twice v)%Z.

(** A Counter is a dict: the keys in insertion order. *)
Definition t := list (str * num).

Definition empty : t := [].

(** [c[k]], 0 for a missing key. *)
Fixpoint get (c : t) (k : str) : num :=
  match c with
  | [] => Int 0
  | (k', v) :: c' => if Str.eqb k' k then v else get c' k
  end.

(** [c[k] = v] *)
Fixpoint set (c : t) (k : str) (v : num) : t :=
  match c with
  | [] => [(k, v)]
  | (k', v') :: c' =>
      if Str.eqb k' k then (k', v) :: c' else (k', v') :: set c' k v
  end.

(** [c[k] += v] *)
Definition incr (c : t) (k : str) (v : num) : t := set c k (add (get c k) v).

(** [c.update(other)]: [c[elem] = count + c.get(elem, 0)] for every item. *)
Definition update (c other : t) : t :=
  fold_left (fun acc kv => set acc (fst kv) (add (snd kv) (get acc (fst kv))))
            other c.

(** [c.most_common()]: by decreasing count, ties in insertion order. *)
Fixpoint insert_desc (kv : str * num) (l : t) : t :=
  match l with
  | [] => [kv]
  | kv' :: l' =>
      if (twice (snd kv') <? twice (snd kv))%Z then kv :: l
      else kv' :: insert_desc kv l'
  end.

Definition most_common (c : t) : t :=
  fold_left (fun acc kv => insert_desc kv acc) c [].

(** How an f-string renders a count (floats print without an exponent below
    1e16, far above any count of lines). *)
Definition render (v : num) : str :=
  match v with
  | Int n => str_of_int n
  | Float h =>
      str_of_int (Z.quot h 2) ++ u "." ++ (if Z.even h then u "0" else u "5")
  end.

End Counter.

(* ------------------------------------------------------------------ *)
(** ** textwrap.shorten

    [shorten] collapses the whitespace of the text and hands the words to a
    [TextWrapper] with [max_lines=1].  On collapsed text the chunks of the
    wrapper are the words and the single spaces between them, provided the
    text holds no hyphen (the wrapper also breaks behind hyphens); the subject
    of a commit message never holds one, see [top_file]. *)

Module TextWrap.

Fixpoint chunks_of (words : list str) : list str :=
  match words with
  | [] => []
  | [w] => [w]
  | w :: rest => w :: u " " :: chunks_of rest
  end.

Definition total_len (chunks : list str) : nat := length (concat chunks).

Definition blank (chunk : str) : bool :=
  match strip chunk with
  | [] => true
  | _ => false
  end.

(** The inner loop of [_wrap_chunks]: chunks go to the current line while
    [cur_len + len(chunk) <= width]. *)
Fixpoint take_fitting (width cur_len : nat) (chunks : list str)
  : list str * list str :=
  match chunks with
  | [] => ([], [])
  | c :: rest =>
      if cur_len + length c <=? width
      then let (line, left) := take_fitting width (cur_len + length c) rest in
           (c :: line, left)
      else ([], chunks)
  end.

(** [_handle_long_word] with [break_long_words]: the next chunk fits on no
    line, so as much of it as there is room for goes to the current line. *)
Definition handle_long_word (width : nat) (cur_line chunks : list str)
  : list str * list str :=
  match chunks with
  | c :: rest =>
      if width <? length c
      then let space_left := width - total_len cur_line in
           (cur_line ++ [firstn space_left c], skipn space_left c :: rest)
      else (cur_line, chunks)
  | [] => (cur_line, chunks)
  end.

(** [drop_whitespace]: a line does not end in a whitespace chunk. *)
Definition drop_trailing_blank (cur_line : list str) : list str :=
  match rev cur_line with
  | c :: before => if blank c then rev before else cur_line
  | [] => cur_line
  end.

(** The line is cut: chunks are dropped from its end until a non-blank chunk
    leaves room for the placeholder. *)
Fixpoint with_placeholder (width : nat) (placeholder : str)
         (rev_line : list str) : str :=
  match rev_line with
  | [] => lstrip placeholder
  | c :: before =>
      if negb (blank c) && (total_len rev_line + length placeholder <=? width)
      then concat (rev rev_line) ++ placeholder
      else with_placeholder width placeholder before
  end.

(** The first (and, with [max_lines=1], only) line of [_wrap_chunks].  For a
    positive width the current line is empty only when there is no chunk at
    all, and then there is no line. *)
Definition wrap_one_line (width : nat) (placeholder : str)
           (chunks : list str) : str :=
  let (fit, left) := take_fitting width 0 chunks in
  let (cur_line0, left') := handle_long_word width fit left in
  let cur_line := drop_trailing_blank cur_line0 in
  match cur_line with
  | [] => []
  | _ :: _ =>
      if (match left' with
          | [] => true
          | [c] => blank c
          | _ => false
          end) && (total_len cur_line <=? width)
      then concat cur_line
      else with_placeholder width placeholder (rev cur_line)
  end.

(** [shorten(text, width=width, placeholder=placeholder)] *)
Definition shorten (text : str) (width : nat) (placeholder : str) : str :=
  wrap_one_line width placeholder (chunks_of (split_ws (strip text))).

End TextWrap.

(* ------------------------------------------------------------------ *)
(** ** The commit-message synthesizer *)

(** The filter at the head of the loop of [_classify_change]: the line is an
    added or removed line and not a file header. *)
Definition changed_line (line : str) : bool :=
  match line with
  | [] => false
  | c :: _ =>
      (N.eqb c 43 || N.eqb c 45) &&
      negb (startswith (u "+++") line || startswith (u "---") line)
  end.

(** [text = line[1:].strip()] *)
Definition line_text (line : str) : str := strip (tl line).

(** [kinds[kw.lower()[:4]] += 1] for every keyword found. *)
Definition tally_keywords (kinds : Counter.t) (text : str) : Counter.t :=
  if Re.keyword_search text
  then fold_left (fun k kw => Counter.incr k (firstn 4 (lower kw)) (Counter.Int 1))
                 (Re.keyword_findall text) kinds
  else kinds.

Definition comment_markers : list str :=
  [u "#"; u "//"; u "/*"; u "*"; [34; 34; 34]%N].

(** The body of the loop of [_classify_change] for one line. *)
Definition classify_line (kinds : Counter.t) (line : str) : Counter.t :=
  if changed_line line then
    let text := line_text line in
    let kinds := tally_keywords kinds text in
    let kinds := if Re.definition_re text
                 then Counter.incr kinds (u "feat") (Counter.Int 2) else kinds in
    let kinds := if Re.test_re text
                 then Counter.incr kinds (u "test") (Counter.Int 1) else kinds in
    if existsb (fun m => startswith m text) comment_markers
    then Counter.incr kinds (u "docs") (Counter.Float 1) else kinds
  else kinds.

Definition _classify_change (diff : str) : Counter.t :=
  fold_left classify_line (splitlines diff) Counter.empty.

(** The closure [pick_type] of [generate_commit_message]. *)
Definition pick_type (overall_kinds : Counter.t) (files : list Path) : str :=
  if Counter.positive (Counter.get overall_kinds (u "fix")) then u "fix"
  else if Counter.positive (Counter.get overall_kinds (u "feat")) then u "feat"
  else if Counter.positive (Counter.get overall_kinds (u "refa")) then u "refactor"
  else if forallb (suffix_in [u ".md"; u ".rst"]) files then u "docs"
  else if forallb (fun f => contains (u "test") (parts0 f)
                            || suffix_in [u ".spec"; u ".test"] f) files
       then u "test"
  else if forallb (suffix_in [u ".css"; u ".scss"; u ".sass"]) files then u "style"
  else u "chore".

(** [adds, dels, _ = stats.split("\t") if stats else ("0", "0", str(f))] *)
Definition unpack_stats (stats : str) : result (str * str) :=
  match stats with
  | [] => Ok (u "0", u "0")
  | _ =>
      match split_on 9%N stats with
      | [adds; dels; _] => Ok (adds, dels)
      | _ => Raise ValueError
      end
  end.

(** [f"- {f} (+{adds} / -{dels})"] *)
Definition bullet (f : Path) (adds dels : str) : str :=
  u "- " ++ to_str f ++ u " (+" ++ adds ++ u " / -" ++ dels ++ u ")".

(** A [subprocess.run(..., check=True)] whose output is read: [None] is a
    non-zero exit of git. *)
Definition run_git (git : Path -> option str) (f : Path) : result str :=
  match git f with
  | Some out => Ok out
  | None => Raise CalledProcessError
  end.

(** The loop over [files]: the diff and the numstat of every file are asked
    of git, the tallies are merged and a bullet is appended. *)
Fixpoint scan_files (git_diff git_numstat : Path -> option str)
         (files : list Path) (overall_kinds : Counter.t) (bullets : list str)
  : result (Counter.t * list str) :=
  match files with
  | [] => Ok (overall_kinds, bullets)
  | f :: rest =>
      try! diff <- run_git git_diff f;
      try! out <- run_git git_numstat f;
      let stats := strip out in
      try! ad <- unpack_stats stats;
      let kinds := _classify_change diff in
      scan_files git_diff git_numstat rest
                 (Counter.update overall_kinds kinds)
                 (bullets ++ [bullet f (fst ad) (snd ad)])
  end.

(** [files[0].stem.replace("_", " ").replace("-", " ")] *)
Definition top_file (f : Path) : str :=
  replace_char 45%N 32%N (replace_char 95%N 32%N (stem f)).

Definition ellipsis : str := [8230%N].

Definition subject_of (commit_type : str) (first : Path) : str :=
  TextWrap.shorten (commit_type ++ u ": update " ++ top_file first) 50 ellipsis.

(** [", ".join(f"{k}×{v}" for k, v in overall_kinds.most_common())] *)
Definition summary_of (overall_kinds : Counter.t) : str :=
  join (u ", ")
       (map (fun kv => fst kv ++ [215%N] ++ Counter.render (snd kv))
            (Counter.most_common overall_kinds)).

(** [git_diff f] is the staged diff [_git_diff_for(f)] and [git_numstat f]
    the output of [git diff --cached --numstat -- f]. *)
Definition generate_commit_message (git_diff git_numstat : Path -> option str)
           (files : list Path) : result str :=
  match files with
  | [] => Ok (u "chore: update project" ++ [NL; NL] ++ u "(no file changes detected)")
  | first :: _ =>
      try! scanned <- scan_files git_diff git_numstat files Counter.empty [];
      let overall_kinds := fst scanned in
      let bullets := snd scanned in
      let commit_type := pick_type overall_kinds files in
      let subject := subject_of commit_type first in
      let summary := summary_of overall_kinds in
      Ok (subject ++ [NL])
  end.

(** The two commands the loop starts for a file. *)
Definition diff_cmd (f : Path) : list str :=
  map u ["git"; "diff"; "--cached"; "--unified=0"; "--"]%string ++ [to_str f].

Definition numstat_cmd (f : Path) : list str :=
  map u ["git"; "diff"; "--cached"; "--numstat"; "--"]%string ++ [to_str f].

(** The commands [generate_commit_message] has started when it returns or
    raises, in their order: the diff and the numstat query of every file, up
    to the file at which [scan_files] leaves the loop. *)
Fixpoint scan_queries (git_diff git_numstat : Path -> option str)
         (files : list Path) : list (list str) :=
  match files with
  | [] => []
  | f :: rest =>
      diff_cmd f ::
      match run_git git_diff f with
      | Raise _ => []
      | Ok _ =>
          numstat_cmd f ::
          match (try! out <- run_git git_numstat f; unpack_stats (strip out)) with
          | Raise _ => []
          | Ok _ => scan_queries git_diff git_numstat rest
          end
      end
  end.

(* ------------------------------------------------------------------ *)
(** ** datetime *)

Module DateTime.

(** A naive datetime: microseconds since 0001-01-01T00:00:00. *)
Definition datetime := Z.

Definition DAY : Z := 86400000000.

(** [t + timedelta(days=i)] *)
Definition plus_days (t : datetime) (i : Z) : datetime := (t + i * DAY)%Z.

(** [(a - b).days]: a timedelta is normalised with its remainder in
    [0, 1 day), so the days are the floor of the quotient. *)
Definition days_between (a b : datetime) : Z := ((a - b) / DAY)%Z.

(** [t.date()], as the number of whole days since 0001-01-01. *)
Definition date (t : datetime) : Z := (t / DAY)%Z.

Definition is_leap (y : Z) : bool :=
  ((y mod 4 =? 0) && (negb (y mod 100 =? 0) || (y mod 400 =? 0)))%Z.

Definition days_before_year (y : Z) : Z :=
  let p := (y - 1)%Z in (p * 365 + p / 4 - p / 100 + p / 400)%Z.

Definition days_in_month (y m : Z) : Z :=
  if (m =? 2)%Z then (if is_leap y then 29 else 28)%Z
  else if ((m =? 4) || (m =? 6) || (m =? 9) || (m =? 11))%Z then 30%Z
  else 31%Z.

(** The days of the year before the first of month [m]. *)
Fixpoint days_before_month (y : Z) (m : nat) : Z :=
  match m with
  | O => 0%Z
  | S O => 0%Z
  | S (S _ as m') => (days_before_month y m' + days_in_month y (Z.of_nat m'))%Z
  end.

(** [datetime(y, m, d)], midnight. *)
Definition of_ymd (y m d : Z) : datetime :=
  ((days_before_year y + days_before_month y (Z.to_nat m) + d - 1) * DAY)%Z.

Definition digit (c : char) : option Z :=
  if between 48 c 57 then Some (Z.of_N c - 48)%Z else None.

Fixpoint number (s : str) (acc : Z) : option Z :=
  match s with
  | [] => Some acc
  | c :: s' =>
      match digit c with
      | Some d => number s' (acc * 10 + d)%Z
      | None => None
      end
  end.

(** [datetime.fromisoformat] on the form YYYY-MM-DD, the form the command line
    documents; [None] stands for its ValueError.  The full parser is a field
    of [world]; this one instantiates it in the examples. *)
Definition iso_date (s : str) : option datetime :=
  match s with
  | [y1; y2; y3; y4; 45%N; m1; m2; 45%N; d1; d2] =>
      match number [y1; y2; y3; y4] 0, number [m1; m2] 0, number [d1; d2] 0 with
      | Some y, Some m, Some d =>
          if ((1 <=? y) && (1 <=? m) && (m <=? 12)
              && (1 <=? d) && (d <=? days_in_month y m))%Z
          then Some (of_ymd y m d) else None
      | _, _, _ => None
      end
  | _ => None
  end.

End DateTime.

Import DateTime.

(* ------------------------------------------------------------------ *)
(** ** The environment: files, git, the random generator *)

(** What the script can observe of a file: [st_size], and what
    [open(file, "r", encoding="utf-8")] yields ([None] when the bytes do not
    decode; newlines already translated to "\n"). *)
Record file : Type := mkFile {
  f_size : Z;
  f_text : option str;
  f_readable : bool;
  f_writable : bool
}.

(** Paths that are no file map to [None]. *)
Definition filesystem := Path -> option file.

(** What the run does to the outside: the git commands it starts -- those of
    [tracked_files] and [sh] and the diff queries of
    [generate_commit_message] -- with the date given as GIT_AUTHOR_DATE and
    GIT_COMMITTER_DATE if any, and the lines printed. *)
Inductive event : Type :=
| Git (argv : list str) (date : option datetime)
| Print (day : Z) (msg : str).

Record state : Type := mkState {
  fs : filesystem;
  draws : nat;             (* how many random numbers have been drawn *)
  log : list event         (* oldest first *)
}.

Record world : Type := mkWorld {
  fromisoformat : str -> option datetime;   (* [None]: ValueError *)
  rng : nat -> nat;                         (* the n-th raw random number *)
  ls_files : list Path;                     (* the lines git ls-files prints *)
  git_ok : state -> list str -> bool;       (* does this git command exit 0? *)
  staged_diff : state -> Path -> option str;   (* [None]: git fails *)
  staged_numstat : state -> Path -> option str;
  maxsize : Z;                              (* sys.maxsize *)
  room : Z        (* the longest pool of day slots that memory can hold *)
}.

(** Computations that read and change the state and may raise. *)
Definition M (A : Type) : Type := state -> result A * state.

Definition ret {A} (a : A) : M A := fun st => (Ok a, st).

Definition raise {A} (e : exn) : M A := fun st => (Raise e, st).

Definition bind {A B} (m : M A) (k : A -> M B) : M B :=
  fun st =>
    match m st with
    | (Ok a, st') => k a st'
    | (Raise e, st') => (Raise e, st')
    end.

Notation "x <- m ;; k" := (bind m (fun x => k))
  (at level 61, m at next level, right associativity).
Notation "m ;; k" := (bind m (fun _ => k))
  (at level 61, right associativity).

Definition emit (e : event) : M unit :=
  fun st => (Ok tt, mkState (fs st) (draws st) (log st ++ [e])).

(** UTF-8 length of a text, the [st_size] of a file just written. *)
Definition utf8_len (t : str) : Z :=
  fold_left (fun n c => n + (if (c <? 128)%N then 1
                             else if (c <? 2048)%N then 2
                             else if (c <? 65536)%N then 3 else 4))%Z
            t 0%Z.

(** [open(file, "w", encoding="utf-8")] followed by [f.writelines(lines)]. *)
Definition write_file (p : Path) (old : file) (lines : list str) : M unit :=
  fun st =>
    let t := writelines lines in
    let new := mkFile (utf8_len t) (Some t) (f_readable old) (f_writable old) in
    (Ok tt, mkState (fun q => if path_eqb p q then Some new else fs st q)
                    (draws st) (log st)).

(** [Path(line).is_file()] *)
Definition is_file (st : state) (p : Path) : bool :=
  match fs st p with
  | Some _ => true
  | None => false
  end.

Section Script.

Variable w : world.

(** One raw number from the generator. *)
Definition draw : M nat :=
  fun st => (Ok (rng w (draws st)), mkState (fs st) (S (draws st)) (log st)).

(** [random.random() < percent / 100]: the raw number read as hundredths. *)
Definition random_below (percent : nat) : M bool :=
  r <- draw ;; ret (r mod 100 <? percent).

(** [random.randint(a, b)] for [a <= b]. *)
Definition randint (a b : nat) : M nat :=
  r <- draw ;; ret (a + r mod (b - a + 1)).

(** [random.choice(options)] *)
Definition choice {A} (default : A) (options : list A) : M A :=
  r <- draw ;; ret (nth (r mod length options) options default).

(** The selection loop of [random.sample]: [k] picks from the positions that
    are still free. *)
Fixpoint sample_from {A} (pool : list A) (k : nat) : M (list A) :=
  match k with
  | O => ret []
  | S k' =>
      r <- draw ;;
      let j := r mod length pool in
      match nth_error pool j with
      | Some x =>
          rest <- sample_from (firstn j pool ++ skipn (S j) pool) k' ;;
          ret (x :: rest)
      | None => ret []
      end
  end.

(** [random.sample(population, k)] *)
Definition sample {A} (population : list A) (k : Z) : M (list A) :=
  if ((k <? 0) || (Z.of_nat (length population) <? k))%Z
  then raise ValueError
  else sample_from population (Z.to_nat k).

(** [sh(cmd)] and [sh(cmd, env=env)]: the command is run and a non-zero exit
    raises. *)
Definition sh (argv : list str) (date : option datetime) : M unit :=
  fun st =>
    let st' := mkState (fs st) (draws st) (log st ++ [Git argv date]) in
    if git_ok w st argv then (Ok tt, st') else (Raise CalledProcessError, st').

Definition ls_files_cmd : list str :=
  map u ["git"; "ls-files"; "--cached"; "--others"; "--exclude-standard"]%string.

(** [tracked_files()]: the listed paths that are regular files. *)
Definition tracked_files : M (list Path) :=
  sh ls_files_cmd None ;;
  fun st => (Ok (filter (is_file st) (ls_files w)), st).

(* ---------------- the file mutator ---------------- *)

(** The truth value of a string. *)
Definition truthy (s : str) : bool :=
  match s with
  | [] => false
  | _ :: _ => true
  end.

(** [new_lines.insert(idx, x)] *)
Definition insert_at {A} (idx : nat) (x : A) (l : list A) : list A :=
  firstn idx l ++ x :: skipn idx l.

(** [if new_lines[idx].strip() and new_lines[idx-1].strip():
       new_lines.insert(idx, "\n")] *)
Definition add_blank_line (idx : nat) (new_lines : list str)
  : option (list str) :=
  if truthy (strip (nth idx new_lines [])) &&
     truthy (strip (nth (idx - 1) new_lines []))
  then Some (insert_at idx [NL] new_lines)
  else None.

(** [line.rstrip() != line and line.strip()] *)
Definition has_trailing_ws (line : str) : bool :=
  negb (Str.eqb (rstrip line) line) && truthy (strip line).

(** [line.rstrip() + "\n" if line.endswith("\n") else line.rstrip()], for
    the lines that satisfy the condition above. *)
Definition trim_line (line : str) : str :=
  if has_trailing_ws line
  then (if endswith [NL] line then rstrip line ++ [NL] else rstrip line)
  else line.

Definition triple_double : str := [34; 34; 34]%N.
Definition triple_single : str := [39; 39; 39]%N.

Definition docstring_texts : list str :=
  map u ["Helper function"; "Process data"; "Validate input";
         "Format output"]%string.

(** The line inserted behind the definition line [line]. *)
Definition docstring (line text : str) : str :=
  let indent := length line - length (lstrip line) in
  repeat 32%N (indent + 4) ++ triple_double ++ text ++ u "." ++ triple_double
  ++ [NL].

Definition has_docstring (next : str) : bool :=
  startswith triple_double (strip next) || startswith triple_single (strip next).

(** The index of the first definition line that has a line behind it which
    does not open a docstring; the loop stops there. *)
Fixpoint docstring_slot (lines : list str) : option nat :=
  match lines with
  | line :: ((next :: _) as rest) =>
      if Re.def_line_re line && negb (has_docstring next) then Some 0
      else option_map S (docstring_slot rest)
  | _ => None
  end.

(** The branch for Python files. *)
Definition edit_python (lines : list str) : M (list str * bool) :=
  coin <- random_below 30 ;;
  r <- (if coin && (5 <? length lines)
        then idx <- randint 2 (length lines - 2) ;;
             ret (match add_blank_line idx lines with
                  | Some l => (l, true)
                  | None => (lines, false)
                  end)
        else ret (lines, false)) ;;
  let changes_made := snd r || existsb has_trailing_ws (fst r) in
  let new_lines := map trim_line (fst r) in
  coin <- random_below 20 ;;
  if coin
  then match docstring_slot new_lines with
       | Some i =>
           text <- choice [] docstring_texts ;;
           ret (insert_at (S i) (docstring (nth i new_lines []) text) new_lines,
                true)
       | None => ret (new_lines, changes_made)
       end
  else ret (new_lines, changes_made).

(** The branch for the other text files. *)
Definition edit_other (lines : list str) : M (list str * bool) :=
  let changes_made := existsb has_trailing_ws lines in
  let new_lines := map trim_line lines in
  coin <- random_below 30 ;;
  if coin && (3 <? length new_lines)
  then idx <- randint 1 (length new_lines - 1) ;;
       ret (match add_blank_line idx new_lines with
            | Some l => (l, true)
            | None => (new_lines, changes_made)
            end)
  else ret (new_lines, changes_made).

(** The repair of the last line before the file is written. *)
Definition fix_last (lines new_lines : list str) : list str :=
  match rev lines, rev new_lines with
  | l :: _, n :: before =>
      if endswith [NL] l && negb (endswith [NL] n)
      then rev ((n ++ [NL]) :: before)
      else if negb (endswith [NL] l) && endswith [NL] n
      then rev (rstrip n :: before)
      else new_lines
  | _, _ => new_lines
  end.

(** The body of the loop of [touch_files].  Every way out through the
    [except] clause (no such file, no permission, undecodable bytes) leaves the
    file as it is and goes on with the next one. *)
Definition touch_file (file : Path) : M unit :=
  fun st =>
    if negb (truthy (suffix file)) then (Ok tt, st)
    else
      match fs st file with
      | None => (Ok tt, st)
      | Some fl =>
          if (100000 <? f_size fl)%Z then (Ok tt, st)
          else if negb (f_readable fl) then (Ok tt, st)
          else
            match f_text fl with
            | None => (Ok tt, st)
            | Some t =>
                let lines := readlines t in
                match lines with
                | [] => (Ok tt, st)
                | _ :: _ =>
                    (r <- (if Str.eqb (suffix file) (u ".py")
                           then edit_python lines else edit_other lines) ;;
                     go <- (if snd r then ret true else random_below 40) ;;
                     if go && f_writable fl
                     then write_file file fl (fix_last lines (fst r))
                     else ret tt) st
                end
            end
      end.

Fixpoint touch_files (files : list Path) : M unit :=
  match files with
  | [] => ret tt
  | file :: rest => touch_file file ;; touch_files rest
  end.

(* ---------------- main logic ---------------- *)

(** [sorted] on datetimes. *)
Fixpoint insert_sorted (x : datetime) (l : list datetime) : list datetime :=
  match l with
  | [] => [x]
  | y :: l' => if (x <=? y)%Z then x :: l else y :: insert_sorted x l'
  end.

Definition sorted (l : list datetime) : list datetime :=
  fold_right insert_sorted [] l.

(** [range(n)] *)
Definition range (n : Z) : list Z := map Z.of_nat (seq 0 (Z.to_nat n)).

(** The pool of day slots when the loop gets through: every day of the range
    [max_per_day] times.  Whether it gets through is [build_pool]'s matter. *)
Definition possible_dates (start_dt : datetime) (total_days max_per_day : Z)
  : list datetime :=
  flat_map (fun i => repeat (plus_days start_dt i) (Z.to_nat max_per_day))
           (range total_days).

Definition msg_end_before_start : str := u "End date must be after start date.".
Definition msg_no_files : str := u "No tracked or unignored files found.".
Definition msg_cannot_fit (commits : Z) (start end_ : str) (max_per_day : Z)
  : str :=
  u "Cannot fit " ++ str_of_int commits ++ u " commits into range " ++ start
  ++ u " to " ++ end_ ++ u " with max " ++ str_of_int max_per_day
  ++ u " per day.".

Definition parse (s : str) : M datetime :=
  match fromisoformat w s with
  | Some t => ret t
  | None => raise ValueError
  end.

(** The loop that fills [possible_dates], run for a positive [total_days].
    [[day] * max_per_day] raises OverflowError when [max_per_day] does not
    fit an index, and the list, which in the end holds
    [total_days * max(max_per_day, 0)] slots, can only grow while there is
    memory for it: the pool is built in full before [commits] is looked at. *)
Definition build_pool (start_dt : datetime) (total_days max_per_day : Z)
  : M (list datetime) :=
  if (maxsize w <? max_per_day)%Z then raise OverflowError
  else if (room w <? total_days * Z.max 0 max_per_day)%Z then raise MemoryError
  else ret (possible_dates start_dt total_days max_per_day).

(** The first half of [backfill], up to [chosen_dates]. *)
Definition schedule (start end_ : str) (commits max_per_day : Z)
  : M (list Path * list datetime) :=
  start_dt <- parse start ;;
  end_dt <- parse end_ ;;
  let total_days := (days_between end_dt start_dt + 1)%Z in
  if (total_days <=? 0)%Z then raise (SystemExit msg_end_before_start)
  else
    allfiles <- tracked_files ;;
    if negb (0 <? length allfiles) then raise (SystemExit msg_no_files)
    else
      pool <- build_pool start_dt total_days max_per_day ;;
      if (Z.of_nat (length pool) <? commits)%Z
      then raise (SystemExit (msg_cannot_fit commits start end_ max_per_day))
      else
        picked <- sample pool commits ;;
        ret (allfiles, sorted picked).

(** [generate_commit_message(batch)] in the run: git answers its queries
    from the index as [git add] has left it, and every query it starts goes
    to the log. *)
Definition message_for (batch : list Path) : M str :=
  fun st =>
    let git_diff := staged_diff w st in
    let git_numstat := staged_numstat w st in
    (generate_commit_message git_diff git_numstat batch,
     mkState (fs st) (draws st)
             (log st ++ map (fun argv => Git argv None)
                            (scan_queries git_diff git_numstat batch))).

(** The body of the loop over [chosen_dates]. *)
Definition commit_at (allfiles : list Path) (branch : str)
           (timestamp : datetime) : M unit :=
  num_files <- randint 5 10 ;;
  batch <- sample allfiles (Z.of_nat (Nat.min num_files (length allfiles))) ;;
  touch_files batch ;;
  sh (map u ["git"; "add"]%string ++ map to_str batch) None ;;
  msg <- message_for batch ;;
  sh (map u ["git"; "commit"; "-m"]%string ++ [msg]) (Some timestamp) ;;
  sh (map u ["git"; "push"; "-u"; "origin"]%string ++ [branch]) None ;;
  emit (Print (date timestamp) msg).

Fixpoint commit_all (allfiles : list Path) (branch : str)
         (chosen_dates : list datetime) : M unit :=
  match chosen_dates with
  | [] => ret tt
  | timestamp :: rest =>
      commit_at allfiles branch timestamp ;; commit_all allfiles branch rest
  end.

Definition backfill (start end_ : str) (commits : Z) (branch : str)
           (max_per_day : Z) : M unit :=
  plan <- schedule start end_ commits max_per_day ;;
  sh (map u ["git"; "checkout"; "-B"]%string ++ [branch]) None ;;
  commit_all (fst plan) branch (snd plan).

End Script.

(* ------------------------------------------------------------------ *)
(** ** A small concrete environment, for the examples *)

Module Demo.

Definition readme : Path := mkPath [] (u "README.md").
Definition app : Path := mkPath [u "src"] (u "app.py").
Definition makefile : Path := mkPath [] (u "Makefile").
Definition big : Path := mkPath [u "data"] (u "big.csv").
Definition notes : Path := mkPath [] (u "notes.txt").

Definition text_file (t : str) : file := mkFile (utf8_len t) (Some t) true true.

Definition readme_text : str :=
  u "# Title  " ++ [NL] ++ u "Some text" ++ [NL] ++ u "more text" ++ [NL]
  ++ u "last line" ++ [NL].

Definition app_text : str :=
  u "def f(x):" ++ [NL] ++ u "    return x  " ++ [NL] ++ u "def g(y):" ++ [NL]
  ++ u "    return y" ++ [NL] ++ u "a = f(1)" ++ [NL] ++ u "b = g(2)" ++ [NL]
  ++ u "print(a, b)" ++ [NL].

Definition makefile_text : str := u "all:" ++ [NL; 9%N] ++ u "echo hi  " ++ [NL].

Definition notes_text : str := u "alpha  " ++ [NL] ++ u "beta".

Definition files : filesystem :=
  fun p =>
    if path_eqb p readme then Some (text_file readme_text)
    else if path_eqb p app then Some (text_file app_text)
    else if path_eqb p makefile then Some (text_file makefile_text)
    else if path_eqb p big   (* only its size matters *)
    then Some (mkFile 200000 (Some (u "a,b  " ++ [NL])) true true)
    else if path_eqb p notes then Some (text_file notes_text)
    else None.

Definition init : state := mkState files 0 [].

Definition a_diff : str :=
  u "diff --git a/x b/x" ++ [NL] ++ u "--- a/x" ++ [NL] ++ u "+++ b/x" ++ [NL]
  ++ u "@@ -1 +1 @@" ++ [NL] ++ u "-return x  " ++ [NL] ++ u "+return x" ++ [NL].

(** git always succeeds; the generator is a fixed sequence; there is memory
    for a million day slots. *)
Definition env : world :=
  mkWorld iso_date
          (fun n => 7 * n + 3)
          [readme; app; makefile; big; notes]
          (fun _ _ => true)
          (fun _ _ => Some a_diff)
          (fun _ f => Some (u "1" ++ [9%N] ++ u "1" ++ [9%N] ++ to_str f ++ [NL]))
          9223372036854775807 1000000.

(** Staged diffs for the examples of the synthesizer. *)
Definition diff_with (lines : list str) : str :=
  u "diff --git a/x b/x" ++ [NL] ++ u "--- a/x" ++ [NL] ++ u "+++ b/x" ++ [NL]
  ++ u "@@ -1 +1,2 @@" ++ [NL] ++ concat (map (fun l => l ++ [NL]) lines).

Definition fix_diff : str := diff_with [u "-old"; u "+Fix the parser"].
Definition class_diff : str := diff_with [u "+class diagrams are described here"].
Definition neutral_diff : str :=
  diff_with [u "+TODO: remove the bug, added error and issue";
             u "-# exception"; u "+test_add"].

Definition numstat (f : Path) : option str :=
  Some (u "2" ++ [9%N] ++ u "1" ++ [9%N] ++ to_str f ++ [NL]).

Definition tests_md : Path := mkPath [u "tests"] (u "guide.md").
Definition tests_css : Path := mkPath [u "tests"] (u "site.css").

End Demo.

(* ------------------------------------------------------------------ *)
(** ** Vocabulary of the statements *)

(** [m] never exits through [SystemExit]. *)
Definition no_exit {A} (m : M A) : Prop :=
  forall st msg, fst (m st) <> Raise (SystemExit msg).

(** [m] neither raises nor touches the files or the log. *)
Definition quiet {A} (m : M A) : Prop :=
  forall st, exists a st',
    m st = (Ok a, st') /\ fs st' = fs st /\ log st' = log st.

(** How many timestamps of [l] fall on calendar day [d]. *)
Definition on_day (d : Z) (l : list datetime) : nat :=
  count_occ Z.eq_dec (map date l) d.

(** The staged diff of [f], empty when git gives none. *)
Definition diff_of (git_diff : Path -> option str) (f : Path) : str :=
  match git_diff f with
  | Some d => d
  | None => []
  end.

(** The added and removed lines of the staged diffs of a batch. *)
Definition changed_lines (git_diff : Path -> option str) (files : list Path)
  : list str :=
  flat_map (fun f => filter changed_line (splitlines (diff_of git_diff f))) files.

(** Every keyword [_keyword_re] finds in those lines, in lower case. *)
Definition keywords_in (git_diff : Path -> option str) (files : list Path)
  : list str :=
  flat_map (fun line => map lower (Re.keyword_findall (line_text line)))
           (changed_lines git_diff files).

(** Some added or removed line opens with def, class or function. *)
Definition defines (git_diff : Path -> option str) (files : list Path) : bool :=
  existsb (fun line => Re.definition_re (line_text line))
          (changed_lines git_diff files).

(** The scanned keywords that name no commit type. *)
Definition neutral_keywords : list str :=
  map u ["bug"; "error"; "issue"; "exception"; "todo"; "add"; "added";
         "remove"; "removed"]%string.

(** The batch is of mixed types: not all documentation, not all tests, not
    all style sheets. *)
Definition mixed (files : list Path) : Prop :=
  forallb (suffix_in [u ".md"; u ".rst"]) files = false /\
  forallb (fun f => contains (u "test") (parts0 f)
                    || suffix_in [u ".spec"; u ".test"] f) files = false /\
  forallb (suffix_in [u ".css"; u ".scss"; u ".sass"]) files = false.

(** The key a found keyword is tallied under: [kw.lower()[:4]]. *)
Definition key_of (kw : str) : str := firstn 4 (lower kw).

(** The total a tally holds for [k], doubled. *)
Fixpoint weight (k : str) (c : Counter.t) : Z :=
  match c with
  | [] => 0%Z
  | (k', v) :: c' =>
      ((if Str.eqb k' k then Counter.twice v else 0) + weight k c')%Z
  end.

(** What one line of a diff adds to the tally of [k], doubled. *)
Definition keyword_votes (k text : str) : Z :=
  if Re.keyword_search text
  then (2 * Z.of_nat (length (filter (fun kw => Str.eqb (key_of kw) k)
                                     (Re.keyword_findall text))))%Z
  else 0%Z.

Definition line_votes (k line : str) : Z :=
  if changed_line line then
    let text := line_text line in
    (keyword_votes k text
     + (if Re.definition_re text && Str.eqb (u "feat") k then 4 else 0)
     + (if Re.test_re text && Str.eqb (u "test") k then 2 else 0)
     + (if existsb (fun m => startswith m text) comment_markers
           && Str.eqb (u "docs") k then 1 else 0))%Z
  else 0%Z.

Definition sumZ (l : list Z) : Z := fold_right Z.add 0%Z l.

Definition votes (k : str) (git_diff : Path -> option str) (files : list Path)
  : Z :=
  sumZ (map (line_votes k)
            (flat_map (fun f => splitlines (diff_of git_diff f)) files)).

(** The commit type [pick_type] returns inside [generate_commit_message],
    when the scan of the batch goes through. *)
Definition selected_type (git_diff git_numstat : Path -> option str)
           (files : list Path) : option str :=
  match scan_files git_diff git_numstat files Counter.empty [] with
  | Ok scanned => Some (pick_type (fst scanned) files)
  | Raise _ => None
  end.

(** Every chunk of the line is a chunk of the text, or the head of one. *)
Definition from_chunks (line chunks : list str) : Prop :=
  forall x, In x line -> exists c n, In c chunks /\ x = firstn n c.

(** [m] does not raise, leaves files and log alone, and its result
    satisfies [P]. *)
Definition yields {A} (m : M A) (P : A -> Prop) : Prop :=
  forall st, exists a st',
    m st = (Ok a, st') /\ fs st' = fs st /\ log st' = log st /\ P a.

(** The edited lines still end in the last line of the file, with or without
    its newline as before. *)
Definition last_line (lines : list str) : str := last lines [].

Definition keeps_last (lines new_lines : list str) : Prop :=
  new_lines <> [] /\ last_line new_lines <> [] /\
  endswith [NL] (last_line new_lines) = endswith [NL] (last_line lines).

(** Every readable text of [fs1] is still a readable text in [fs2], and ends
    in a newline there if and only if it did. *)
Definition same_endings (fs1 fs2 : filesystem) : Prop :=
  forall p fl t,
    fs1 p = Some fl -> f_text fl = Some t ->
    exists fl' t',
      fs2 p = Some fl' /\ f_text fl' = Some t' /\
      endswith [NL] t' = endswith [NL] t.

(** The dates under which the git commands of a log were run, in order: only
    [git commit] is run with a date. *)
Definition commit_dates (l : list event) : list datetime :=
  flat_map (fun e => match e with
                     | Git _ (Some d) => [d]
                     | _ => []
                     end) l.

(** [m] runs no dated command. *)
Definition silent {A} (m : M A) : Prop :=
  forall st, exists evs,
    log (snd (m st)) = log st ++ evs /\ commit_dates evs = [].

(** [m] runs at most one dated command, dated [ts], and exactly one unless
    it raises. *)
Definition commits_once {A} (ts : datetime) (m : M A) : Prop :=
  forall st, exists evs,
    log (snd (m st)) = log st ++ evs /\
    ((commit_dates evs = [] /\ exists e, fst (m st) = Raise e)
     \/ commit_dates evs = [ts]).

(** [m] returns, whatever the state. *)
Definition succeeds {A} (m : M A) : Prop :=
  forall st, exists a st', m st = (Ok a, st').

(** The commands a run may start, given the tracked files and the branch:
    the enumeration of the files, the checkout, [git add] of a batch of at
    most ten tracked files, the diff and the numstat query of a tracked file,
    a dated [git commit] whose message is one line of at most 50 characters
    and a newline, and the push; and what it prints. *)
Definition allowed (allfiles : list Path) (branch : str) (e : event) : Prop :=
  match e with
  | Git argv None =>
      argv = ls_files_cmd \/
      argv = map u ["git"; "checkout"; "-B"]%string ++ [branch] \/
      argv = map u ["git"; "push"; "-u"; "origin"]%string ++ [branch] \/
      (exists batch,
          argv = map u ["git"; "add"]%string ++ map to_str batch /\
          batch <> [] /\ length batch <= 10 /\
          forall f, In f batch -> In f allfiles) \/
      (exists f, In f allfiles /\ (argv = diff_cmd f \/ argv = numstat_cmd f))
  | Git argv (Some _) =>
      exists subject,
        argv = map u ["git"; "commit"; "-m"]%string ++ [subject ++ [NL]] /\
        length subject <= 50 /\ ~ In NL subject
  | Print _ msg =>
      exists subject,
        msg = subject ++ [NL] /\ length subject <= 50 /\ ~ In NL subject
  end.

(** [m] issues only events that satisfy [P], and a result it returns
    satisfies [Q]. *)
Definition runs {A} (P : event -> Prop) (m : M A) (Q : A -> Prop) : Prop :=
  forall st, exists evs,
    log (snd (m st)) = log st ++ evs /\ Forall P evs /\
    forall a, fst (m st) = Ok a -> Q a.

(** A numstat output the unpacking accepts: empty once stripped, or three
    fields, that is exactly two tabs. *)
Definition accepted_numstat (out : str) : Prop :=
  strip out = [] \/ count_occ N.eq_dec (strip out) 9%N = 2.

(** Git answers both queries for [f], the second with an accepted output. *)
Definition answered (git_diff git_numstat : Path -> option str) (f : Path)
  : Prop :=
  git_diff f <> None /\
  exists out, git_numstat f = Some out /\ accepted_numstat out.

(** A second environment for the examples: git succeeds and answers every
    numstat query with three fields. *)
Module Demo2.

Definition numstat_line : str := u "1" ++ [9%N] ++ u "1" ++ [9%N] ++ u "x" ++ [NL].

Definition env : world :=
  mkWorld iso_date
          (fun n => 5 * n + 1)
          [Demo.readme; Demo.app; Demo.notes]
          (fun _ _ => true)
          (fun _ _ => Some Demo.fix_diff)
          (fun _ _ => Some numstat_line)
          9223372036854775807 1000000.

(** The files of [Demo.init] with a README that must not be written. *)
Definition locked : state :=
  mkState (fun q => if path_eqb q Demo.readme
                    then Some (mkFile 10 (Some (u "a  " ++ [NL] ++ u "b  " ++ [NL]))
                                      true false)
                    else Demo.files q) 0 [].

(** A file with a name beyond the width of a subject. *)
Definition long_name : Path :=
  mkPath [u "src"]
         (u "anextraordinarilylongnameforapythonmoduleofhelpersandmore.py").

End Demo2.

(** The characters of a text that are not white space. *)
Definition visible (s : str) : str := filter (fun c => negb (isspace c)) s.

(** What a docstring line with the text [text] shows. *)
Definition docstring_mark (text : str) : str :=
  triple_double ++ visible text ++ u "." ++ triple_double.

(** [v'] is [v] with docstrings out of [docstring_texts] put in somewhere. *)
Inductive adds_docstrings : str -> str -> Prop :=
| adds_none v : adds_docstrings v v
| adds_one a b text v' :
    In text docstring_texts ->
    adds_docstrings (a ++ docstring_mark text ++ b) v' ->
    adds_docstrings (a ++ b) v'.

(** What the mutator may make of the text [t] of the file [p]. *)
Definition edited (p : Path) (t t' : str) : Prop :=
  if Str.eqb (suffix p) (u ".py")
  then adds_docstrings (visible t) (visible t')
  else visible t' = visible t.

(** The keys a tally of [_classify_change] can hold. *)
Definition tally_keys : list str :=
  map u ["fix"; "bug"; "erro"; "issu"; "exce"; "todo"; "refa"; "feat"; "add";
         "adde"; "remo"; "test"; "docs"]%string.

(** Every key of the tally is one of [tally_keys], with a count above 0. *)
Definition well_keyed (c : Counter.t) : Prop :=
  forall k v, In (k, v) c -> In k tally_keys /\ (0 < Counter.twice v)%Z.

(** A word of a text: not empty, no white space inside. *)
Definition word (w : str) : Prop :=
  w <> [] /\ forall c, In c w -> isspace c = false.

(** The events of the rounds of the loop of [backfill], one round for each
    timestamp: a batch out of [allfiles] -- as many files as a number from 5
    to 10 says, or all of them when they are fewer, none taken twice -- is
    added, the diff and the numstat of each of its files are asked of git,
    the batch is committed under the timestamp, the branch is pushed, and the
    message is printed. *)
Inductive rounds (allfiles : list Path) (branch : str)
  : list datetime -> list event -> Prop :=
| rounds_nil : rounds allfiles branch [] []
| rounds_cons ts dates batch rest msg evs :
    Permutation allfiles (batch ++ rest) ->
    Nat.min 5 (length allfiles) <= length batch <= 10 ->
    rounds allfiles branch dates evs ->
    rounds allfiles branch (ts :: dates)
           (Git (map u ["git"; "add"]%string ++ map to_str batch) None
            :: map (fun argv => Git argv None)
                   (flat_map (fun f => [diff_cmd f; numstat_cmd f]) batch)
            ++ Git (map u ["git"; "commit"; "-m"]%string ++ [msg]) (Some ts)
            :: Git (map u ["git"; "push"; "-u"; "origin"]%string ++ [branch])
                   None
            :: Print (date ts) msg :: evs).

(** A line without white space at its end, its newline apart; blank lines
    are left out of this. *)
Definition tidy_line (l : str) : Prop :=
  strip l = [] \/ rstrip l = l \/ rstrip l ++ [NL] = l.

(** Every line of the text is tidy. *)
Definition tidy (t : str) : Prop := Forall tidy_line (readlines t).

(** Lines as [readlines] gives them: each ends in its newline and holds no
    other, but for a last line without one. *)
Inductive shaped : list str -> Prop :=
| shaped_nil : shaped []
| shaped_open l : l <> [] -> ~ In NL l -> shaped [l]
| shaped_cons body ls : ~ In NL body -> shaped ls -> shaped ((body ++ [NL]) :: ls).

(** The staged diffs of the batch are ASCII text.  On such text the word
    class \w, the flag IGNORECASE and [str.lower] of this model are those of
    Python, so that what [_keyword_re] and the other patterns find here is
    what they find there. *)
Definition ascii (s : str) : bool := forallb (fun c => (c <? 128)%N) s.

Definition ascii_diffs (git_diff : Path -> option str) (files : list Path)
  : Prop :=
  forall f, In f files -> ascii (diff_of git_diff f) = true.

(* ================================================================== *)
(** * Properties *)

(** ** The monad: which exceptions a computation can raise *)

Lemma bind_run {A B} {m : M A} (k : A -> M B) {st a st1} :
  m st = (Ok a, st1) -> bind m k st = k a st1.
Proof. intros E. unfold bind. now rewrite E. Qed.

Lemma bind_raise {A B} {m : M A} (k : A -> M B) {st e st1} :
  m st = (Raise e, st1) -> bind m k st = (Raise e, st1).
Proof. intros E. unfold bind. now rewrite E. Qed.

Lemma no_exit_ret {A} (a : A) : no_exit (ret a).
Proof. intros st msg. discriminate. Qed.

Lemma no_exit_bind {A B} (m : M A) (k : A -> M B) :
  no_exit m -> (forall a, no_exit (k a)) -> no_exit (bind m k).
Proof.
  intros Hm Hk st msg. unfold bind.
  destruct (m st) as [[a | e] st1] eqn:E.
  - apply Hk.
  - specialize (Hm st msg). rewrite E in Hm. simpl in *.
    intros H. apply Hm. now inversion H.
Qed.

Lemma quiet_no_exit {A} (m : M A) : quiet m -> no_exit m.
Proof.
  intros Q st msg. destruct (Q st) as (a & st' & E & _). now rewrite E.
Qed.

Lemma quiet_ret {A} (a : A) : quiet (ret a).
Proof. intros st. now exists a, st. Qed.

Lemma quiet_bind {A B} (m : M A) (k : A -> M B) :
  quiet m -> (forall a, quiet (k a)) -> quiet (bind m k).
Proof.
  intros Hm Hk st.
  destruct (Hm st) as (a & st1 & E & F1 & L1).
  destruct (Hk a st1) as (b & st2 & E2 & F2 & L2).
  exists b, st2. rewrite (bind_run _ E). repeat split; congruence.
Qed.

Lemma quiet_if {A} (c : bool) (m1 m2 : M A) :
  quiet m1 -> quiet m2 -> quiet (if c then m1 else m2).
Proof. now destruct c. Qed.

Section MonadFacts.

Variable w : world.

Lemma quiet_draw : quiet (draw w).
Proof. intros st. now eexists _, _. Qed.

Lemma quiet_random_below p : quiet (random_below w p).
Proof. apply quiet_bind; [apply quiet_draw | intros; apply quiet_ret]. Qed.

Lemma quiet_randint a b : quiet (randint w a b).
Proof. apply quiet_bind; [apply quiet_draw | intros; apply quiet_ret]. Qed.

Lemma quiet_choice {A} (d : A) l : quiet (choice w d l).
Proof. apply quiet_bind; [apply quiet_draw | intros; apply quiet_ret]. Qed.

Lemma no_exit_sh argv date : no_exit (sh w argv date).
Proof. intros st msg. unfold sh. now destruct (git_ok w st argv). Qed.

Lemma no_exit_emit ev : no_exit (emit ev).
Proof. intros st msg. discriminate. Qed.

End MonadFacts.

(** ** Lists: picking one element out *)

Lemma nth_error_pick {A} (l : list A) : forall j x,
  nth_error l j = Some x -> l = firstn j l ++ x :: skipn (S j) l.
Proof.
  induction l as [| y l IH]; intros [| j] x H; simpl in *; try discriminate.
  - now inversion H.
  - f_equal. now apply IH.
Qed.

Lemma pick_length {A} (l : list A) j x :
  nth_error l j = Some x -> length (firstn j l ++ skipn (S j) l) = length l - 1.
Proof.
  intros H. pose proof (nth_error_pick _ _ _ H) as E.
  apply (f_equal (@length A)) in E.
  rewrite length_app in E |- *. cbn [length] in E. lia.
Qed.

Lemma pick_perm {A} (l : list A) j x :
  nth_error l j = Some x -> Permutation l (x :: firstn j l ++ skipn (S j) l).
Proof.
  intros H. rewrite (nth_error_pick _ _ _ H) at 1.
  symmetry. apply Permutation_middle.
Qed.

(** ** [random.sample] draws without replacement *)

Lemma sample_from_spec (w : world) {A} : forall k (pool : list A) st,
  k <= length pool ->
  exists picked rest,
    sample_from w pool k st
    = (Ok picked, mkState (fs st) (draws st + k) (log st))
    /\ Permutation pool (picked ++ rest) /\ length picked = k.
Proof.
  induction k as [| k IH]; intros pool st Hk.
  - exists [], pool. simpl. unfold ret. rewrite Nat.add_0_r.
    destruct st; auto.
  - simpl. unfold bind at 1. unfold draw at 1. cbv beta iota.
    set (j := rng w (draws st) mod length pool).
    assert (Hj : j < length pool) by (apply Nat.mod_upper_bound; lia).
    destruct (nth_error pool j) as [x |] eqn:Ex.
    2: { apply nth_error_None in Ex. lia. }
    pose proof (pick_length _ _ _ Ex) as Hl.
    destruct (IH (firstn j pool ++ skipn (S j) pool)
                 (mkState (fs st) (S (draws st)) (log st)))
      as (picked & rest & E & P & L); [lia |].
    exists (x :: picked), rest.
    rewrite (bind_run _ E). unfold ret. simpl.
    repeat split.
    + do 2 f_equal. lia.
    + rewrite (pick_perm _ _ _ Ex). now constructor.
    + now rewrite L.
Qed.

Lemma sample_cases (w : world) {A} (pool : list A) (k : Z) st :
  (((k < 0)%Z \/ (Z.of_nat (length pool) < k)%Z)
   /\ sample w pool k st = (Raise ValueError, st))
  \/ ((0 <= k <= Z.of_nat (length pool))%Z
      /\ exists picked rest,
           sample w pool k st
           = (Ok picked, mkState (fs st) (draws st + Z.to_nat k) (log st))
           /\ Permutation pool (picked ++ rest)
           /\ length picked = Z.to_nat k).
Proof.
  unfold sample.
  destruct ((k <? 0)%Z || (Z.of_nat (length pool) <? k)%Z) eqn:G.
  - left. split; [| reflexivity].
    apply orb_true_iff in G. destruct G as [G | G]; apply Z.ltb_lt in G; auto.
  - right. apply orb_false_iff in G. destruct G as [G1 G2].
    apply Z.ltb_ge in G1, G2. split; [lia |].
    apply sample_from_spec. lia.
Qed.

Lemma no_exit_sample (w : world) {A} (pool : list A) k : no_exit (sample w pool k).
Proof.
  intros st msg.
  destruct (sample_cases w pool k st) as [[_ E] | [_ (p & r & E & _)]];
    now rewrite E.
Qed.

(** ** [sorted] *)

Lemma insert_sorted_perm x l : Permutation (insert_sorted x l) (x :: l).
Proof.
  induction l as [| y l IH]; simpl; [reflexivity |].
  destruct (x <=? y)%Z; [reflexivity |].
  rewrite IH. apply perm_swap.
Qed.

Lemma sorted_perm l : Permutation (sorted l) l.
Proof.
  induction l as [| x l IH]; simpl; [constructor |].
  rewrite insert_sorted_perm. now constructor.
Qed.

Lemma insert_sorted_hd x y l :
  (y <= x)%Z -> HdRel Z.le y l -> HdRel Z.le y (insert_sorted x l).
Proof.
  intros Hyx H. destruct l as [| z l]; simpl.
  - now constructor.
  - destruct (x <=? z)%Z; constructor; [assumption | now inversion H].
Qed.

Lemma insert_sorted_ordered x l :
  Sorted Z.le l -> Sorted Z.le (insert_sorted x l).
Proof.
  induction 1 as [| y l Hs IH Hh]; simpl.
  - repeat constructor.
  - destruct (x <=? y)%Z eqn:C.
    + apply Z.leb_le in C. repeat constructor; assumption.
    + apply Z.leb_gt in C. constructor; [assumption |].
      apply insert_sorted_hd; [lia | assumption].
Qed.

Lemma sorted_ordered l : StronglySorted Z.le (sorted l).
Proof.
  apply Sorted_StronglySorted; [exact Z.le_trans |].
  induction l as [| x l IH]; simpl; [constructor |].
  now apply insert_sorted_ordered.
Qed.

(** ** The pool of day slots *)

Lemma DAY_pos : (0 < DAY)%Z.
Proof. reflexivity. Qed.

Lemma date_plus_days s i : date (plus_days s i) = (date s + i)%Z.
Proof. unfold date, plus_days. apply Z.div_add. discriminate. Qed.

Lemma in_range i n : In i (range n) <-> (0 <= i < n)%Z.
Proof.
  unfold range. rewrite in_map_iff. split.
  - intros (k & <- & H). apply in_seq in H. lia.
  - intros H. exists (Z.to_nat i). split; [lia |]. apply in_seq. lia.
Qed.

Lemma range_nodup n : NoDup (range n).
Proof.
  unfold range. apply Finite.Injective_map_NoDup.
  - intros a b. apply Nat2Z.inj.
  - apply seq_NoDup.
Qed.

Lemma range_length n : length (range n) = Z.to_nat n.
Proof. unfold range. now rewrite length_map, length_seq. Qed.

Lemma slots_length s m (l : list Z) :
  length (flat_map (fun i => repeat (plus_days s i) m) l) = length l * m.
Proof.
  induction l as [| i l IH]; simpl; [reflexivity |].
  now rewrite length_app, repeat_length, IH.
Qed.

Lemma possible_dates_length s total_days max_per_day :
  Z.of_nat (length (possible_dates s total_days max_per_day))
  = (Z.max 0 total_days * Z.max 0 max_per_day)%Z.
Proof.
  unfold possible_dates. rewrite slots_length, range_length. lia.
Qed.

Lemma possible_dates_in s total_days max_per_day t :
  In t (possible_dates s total_days max_per_day) ->
  exists i, (0 <= i < total_days)%Z /\ t = plus_days s i.
Proof.
  unfold possible_dates. rewrite in_flat_map.
  intros (i & Hi & Ht). apply in_range in Hi. apply repeat_spec in Ht.
  now exists i.
Qed.

Lemma on_day_app d l1 l2 : on_day d (l1 ++ l2) = on_day d l1 + on_day d l2.
Proof. unfold on_day. now rewrite map_app, count_occ_app. Qed.

Lemma on_day_repeat d t m :
  on_day d (repeat t m) = if Z.eq_dec (date t) d then m else 0.
Proof.
  unfold on_day. induction m as [| m IH]; simpl.
  - now destruct (Z.eq_dec (date t) d).
  - rewrite IH. now destruct (Z.eq_dec (date t) d).
Qed.

Lemma on_day_slots_absent d s m (l : list Z) :
  ~ In (d - date s)%Z l ->
  on_day d (flat_map (fun i => repeat (plus_days s i) m) l) = 0.
Proof.
  induction l as [| i l IH]; simpl; intros H; [reflexivity |].
  rewrite on_day_app, on_day_repeat, date_plus_days, IH by tauto.
  destruct (Z.eq_dec (date s + i) d); [| reflexivity].
  exfalso. apply H. left. lia.
Qed.

Lemma on_day_slots d s m (l : list Z) :
  NoDup l -> on_day d (flat_map (fun i => repeat (plus_days s i) m) l) <= m.
Proof.
  induction 1 as [| i l Hi Hl IH]; simpl; [apply Nat.le_0_l |].
  rewrite on_day_app, on_day_repeat, date_plus_days.
  destruct (Z.eq_dec (date s + i) d) as [E |]; [| exact IH].
  rewrite on_day_slots_absent; [lia |].
  now replace (d - date s)%Z with i by lia.
Qed.

Lemma on_day_possible_dates d s total_days max_per_day :
  on_day d (possible_dates s total_days max_per_day) <= Z.to_nat max_per_day.
Proof. apply on_day_slots, range_nodup. Qed.

Lemma on_day_perm d l1 l2 : Permutation l1 l2 -> on_day d l1 = on_day d l2.
Proof.
  intros P. unfold on_day.
  apply (Permutation_count_occ Z.eq_dec); now apply Permutation_map.
Qed.

(** A day of the pool lies in the range. *)
Lemma plus_days_in_range s e i :
  (0 <= i < days_between e s + 1)%Z -> (s <= plus_days s i <= e)%Z.
Proof.
  unfold days_between, plus_days. intros H.
  pose proof DAY_pos as D.
  pose proof (Z.mul_div_le (e - s) DAY D).
  assert (i * DAY <= DAY * ((e - s) / DAY))%Z by nia.
  nia.
Qed.

(** ** Building the pool *)

Lemma build_pool_cases (w : world) s total_days max_per_day st :
  (build_pool w s total_days max_per_day st = (Raise OverflowError, st) /\
   (maxsize w < max_per_day)%Z)
  \/
  (build_pool w s total_days max_per_day st = (Raise MemoryError, st) /\
   (max_per_day <= maxsize w)%Z /\
   (room w < total_days * Z.max 0 max_per_day)%Z)
  \/
  (build_pool w s total_days max_per_day st
   = (Ok (possible_dates s total_days max_per_day), st) /\
   (max_per_day <= maxsize w)%Z /\
   (total_days * Z.max 0 max_per_day <= room w)%Z).
Proof.
  unfold build_pool.
  destruct (maxsize w <? max_per_day)%Z eqn:O.
  - left. apply Z.ltb_lt in O. auto.
  - apply Z.ltb_ge in O.
    destruct (room w <? total_days * Z.max 0 max_per_day)%Z eqn:R.
    + right. left. apply Z.ltb_lt in R. auto.
    + right. right. apply Z.ltb_ge in R. auto.
Qed.

(** ** What a successful [schedule] has done *)

Lemma schedule_inv (w : world) start end_ commits max_per_day st files dates st' :
  schedule w start end_ commits max_per_day st = (Ok (files, dates), st') ->
  exists s e picked rest,
    fromisoformat w start = Some s /\ fromisoformat w end_ = Some e /\
    (0 < days_between e s + 1)%Z /\
    Permutation (possible_dates s (days_between e s + 1) max_per_day)
                (picked ++ rest) /\
    Z.of_nat (length picked) = commits /\
    dates = sorted picked /\ files <> [].
Proof.
  unfold schedule, parse. intros H.
  destruct (fromisoformat w start) as [s |]; [| discriminate].
  destruct (fromisoformat w end_) as [e |]; [| discriminate].
  unfold bind at 1 in H. unfold ret at 1 in H.
  unfold bind at 1 in H. unfold ret at 1 in H.
  destruct (days_between e s + 1 <=? 0)%Z eqn:T; [discriminate |].
  apply Z.leb_gt in T.
  unfold bind at 1 in H.
  destruct (tracked_files w st) as [[allfiles | ex] st1]; [| discriminate].
  destruct (0 <? length allfiles) eqn:F; [| discriminate].
  cbn [negb] in H. unfold bind at 1 in H.
  destruct (build_pool_cases w s (days_between e s + 1) max_per_day st1)
    as [[B _] | [[B _] | [B _]]]; rewrite B in H; [discriminate | discriminate |].
  revert H.
  destruct (Z.of_nat (length (possible_dates s (days_between e s + 1)
                                             max_per_day)) <? commits)%Z;
    [discriminate |].
  unfold bind. intros H.
  destruct (sample_cases w (possible_dates s (days_between e s + 1) max_per_day)
                         commits st1)
    as [[_ E] | [R (picked & rest & E & P & L)]]; rewrite E in H.
  - discriminate.
  - unfold ret in H. inversion H; subst.
    exists s, e, picked, rest. repeat split; try assumption.
    + lia.
    + apply Nat.ltb_lt in F. destruct files; [simpl in F; lia | discriminate].
Qed.

(** ** The scheduler: the claims *)

(** C2.  When the scheduler succeeds, every chosen timestamp is the start plus
    a whole number of days and lies between start and end inclusive, the
    timestamps are in non-decreasing order, and there is one per commit. *)
Theorem schedule_dates_in_range_sorted
        (w : world) start end_ commits max_per_day st files dates st' :
  schedule w start end_ commits max_per_day st = (Ok (files, dates), st') ->
  exists s e,
    fromisoformat w start = Some s /\ fromisoformat w end_ = Some e /\
    Forall (fun t => exists i, (0 <= i)%Z /\ t = plus_days s i
                               /\ (s <= t <= e)%Z) dates /\
    StronglySorted Z.le dates /\
    Z.of_nat (length dates) = commits.
Proof.
  intros H.
  destruct (schedule_inv _ _ _ _ _ _ _ _ _ H)
    as (s & e & picked & rest & Hs & He & T & P & L & -> & _).
  exists s, e. repeat split; try assumption.
  - apply Forall_forall. intros t Ht.
    assert (Hp : In t (possible_dates s (days_between e s + 1) max_per_day)).
    { apply (Permutation_in _ (Permutation_sym P)), in_or_app. left.
      apply (Permutation_in _ (sorted_perm picked)), Ht. }
    destruct (possible_dates_in _ _ _ _ Hp) as (i & Hi & ->).
    exists i. split; [lia |]. split; [reflexivity |].
    now apply plus_days_in_range.
  - apply sorted_ordered.
  - now rewrite (Permutation_length (sorted_perm picked)).
Qed.

Lemma schedule_dates_in_range_sorted_witness :
  StronglySorted Z.le
    [63839664000000000; 63839750400000000; 63839750400000000;
     63839923200000000; 63840009600000000]%Z /\
  Forall (fun t => exists i, (0 <= i)%Z
                     /\ t = plus_days (of_ymd 2024 1 1) i
                     /\ (of_ymd 2024 1 1 <= t <= of_ymd 2024 1 5)%Z)
    [63839664000000000; 63839750400000000; 63839750400000000;
     63839923200000000; 63840009600000000]%Z.
Proof.
  pose (r := schedule Demo.env (u "2024-01-01") (u "2024-01-05") 5 3 Demo.init).
  assert (E : r = (Ok ([Demo.readme; Demo.app; Demo.makefile; Demo.big;
                        Demo.notes],
                       [63839664000000000; 63839750400000000;
                        63839750400000000; 63839923200000000;
                        63840009600000000]%Z), snd r))
    by (vm_compute; reflexivity).
  destruct (schedule_dates_in_range_sorted _ _ _ _ _ _ _ _ _ E)
    as (s & e & Hs & He & F & S & _).
  vm_compute in Hs, He. inversion Hs; inversion He; subst s e.
  split; assumption.
Defined.

(** C3.  When the scheduler succeeds, no calendar day holds more than
    [max_per_day] of the chosen timestamps. *)
Theorem schedule_respects_daily_cap
        (w : world) start end_ commits max_per_day st files dates st' :
  schedule w start end_ commits max_per_day st = (Ok (files, dates), st') ->
  (forall d, on_day d dates <= Z.to_nat max_per_day) /\
  (forall t, In t dates -> (Z.of_nat (on_day (date t) dates) <= max_per_day)%Z).
Proof.
  intros H.
  destruct (schedule_inv _ _ _ _ _ _ _ _ _ H)
    as (s & e & picked & rest & _ & _ & _ & P & _ & -> & _).
  assert (cap : forall d, on_day d (sorted picked) <= Z.to_nat max_per_day).
  { intros d. rewrite (on_day_perm d _ _ (sorted_perm picked)).
    pose proof (on_day_possible_dates d s (days_between e s + 1) max_per_day) as C.
    rewrite (on_day_perm d _ _ P), on_day_app in C. lia. }
  split; [exact cap |].
  intros t Ht. specialize (cap (date t)).
  assert (0 < on_day (date t) (sorted picked)).
  { unfold on_day. apply count_occ_In. now apply in_map. }
  lia.
Qed.

Lemma schedule_respects_daily_cap_witness :
  on_day 738886 [63839664000000000; 63839750400000000; 63839750400000000;
                 63839923200000000; 63840009600000000]%Z <= 3.
Proof.
  pose (r := schedule Demo.env (u "2024-01-01") (u "2024-01-05") 5 3 Demo.init).
  assert (E : r = (Ok ([Demo.readme; Demo.app; Demo.makefile; Demo.big;
                        Demo.notes],
                       [63839664000000000; 63839750400000000;
                        63839750400000000; 63839923200000000;
                        63840009600000000]%Z), snd r))
    by (vm_compute; reflexivity).
  exact (proj1 (schedule_respects_daily_cap _ _ _ _ _ _ _ _ _ E) 738886%Z).
Defined.

(** ** What the commit loop can raise *)

Ltac quiet_step :=
  first
    [ apply quiet_ret | apply quiet_draw | apply quiet_random_below
    | apply quiet_randint | apply quiet_choice
    | apply quiet_bind; [| intro]
    | apply quiet_if
    | match goal with
      | |- quiet (match ?x with _ => _ end) => destruct x
      end ].

Lemma quiet_edit_python (w : world) lines : quiet (edit_python w lines).
Proof. unfold edit_python. repeat quiet_step. Qed.

Lemma quiet_edit_other (w : world) lines : quiet (edit_other w lines).
Proof. unfold edit_other. repeat quiet_step. Qed.

Lemma no_exit_write_file p old lines : no_exit (write_file p old lines).
Proof. intros st msg. discriminate. Qed.

Lemma no_exit_touch_file (w : world) file : no_exit (touch_file w file).
Proof.
  intros st msg. unfold touch_file.
  destruct (negb (truthy (suffix file))); [discriminate |].
  destruct (fs st file) as [fl |]; [| discriminate].
  destruct (100000 <? f_size fl)%Z; [discriminate |].
  destruct (negb (f_readable fl)); [discriminate |].
  destruct (f_text fl) as [t |]; [| discriminate].
  destruct (readlines t) as [| l ls]; [discriminate |].
  apply no_exit_bind.
  - destruct (Str.eqb (suffix file) (u ".py"));
      [apply quiet_no_exit, quiet_edit_python
      | apply quiet_no_exit, quiet_edit_other].
  - intros r. apply no_exit_bind.
    + destruct (snd r);
        [apply no_exit_ret | apply quiet_no_exit, quiet_random_below].
    + intros go. destruct (go && f_writable fl);
        [apply no_exit_write_file | apply no_exit_ret].
Qed.

Lemma no_exit_touch_files (w : world) files : no_exit (touch_files w files).
Proof.
  induction files as [| f rest IH]; simpl.
  - apply no_exit_ret.
  - apply no_exit_bind; [apply no_exit_touch_file | intros _; exact IH].
Qed.

Lemma scan_files_raises gd gn files : forall kinds bullets e,
  scan_files gd gn files kinds bullets = Raise e ->
  e = ValueError \/ e = CalledProcessError.
Proof.
  induction files as [| f rest IH]; simpl; intros kinds bullets e H.
  - discriminate.
  - unfold run_git in H.
    destruct (gd f); simpl in H; [| inversion H; auto].
    destruct (gn f) as [out |]; simpl in H; [| inversion H; auto].
    unfold unpack_stats in H.
    destruct (strip out) as [| c stats'].
    + simpl in H. eapply IH, H.
    + destruct (split_on 9%N (c :: stats')) as [| a [| b [| x [| y l]]]];
        simpl in H; try (inversion H; auto; fail).
      eapply IH, H.
Qed.

Lemma generate_commit_message_raises gd gn files e :
  generate_commit_message gd gn files = Raise e ->
  e = ValueError \/ e = CalledProcessError.
Proof.
  unfold generate_commit_message. destruct files as [| f rest]; [discriminate |].
  destruct (scan_files gd gn (f :: rest) Counter.empty []) eqn:S; simpl.
  - discriminate.
  - intros H. inversion H; subst. eapply scan_files_raises, S.
Qed.

Lemma no_exit_commit_at (w : world) allfiles branch timestamp :
  no_exit (commit_at w allfiles branch timestamp).
Proof.
  unfold commit_at.
  apply no_exit_bind; [apply quiet_no_exit, quiet_randint | intros n].
  apply no_exit_bind; [apply no_exit_sample | intros batch].
  apply no_exit_bind; [apply no_exit_touch_files | intros _].
  apply no_exit_bind; [apply no_exit_sh | intros _].
  apply no_exit_bind.
  { intros st msg H. simpl in H.
    destruct (generate_commit_message_raises _ _ _ _ H); discriminate. }
  intros m.
  apply no_exit_bind; [apply no_exit_sh | intros _].
  apply no_exit_bind; [apply no_exit_sh | intros _].
  apply no_exit_emit.
Qed.

Lemma no_exit_commit_all (w : world) allfiles branch dates :
  no_exit (commit_all w allfiles branch dates).
Proof.
  induction dates as [| t rest IH]; simpl.
  - apply no_exit_ret.
  - apply no_exit_bind; [apply no_exit_commit_at | intros _; exact IH].
Qed.

(** ** The checks at the head of [backfill], one after the other *)

Lemma schedule_unfold (w : world) start end_ commits max_per_day st s e :
  fromisoformat w start = Some s -> fromisoformat w end_ = Some e ->
  schedule w start end_ commits max_per_day st =
  if (days_between e s + 1 <=? 0)%Z
  then (Raise (SystemExit msg_end_before_start), st)
  else
    let st1 := mkState (fs st) (draws st) (log st ++ [Git ls_files_cmd None]) in
    if git_ok w st ls_files_cmd
    then
      let allfiles := filter (is_file st1) (ls_files w) in
      let pool := possible_dates s (days_between e s + 1) max_per_day in
      if negb (0 <? length allfiles)
      then (Raise (SystemExit msg_no_files), st1)
      else if (maxsize w <? max_per_day)%Z
      then (Raise OverflowError, st1)
      else if (room w <? (days_between e s + 1) * Z.max 0 max_per_day)%Z
      then (Raise MemoryError, st1)
      else if (Z.of_nat (length pool) <? commits)%Z
      then (Raise (SystemExit (msg_cannot_fit commits start end_ max_per_day)),
            st1)
      else bind (sample w pool commits)
                (fun picked => ret (allfiles, sorted picked)) st1
    else (Raise CalledProcessError, st1).
Proof.
  intros Hs He. unfold schedule, parse. rewrite Hs, He.
  unfold bind at 1. unfold ret at 1. unfold bind at 1. unfold ret at 1.
  destruct (days_between e s + 1 <=? 0)%Z; [reflexivity |].
  unfold bind at 1. unfold tracked_files. unfold bind at 1. unfold sh.
  destruct (git_ok w st ls_files_cmd); [| reflexivity].
  cbv zeta. cbv beta.
  destruct (negb (0 <? length _)); [reflexivity |].
  unfold bind at 1. unfold build_pool.
  destruct (maxsize w <? max_per_day)%Z; [reflexivity |].
  destruct (room w <? _)%Z; [reflexivity |].
  unfold ret at 1.
  destruct (_ <? commits)%Z; reflexivity.
Qed.

Lemma match_no_exit {A B} (r : result A * state) (k : A -> M B) :
  (forall msg, fst r <> Raise (SystemExit msg)) ->
  (forall a, no_exit (k a)) ->
  forall msg,
    fst (match r with
         | (Ok a, st') => k a st'
         | (Raise e, st') => (Raise e, st')
         end) <> Raise (SystemExit msg).
Proof.
  intros Hr Hk msg. destruct r as [[a | e] st']; simpl in *.
  - apply Hk.
  - intros H. apply (Hr msg). now inversion H.
Qed.

Lemma msg_cannot_fit_head commits start end_ max_per_day :
  exists rest, msg_cannot_fit commits start end_ max_per_day = 67%N :: rest.
Proof. unfold msg_cannot_fit. simpl. eauto. Qed.

Lemma exit_msg_differs commits start end_ max_per_day m :
  m = msg_end_before_start \/ m = msg_no_files ->
  @Raise unit (SystemExit m)
  <> Raise (SystemExit (msg_cannot_fit commits start end_ max_per_day)).
Proof.
  destruct (msg_cannot_fit_head commits start end_ max_per_day) as (rest & ->).
  intros [-> | ->]; discriminate.
Qed.

(** C1.  For dates that parse and a [max_per_day] that is not negative, with
    [total_days = (end - start).days + 1] and the capacity
    [total_days * max_per_day]: whenever [commits] exceeds the capacity the
    run is rejected, that is, it ends in an exception with nothing run but (at
    most) the enumeration of the files -- the capacity error itself once the
    date check has passed, files were found and the pool of day slots could
    be built; whenever [commits] is within the capacity the capacity error is
    not raised. *)
Theorem backfill_capacity_check
        (w : world) start end_ commits branch max_per_day st s e :
  fromisoformat w start = Some s -> fromisoformat w end_ = Some e ->
  (0 <= max_per_day)%Z ->
  let total_days := (days_between e s + 1)%Z in
  let capacity := (total_days * max_per_day)%Z in
  let run := backfill w start end_ commits branch max_per_day st in
  let capacity_error :=
    Raise (SystemExit (msg_cannot_fit commits start end_ max_per_day)) in
  ((capacity < commits)%Z ->
     (exists ex, fst run = Raise ex) /\
     (log (snd run) = log st \/
      log (snd run) = log st ++ [Git ls_files_cmd None]) /\
     ((0 < total_days)%Z -> git_ok w st ls_files_cmd = true ->
      filter (is_file st) (ls_files w) <> [] ->
      (max_per_day <= maxsize w)%Z -> (capacity <= room w)%Z ->
      fst run = capacity_error))
  /\ ((commits <= capacity)%Z -> fst run <> capacity_error).
Proof.
  intros Hs He Hmpd total_days capacity run capacity_error.
  assert (Hrun :
    run = match schedule w start end_ commits max_per_day st with
          | (Ok plan, st') =>
              (sh w (map u ["git"; "checkout"; "-B"]%string ++ [branch]) None ;;
               commit_all w (fst plan) branch (snd plan)) st'
          | (Raise ex, st') => (Raise ex, st')
          end) by reflexivity.
  clearbody run.
  rewrite (schedule_unfold w start end_ commits max_per_day st s e Hs He) in Hrun.
  rewrite (Z.max_r 0 max_per_day Hmpd) in Hrun.
  fold total_days in Hrun. clearbody total_days. fold capacity in Hrun.
  destruct (total_days <=? 0)%Z eqn:T.
  { apply Z.leb_le in T. subst run. cbn [fst snd]. split.
    - intros _. split; [eauto |]. split; [auto |]. intros; lia.
    - intros _. apply exit_msg_differs. auto. }
  apply Z.leb_gt in T. cbv zeta in Hrun.
  destruct (git_ok w st ls_files_cmd) eqn:G.
  2: { subst run. cbn [fst snd log]. split.
       - intros _. split; [eauto |]. split; [auto |]. discriminate.
       - intros _. discriminate. }
  change (filter (is_file (mkState (fs st) (draws st)
                                   (log st ++ [Git ls_files_cmd None])))
                 (ls_files w))
    with (filter (is_file st) (ls_files w)) in Hrun.
  destruct (0 <? length (filter (is_file st) (ls_files w))) eqn:F;
    cbn [negb] in Hrun.
  2: { subst run. cbn [fst snd log]. split.
       - intros _. split; [eauto |]. split; [auto |].
         intros _ _ Hf. apply Nat.ltb_ge in F.
         destruct (filter (is_file st) (ls_files w)); [now elim Hf |].
         simpl in F. lia.
       - intros _. apply exit_msg_differs. auto. }
  destruct (maxsize w <? max_per_day)%Z eqn:O.
  { apply Z.ltb_lt in O. subst run. cbn [fst snd log]. split.
    - intros _. split; [eauto |]. split; [auto |]. intros; lia.
    - intros _. discriminate. }
  destruct (room w <? capacity)%Z eqn:R.
  { apply Z.ltb_lt in R. subst run. cbn [fst snd log]. split.
    - intros _. split; [eauto |]. split; [auto |]. intros; lia.
    - intros _. discriminate. }
  pose proof (possible_dates_length s total_days max_per_day) as L.
  replace (Z.max 0 total_days) with total_days in L by lia.
  rewrite (Z.max_r 0 max_per_day Hmpd) in L. fold capacity in L.
  destruct (_ <? commits)%Z eqn:C in Hrun.
  - apply Z.ltb_lt in C. subst run. cbn [fst snd log]. split.
    + intros _. split; [eauto |]. split; [auto |]. reflexivity.
    + intros Hc. lia.
  - apply Z.ltb_ge in C. split.
    + intros Hc. lia.
    + intros _. rewrite Hrun. apply match_no_exit.
      * apply no_exit_bind; [apply no_exit_sample | intros; apply no_exit_ret].
      * intros plan. apply no_exit_bind; [apply no_exit_sh |].
        intros _. apply no_exit_commit_all.
Qed.

(** The two scenarios of the specification: five commits fit into five days
    of three slots, and do not fit into one day. *)
Lemma backfill_capacity_check_witness :
  fst (backfill Demo.env (u "2024-01-01") (u "2024-01-01") 5 (u "main") 3
                Demo.init)
  = Raise (SystemExit (msg_cannot_fit 5 (u "2024-01-01") (u "2024-01-01") 3))
  /\
  fst (backfill Demo.env (u "2024-01-01") (u "2024-01-05") 5 (u "main") 3
                Demo.init)
  <> Raise (SystemExit (msg_cannot_fit 5 (u "2024-01-01") (u "2024-01-05") 3)).
Proof.
  split.
  - apply (backfill_capacity_check Demo.env (u "2024-01-01") (u "2024-01-01")
             5 (u "main") 3 Demo.init (of_ymd 2024 1 1) (of_ymd 2024 1 1));
      try reflexivity; try (vm_compute; discriminate).
  - apply (backfill_capacity_check Demo.env (u "2024-01-01") (u "2024-01-05")
             5 (u "main") 3 Demo.init (of_ymd 2024 1 1) (of_ymd 2024 1 5));
      try reflexivity; try (vm_compute; discriminate).
Defined.

(** The first scenario of the specification runs to its end. *)
Example scenario_five_commits_in_five_days :
  fst (backfill Demo.env (u "2024-01-01") (u "2024-01-05") 5 (u "main") 3
                Demo.init) = Ok tt.
Proof. vm_compute. reflexivity. Qed.

(** C4 (as the code has it).  When the end lies strictly before the start,
    by however little, [backfill] exits with its date message and has done
    nothing: no command was run, no file was touched, no random number was
    drawn. *)
Theorem backfill_rejects_earlier_end
        (w : world) start end_ commits branch max_per_day st s e :
  fromisoformat w start = Some s -> fromisoformat w end_ = Some e ->
  (e < s)%Z ->
  backfill w start end_ commits branch max_per_day st
  = (Raise (SystemExit msg_end_before_start), st).
Proof.
  intros Hs He Hlt. unfold backfill. unfold bind at 1.
  rewrite (schedule_unfold w start end_ commits max_per_day st s e Hs He).
  assert (T : (days_between e s + 1 <=? 0)%Z = true).
  { apply Z.leb_le. unfold days_between.
    assert ((e - s) / DAY < 0)%Z; [| lia].
    apply Z.div_lt_upper_bound; [apply DAY_pos | lia]. }
  now rewrite T.
Qed.

Lemma backfill_rejects_earlier_end_witness :
  backfill Demo.env (u "2024-01-02") (u "2024-01-01") 5 (u "main") 3 Demo.init
  = (Raise (SystemExit msg_end_before_start), Demo.init).
Proof.
  apply (backfill_rejects_earlier_end Demo.env (u "2024-01-02") (u "2024-01-01")
           5 (u "main") 3 Demo.init (of_ymd 2024 1 2) (of_ymd 2024 1 1));
    reflexivity.
Defined.

(** C4 as stated fails when the end equals the start: the range is one day
    long, the date check passes and the run commits. *)
Lemma backfill_same_day_counterexample :
  ~ (forall (w : world) start end_ commits branch max_per_day st s e,
        fromisoformat w start = Some s -> fromisoformat w end_ = Some e ->
        (e <= s)%Z ->
        let run := backfill w start end_ commits branch max_per_day st in
        (exists msg, fst run = Raise (SystemExit msg)) /\
        log (snd run) = log st).
Proof.
  intros H.
  destruct (H Demo.env (u "2024-01-01") (u "2024-01-01") 1%Z (u "main") 3%Z
              Demo.init (of_ymd 2024 1 1) (of_ymd 2024 1 1)
              eq_refl eq_refl (Z.le_refl _)) as [[msg R] _].
  vm_compute in R. discriminate.
Qed.

(** ** Strings: equality *)

Lemma eqb_eq (a b : str) : Str.eqb a b = true <-> a = b.
Proof.
  revert b. induction a as [| x a IH]; intros [| y b]; simpl;
    try (split; [discriminate | discriminate]); [tauto |].
  rewrite andb_true_iff, N.eqb_eq, IH. split.
  - now intros [-> ->].
  - intros H. now inversion H.
Qed.

Lemma eqb_refl (a : str) : Str.eqb a a = true.
Proof. now apply eqb_eq. Qed.

Lemma eqb_sym (a b : str) : Str.eqb a b = Str.eqb b a.
Proof.
  destruct (Str.eqb b a) eqn:E.
  - apply eqb_eq in E. subst. apply eqb_refl.
  - destruct (Str.eqb a b) eqn:E'; [| reflexivity].
    apply eqb_eq in E'. subst. now rewrite eqb_refl in E.
Qed.

Lemma eqb_neq (a b : str) : Str.eqb a b = false <-> a <> b.
Proof.
  rewrite <- eqb_eq. destruct (Str.eqb a b); split; congruence.
Qed.

(** ** Counters *)

Module CounterFacts.
Import Counter.

Lemma twice_add a b : twice (add a b) = (twice a + twice b)%Z.
Proof. destruct a, b; unfold add, twice; lia. Qed.

Lemma get_set c k v k' :
  get (set c k v) k' = if Str.eqb k k' then v else get c k'.
Proof.
  induction c as [| [k0 v0] c IH]; simpl.
  - reflexivity.
  - destruct (Str.eqb k0 k) eqn:E; simpl.
    + apply eqb_eq in E. subst k0. now destruct (Str.eqb k k').
    + rewrite IH. destruct (Str.eqb k0 k') eqn:E'; [| reflexivity].
      apply eqb_eq in E'. subst k0. now rewrite (eqb_sym k k'), E.
Qed.

Lemma weight_set k c k' v :
  weight k (set c k' v)
  = (weight k c
     + if Str.eqb k' k then twice v - twice (get c k') else 0)%Z.
Proof.
  induction c as [| [k0 v0] c IH]; simpl.
  - destruct (Str.eqb k' k); lia.
  - destruct (Str.eqb k0 k') eqn:E; simpl.
    + apply eqb_eq in E. subst k0. destruct (Str.eqb k' k); lia.
    + rewrite IH. destruct (Str.eqb k' k) eqn:E'; [| lia].
      apply eqb_eq in E'. subst k'. rewrite E. lia.
Qed.

Lemma weight_incr k c k' v :
  weight k (incr c k' v)
  = (weight k c + if Str.eqb k' k then twice v else 0)%Z.
Proof.
  unfold incr. rewrite weight_set, twice_add.
  destruct (Str.eqb k' k); lia.
Qed.

Lemma get_update c other k :
  twice (get (update c other) k) = (twice (get c k) + weight k other)%Z.
Proof.
  unfold update. revert c.
  induction other as [| [k' v] other IH]; intros c; simpl.
  - lia.
  - rewrite IH, get_set. simpl.
    destruct (Str.eqb k' k) eqn:E; [| lia].
    apply eqb_eq in E. subst k'. rewrite twice_add. lia.
Qed.

End CounterFacts.

(** ** The classifier: what a diff adds to a tally *)

Lemma findall_search : forall s prev skip kw,
  In kw (Re.findall_from prev s skip) -> Re.search_from prev s = true.
Proof.
  induction s as [| c s IH]; intros prev skip kw H; simpl in H; [easy |].
  simpl. destruct (Re.keyword_at prev (c :: s)) as [n |] eqn:K; [reflexivity |].
  destruct skip as [| k]; eapply IH, H.
Qed.

Lemma sumZ_app l1 l2 : sumZ (l1 ++ l2) = (sumZ l1 + sumZ l2)%Z.
Proof. induction l1 as [| x l1 IH]; simpl; lia. Qed.

Lemma sumZ_zero {A} (g : A -> Z) l :
  (forall x, In x l -> g x = 0%Z) -> sumZ (map g l) = 0%Z.
Proof.
  induction l as [| x l IH]; simpl; intros H; [reflexivity |].
  rewrite (H x), IH; auto.
Qed.

Lemma sumZ_member {A} (g : A -> Z) l x :
  (forall y, 0 <= g y)%Z -> In x l -> (g x <= sumZ (map g l))%Z.
Proof.
  intros Hg. induction l as [| y l IH]; simpl; [easy |].
  assert (0 <= sumZ (map g l))%Z.
  { clear IH. induction l as [| z l IHl]; simpl; [lia |].
    specialize (Hg z). lia. }
  intros [-> | H']; [lia |]. specialize (IH H'). specialize (Hg y). lia.
Qed.

Section ClassifierFacts.
Import Counter CounterFacts.

Variable k : str.

Lemma tally_keywords_weight c text :
  weight k (tally_keywords c text) = (weight k c + keyword_votes k text)%Z.
Proof.
  unfold tally_keywords, keyword_votes.
  destruct (Re.keyword_search text); [| lia].
  generalize (Re.keyword_findall text) as kws. intros kws. revert c.
  induction kws as [| kw kws IH]; intros c; cbn [fold_left filter length];
    [lia |].
  rewrite IH, weight_incr. fold (key_of kw).
  destruct (Str.eqb (key_of kw) k); cbn [length]; unfold twice; lia.
Qed.

Lemma classify_line_weight c line :
  weight k (classify_line c line) = (weight k c + line_votes k line)%Z.
Proof.
  unfold classify_line, line_votes.
  destruct (changed_line line); [| lia].
  cbv zeta.
  destruct (existsb _ comment_markers);
    destruct (Re.test_re (line_text line));
    destruct (Re.definition_re (line_text line));
    repeat rewrite weight_incr; rewrite tally_keywords_weight;
    cbn [andb]; unfold twice;
    destruct (Str.eqb (u "feat") k), (Str.eqb (u "test") k),
             (Str.eqb (u "docs") k); lia.
Qed.

Lemma classify_lines_weight lines : forall c,
  weight k (fold_left classify_line lines c)
  = (weight k c + sumZ (map (line_votes k) lines))%Z.
Proof.
  induction lines as [| line lines IH]; intros c; simpl; [lia |].
  rewrite IH, classify_line_weight. lia.
Qed.

Lemma classify_change_weight diff :
  weight k (_classify_change diff) = sumZ (map (line_votes k) (splitlines diff)).
Proof. unfold _classify_change. now rewrite classify_lines_weight. Qed.

Lemma keyword_votes_nonneg text : (0 <= keyword_votes k text)%Z.
Proof. unfold keyword_votes. destruct (Re.keyword_search text); lia. Qed.

Lemma line_votes_nonneg line : (0 <= line_votes k line)%Z.
Proof.
  unfold line_votes. destruct (changed_line line); [| lia]. cbv zeta.
  pose proof (keyword_votes_nonneg (line_text line)).
  repeat match goal with
         | |- context [if ?c then _ else _] => destruct c
         end; lia.
Qed.

(** The tally of a scanned batch is the sum of the votes of its lines. *)
Lemma scan_files_tally gd gn files : forall c0 b0 kinds bullets,
  scan_files gd gn files c0 b0 = Ok (kinds, bullets) ->
  twice (get kinds k) = (twice (get c0 k) + votes k gd files)%Z.
Proof.
  unfold votes.
  induction files as [| f rest IH]; intros c0 b0 kinds bullets H; simpl in H.
  - inversion H. simpl. lia.
  - unfold run_git in H.
    destruct (gd f) as [d |] eqn:D; cbn [rbind] in H; [| discriminate].
    destruct (gn f) as [out |]; cbn [rbind] in H; [| discriminate].
    destruct (unpack_stats (strip out)) as [ad |]; cbn [rbind] in H;
      [| discriminate].
    assert (Hd : diff_of gd f = d) by (unfold diff_of; now rewrite D).
    cbn [flat_map]. rewrite map_app, sumZ_app, Hd.
    rewrite (IH _ _ _ _ H), get_update, classify_change_weight. lia.
Qed.

End ClassifierFacts.

Lemma in_changed_lines gd files line :
  In line (changed_lines gd files) <->
  exists f, In f files /\ In line (splitlines (diff_of gd f))
            /\ changed_line line = true.
Proof.
  unfold changed_lines. rewrite in_flat_map. split.
  - intros (f & Hf & Hl). apply filter_In in Hl. now exists f.
  - intros (f & Hf & Hl & Hc). exists f. split; [assumption |].
    now apply filter_In.
Qed.

(** A keyword found in the batch votes for its key. *)
Lemma votes_positive gd files kw :
  In kw (keywords_in gd files) -> (0 < votes (firstn 4 kw) gd files)%Z.
Proof.
  unfold keywords_in. rewrite in_flat_map.
  intros (line & Hline & Hkw).
  apply in_changed_lines in Hline. destruct Hline as (f & Hf & Hl & Hc).
  apply in_map_iff in Hkw. destruct Hkw as (kw0 & <- & Hkw0).
  assert (In line (flat_map (fun f => splitlines (diff_of gd f)) files))
    by (apply in_flat_map; eauto).
  pose proof (sumZ_member (line_votes (firstn 4 (lower kw0))) _ line
                          (line_votes_nonneg _) H) as Hsum.
  unfold votes.
  assert (2 <= line_votes (firstn 4 (lower kw0)) line)%Z; [| lia].
  unfold line_votes. rewrite Hc. cbv zeta.
  assert (2 <= keyword_votes (firstn 4 (lower kw0)) (line_text line))%Z.
  { unfold keyword_votes, Re.keyword_search.
    rewrite (findall_search _ _ _ _ Hkw0).
    assert (In kw0 (filter (fun kw => Str.eqb (key_of kw) (firstn 4 (lower kw0)))
                           (Re.keyword_findall (line_text line)))).
    { apply filter_In. split; [assumption | apply eqb_refl]. }
    destruct (filter _ _); [easy | simpl length; lia]. }
  repeat match goal with
         | |- context [if ?c then _ else _] => destruct c
         end; lia.
Qed.

Lemma filter_none {A} (f : A -> bool) l :
  (forall x, In x l -> f x = false) -> filter f l = [].
Proof.
  induction l as [| x l IH]; simpl; intros H; [reflexivity |].
  rewrite (H x), IH; auto.
Qed.

Lemma existsb_none {A} (f : A -> bool) l x :
  existsb f l = false -> In x l -> f x = false.
Proof.
  intros H Hx. destruct (f x) eqn:E; [| reflexivity].
  rewrite <- H. symmetry. apply existsb_exists. eauto.
Qed.

(** A key that no keyword and no structural cue of the batch maps to gets no
    vote. *)
Lemma votes_none gd files k :
  (forall kw, In kw (keywords_in gd files) -> firstn 4 kw <> k) ->
  (k = u "feat" -> defines gd files = false) ->
  k <> u "test" -> k <> u "docs" ->
  votes k gd files = 0%Z.
Proof.
  intros Hkw Hdef Htest Hdocs. unfold votes. apply sumZ_zero.
  intros line Hline. apply in_flat_map in Hline. destruct Hline as (f & Hf & Hl).
  unfold line_votes. destruct (changed_line line) eqn:Hc; [| reflexivity].
  cbv zeta.
  assert (Hin : In line (changed_lines gd files))
    by (apply in_changed_lines; eauto).
  assert (K : keyword_votes k (line_text line) = 0%Z).
  { unfold keyword_votes. destruct (Re.keyword_search _); [| reflexivity].
    rewrite filter_none; [reflexivity |].
    intros kw0 H0. apply eqb_neq. apply Hkw.
    unfold keywords_in. apply in_flat_map. exists line. split; [assumption |].
    now apply in_map. }
  assert (D : Re.definition_re (line_text line) && Str.eqb (u "feat") k = false).
  { destruct (Str.eqb (u "feat") k) eqn:E; [| apply andb_false_r].
    apply eqb_eq in E. rewrite andb_true_r.
    apply (existsb_none (fun l => Re.definition_re (line_text l))
                        (changed_lines gd files)); [| assumption].
    apply Hdef. now symmetry. }
  assert (T : Str.eqb (u "test") k = false)
    by (apply eqb_neq; congruence).
  assert (C : Str.eqb (u "docs") k = false)
    by (apply eqb_neq; congruence).
  rewrite K, D, T, C, !andb_false_r. reflexivity.
Qed.

(** ** [pick_type] *)

Lemma pick_type_fix kinds files :
  Counter.positive (Counter.get kinds (u "fix")) = true ->
  pick_type kinds files = u "fix".
Proof. intros H. unfold pick_type. now rewrite H. Qed.

Lemma pick_type_no_votes kinds files :
  Counter.positive (Counter.get kinds (u "fix")) = false ->
  Counter.positive (Counter.get kinds (u "feat")) = false ->
  Counter.positive (Counter.get kinds (u "refa")) = false ->
  pick_type kinds files = pick_type Counter.empty files.
Proof. intros H1 H2 H3. unfold pick_type. now rewrite H1, H2, H3. Qed.

Lemma pick_type_docs files :
  forallb (suffix_in [u ".md"; u ".rst"]) files = true ->
  pick_type Counter.empty files = u "docs".
Proof. intros H. unfold pick_type. simpl Counter.positive. now rewrite H. Qed.

Lemma pick_type_chore files :
  mixed files -> pick_type Counter.empty files = u "chore".
Proof.
  intros (H1 & H2 & H3). unfold pick_type. simpl Counter.positive.
  now rewrite H1, H2, H3.
Qed.

(** The message of a scanned batch. *)
Lemma generate_commit_message_scanned gd gn first rest kinds bullets :
  scan_files gd gn (first :: rest) Counter.empty [] = Ok (kinds, bullets) ->
  generate_commit_message gd gn (first :: rest)
  = Ok (subject_of (pick_type kinds (first :: rest)) first ++ [NL]).
Proof.
  intros H. unfold generate_commit_message. now rewrite H.
Qed.

(** ** What [_keyword_re] finds is one of its alternatives *)

Lemma lit_lower p : forall s,
  Re.lit true p s = true -> lower (firstn (length p) s) = p.
Proof.
  induction p as [| x p IH]; intros [| y s] H; simpl in *; try easy.
  apply andb_true_iff in H. destruct H as [H1 H2].
  apply N.eqb_eq in H1. now rewrite (IH _ H2), <- H1.
Qed.

Lemma alt_b_lower ps : forall s n,
  Re.alt_b true ps s = Some n -> In (lower (firstn n s)) ps.
Proof.
  induction ps as [| p ps IH]; intros s n H; simpl in H; [discriminate |].
  unfold Re.lit_b in H.
  destruct (Re.lit true p s) eqn:L; simpl in H.
  - destruct (Re.wb _ _).
    + inversion H; subst. left. symmetry. now apply lit_lower.
    + right. now apply IH.
  - right. now apply IH.
Qed.

Lemma findall_keywords : forall s prev skip kw,
  In kw (Re.findall_from prev s skip) -> In (lower kw) Re.keywords.
Proof.
  induction s as [| c s IH]; intros prev skip kw H; [easy |].
  cbn [Re.findall_from] in H.
  destruct skip as [| k]; [| eapply IH, H].
  destruct (Re.keyword_at prev (c :: s)) as [n |] eqn:K; [| eapply IH, H].
  destruct H as [<- | H]; [| eapply IH, H].
  unfold Re.keyword_at in K. destruct (Re.wb prev (c :: s)); [| discriminate].
  now apply alt_b_lower.
Qed.

Lemma keywords_in_known gd files kw :
  In kw (keywords_in gd files) -> In kw Re.keywords.
Proof.
  unfold keywords_in. rewrite in_flat_map. intros (line & _ & H).
  apply in_map_iff in H. destruct H as (kw0 & <- & H).
  eapply findall_keywords, H.
Qed.

(** When no keyword and no definition line of the batch names a commit type,
    the file names alone decide. *)
Lemma no_type_votes gd gn files kinds bullets :
  scan_files gd gn files Counter.empty [] = Ok (kinds, bullets) ->
  (forall kw, In kw (keywords_in gd files) ->
              ~ In kw (map u ["fix"; "feature"; "feat"; "refactor"]%string)) ->
  defines gd files = false ->
  pick_type kinds files = pick_type Counter.empty files.
Proof.
  intros S Hkw Hdef.
  assert (Z0 : forall k, In k (map u ["fix"; "feat"; "refa"]%string) ->
                         Counter.positive (Counter.get kinds k) = false).
  { intros k Hk. unfold Counter.positive.
    rewrite (scan_files_tally k _ _ _ _ _ _ _ S). simpl Counter.get.
    rewrite votes_none; [reflexivity | | auto | |].
    - intros kw Hin Hkey. specialize (Hkw kw Hin).
      pose proof (keywords_in_known _ _ _ Hin) as Hall.
      unfold Re.keywords in Hall. cbn [map In] in Hall, Hk.
      repeat (destruct Hall as [<- | Hall]); try contradiction;
        first [ exfalso; apply Hkw; cbn [map In]; auto 10; fail
              | repeat (destruct Hk as [<- | Hk]); try contradiction;
                vm_compute in Hkey; discriminate ].
    - cbn [map In] in Hk. intuition (subst; discriminate).
    - cbn [map In] in Hk. intuition (subst; discriminate). }
  apply pick_type_no_votes; apply Z0; cbn [map In]; auto.
Qed.

Lemma generate_commit_message_ok gd gn first rest msg :
  generate_commit_message gd gn (first :: rest) = Ok msg ->
  exists kinds bullets,
    scan_files gd gn (first :: rest) Counter.empty [] = Ok (kinds, bullets) /\
    selected_type gd gn (first :: rest) = Some (pick_type kinds (first :: rest)) /\
    msg = subject_of (pick_type kinds (first :: rest)) first ++ [NL].
Proof.
  unfold generate_commit_message, selected_type.
  destruct (scan_files gd gn (first :: rest) Counter.empty [])
    as [[kinds bullets] | ex]; cbn [rbind fst]; intros H; [| discriminate].
  exists kinds, bullets. inversion H. auto.
Qed.

(** Without a vote for fix, feat or refactor the message is built from the
    type the file names give. *)
Lemma type_decided_by_files gd gn first rest msg :
  let files := first :: rest in
  generate_commit_message gd gn files = Ok msg ->
  (forall kw, In kw (keywords_in gd files) ->
              ~ In kw (map u ["fix"; "feature"; "feat"; "refactor"]%string)) ->
  defines gd files = false ->
  selected_type gd gn files = Some (pick_type Counter.empty files) /\
  msg = subject_of (pick_type Counter.empty files) first ++ [NL].
Proof.
  intros files G Hkw Hdef.
  destruct (generate_commit_message_ok _ _ _ _ _ G)
    as (kinds & bullets & S & T & ->).
  fold files in S, T |- *.
  now rewrite T, (no_type_votes _ _ _ _ _ S Hkw Hdef).
Qed.

(** ** The synthesizer: the claims *)

(** Settles [forall kw, In kw found -> ~ In kw others] and the like on
    concrete lists of keywords. *)
Ltac keyword_cases :=
  let kw := fresh "kw" in
  let Hin := fresh "Hin" in
  intros kw Hin; vm_compute in Hin |- *;
  repeat (destruct Hin as [<- | Hin]); try contradiction;
  first [ tauto | intuition discriminate ].



(** C6 (as the code has it).  For a non-empty batch whose staged diff holds
    none of the keywords fix, feature, feat, refactor and no added or removed
    line that opens with def, class or function: if every file is a markdown
    (or .rst) file the commit type is "docs", and if the batch is of mixed
    types (in particular when the diff holds no keyword at all) the commit
    type is "chore". *)
Theorem docs_and_chore_selection gd gn first rest msg :
  let files := first :: rest in
  generate_commit_message gd gn files = Ok msg ->
  (forall kw, In kw (keywords_in gd files) ->
              ~ In kw (map u ["fix"; "feature"; "feat"; "refactor"]%string)) ->
  defines gd files = false ->
  (Forall (fun f => suffix f = u ".md" \/ suffix f = u ".rst") files ->
   selected_type gd gn files = Some (u "docs") /\
   msg = subject_of (u "docs") first ++ [NL]) /\
  (mixed files ->
   selected_type gd gn files = Some (u "chore") /\
   msg = subject_of (u "chore") first ++ [NL]).
Proof.
  intros files G Hkw Hdef.
  destruct (type_decided_by_files gd gn first rest msg G Hkw Hdef) as [T ->].
  fold files in T |- *. rewrite T.
  split.
  - intros Hmd.
    assert (D : forallb (suffix_in [u ".md"; u ".rst"]) files = true).
    { apply forallb_forall. intros f Hf.
      rewrite Forall_forall in Hmd. unfold suffix_in.
      destruct (Hmd f Hf) as [-> | ->]; reflexivity. }
    now rewrite (pick_type_docs _ D).
  - intros Hmix. now rewrite (pick_type_chore _ Hmix).
Qed.

Lemma docs_and_chore_selection_witness :
  generate_commit_message (fun _ => Some Demo.neutral_diff) Demo.numstat
                          [Demo.readme]
  = Ok (u "docs: update README" ++ [NL])
  /\
  generate_commit_message (fun _ => Some Demo.a_diff) Demo.numstat
                          [Demo.app; Demo.readme]
  = Ok (u "chore: update app" ++ [NL]).
Proof.
  split.
  - destruct (docs_and_chore_selection (fun _ => Some Demo.neutral_diff)
                Demo.numstat Demo.readme [] (u "docs: update README" ++ [NL]))
      as [[_ E] _].
    + vm_compute. reflexivity.
    + keyword_cases.
    + vm_compute. reflexivity.
    + repeat constructor.
    + vm_compute. reflexivity.
  - destruct (docs_and_chore_selection (fun _ => Some Demo.a_diff)
                Demo.numstat Demo.app [Demo.readme]
                (u "chore: update app" ++ [NL]))
      as [_ [_ E]].
    + vm_compute. reflexivity.
    + keyword_cases.
    + vm_compute. reflexivity.
    + vm_compute. auto.
    + vm_compute. reflexivity.
Defined.

(** C6 as stated fails on both counts: a markdown file whose only added line
    opens with the word class holds none of the keywords, yet the line counts
    as a definition and the type is "feat"; the same happens in a batch of
    mixed types whose diff holds no keyword at all. *)
Lemma docs_and_chore_counterexample :
  ~ (forall gd gn first rest msg,
       generate_commit_message gd gn (first :: rest) = Ok msg ->
       Forall (fun f => suffix f = u ".md") (first :: rest) ->
       (forall kw, In kw (keywords_in gd (first :: rest)) ->
                   ~ In kw (map u ["fix"; "feature"; "feat"; "refactor"]%string)) ->
       msg = subject_of (u "docs") first ++ [NL])
  /\
  ~ (forall gd gn first rest msg,
       generate_commit_message gd gn (first :: rest) = Ok msg ->
       mixed (first :: rest) ->
       keywords_in gd (first :: rest) = [] ->
       msg = subject_of (u "chore") first ++ [NL]).
Proof.
  split; intros H.
  - specialize (H (fun _ => Some Demo.class_diff) Demo.numstat Demo.readme []
                  (u "feat: update README" ++ [NL])).
    assert (E : u "feat: update README" ++ [NL]
                = subject_of (u "docs") Demo.readme ++ [NL]).
    { apply H.
      - vm_compute. reflexivity.
      - repeat constructor.
      - keyword_cases. }
    vm_compute in E. discriminate.
  - specialize (H (fun _ => Some Demo.class_diff) Demo.numstat Demo.app
                  [Demo.readme] (u "feat: update app" ++ [NL])).
    assert (E : u "feat: update app" ++ [NL]
                = subject_of (u "chore") Demo.app ++ [NL]).
    { apply H.
      - vm_compute. reflexivity.
      - vm_compute. auto.
      - vm_compute. reflexivity. }
    vm_compute in E. discriminate.
Qed.

(** What "mixed" has to mean for the fallback: two files with different
    extensions that both live under a test directory are a test batch. *)
Example different_extensions_under_tests :
  generate_commit_message (fun _ => Some Demo.a_diff) Demo.numstat
                          [Demo.tests_md; Demo.tests_css]
  = Ok (u "test: update guide" ++ [NL]).
Proof. vm_compute. reflexivity. Qed.



(** ** [shorten]: the width bound and where the characters come from *)

Module TextWrapFacts.
Import TextWrap.

Lemma length_concat_rev (l : list str) :
  length (concat (rev l)) = length (concat l).
Proof.
  induction l as [| x l IH]; simpl; [reflexivity |].
  rewrite concat_app, !length_app, IH. simpl. rewrite app_nil_r. lia.
Qed.

Lemma lstrip_length s : length (lstrip s) <= length s.
Proof.
  induction s as [| c s IH]; simpl; [lia |].
  destruct (isspace c); simpl; lia.
Qed.

Lemma with_placeholder_length width ph : forall rev_line,
  length (lstrip ph) <= width ->
  length (with_placeholder width ph rev_line) <= width.
Proof.
  induction rev_line as [| c before IH]; intros Hph; simpl; [assumption |].
  destruct (negb (blank c) && _) eqn:E; [| now apply IH].
  apply andb_true_iff in E. destruct E as [_ E]. apply Nat.leb_le in E.
  unfold total_len in E. simpl in E.
  rewrite length_app, concat_app, length_app, length_concat_rev.
  simpl. rewrite app_nil_r. rewrite length_app in E. lia.
Qed.

(** The result of [shorten] fits the width. *)
Lemma wrap_one_line_length width ph chunks :
  length (lstrip ph) <= width ->
  length (wrap_one_line width ph chunks) <= width.
Proof.
  intros Hph. unfold wrap_one_line.
  destruct (take_fitting width 0 chunks) as [fit left].
  destruct (handle_long_word width fit left) as [cur_line0 left'].
  destruct (drop_trailing_blank cur_line0) as [| c cur] eqn:D; [simpl; lia |].
  destruct (_ && (total_len (c :: cur) <=? width)) eqn:E.
  - apply andb_true_iff in E. destruct E as [_ E]. now apply Nat.leb_le in E.
  - now apply with_placeholder_length.
Qed.

Lemma shorten_length text width ph :
  length (lstrip ph) <= width -> length (shorten text width ph) <= width.
Proof. apply wrap_one_line_length. Qed.

Lemma from_chunks_self chunks : from_chunks chunks chunks.
Proof.
  intros x Hx. exists x, (length x). split; [assumption |].
  now rewrite firstn_all.
Qed.

Lemma take_fitting_split width : forall chunks cur_len fit left,
  take_fitting width cur_len chunks = (fit, left) -> chunks = fit ++ left.
Proof.
  induction chunks as [| c rest IH]; intros cur_len fit left H; simpl in H.
  - now inversion H.
  - destruct (cur_len + length c <=? width).
    + destruct (take_fitting width (cur_len + length c) rest) as [l r] eqn:E.
      inversion H; subst. simpl. f_equal. eapply IH, E.
    + now inversion H.
Qed.

Lemma handle_long_word_from width fit left cur_line left' :
  handle_long_word width fit left = (cur_line, left') ->
  from_chunks cur_line (fit ++ left).
Proof.
  unfold handle_long_word. intros H x Hx.
  assert (Hfit : In x fit -> exists c n, In c (fit ++ left) /\ x = firstn n c).
  { intros Hin. exists x, (length x). split; [apply in_or_app; auto |].
    now rewrite firstn_all. }
  destruct left as [| c rest]; [inversion H; subst; auto |].
  destruct (width <? length c); inversion H; subst; [| auto].
  apply in_app_or in Hx. destruct Hx as [Hx | [<- | []]]; [auto |].
  exists c, (width - total_len fit). split; [| reflexivity].
  apply in_or_app. right. now left.
Qed.

Lemma drop_trailing_blank_incl cur_line x :
  In x (drop_trailing_blank cur_line) -> In x cur_line.
Proof.
  unfold drop_trailing_blank.
  destruct (rev cur_line) as [| c before] eqn:R; [auto |].
  destruct (blank c); [| auto].
  intros H. apply in_rev. rewrite R. right. now apply in_rev.
Qed.

Lemma lstrip_incl s c : In c (lstrip s) -> In c s.
Proof.
  induction s as [| x s IH]; simpl; [auto |].
  destruct (isspace x); [right; auto | auto].
Qed.

Lemma strip_incl s c : In c (strip s) -> In c s.
Proof.
  unfold strip, rstrip. intros H.
  apply in_rev, lstrip_incl in H. apply in_rev in H.
  now apply lstrip_incl.
Qed.

Lemma with_placeholder_chars width ph : forall rev_line c,
  In c (with_placeholder width ph rev_line) ->
  In c ph \/ exists x, In x rev_line /\ In c x.
Proof.
  induction rev_line as [| y before IH]; intros c H; simpl in H.
  - left. now apply lstrip_incl.
  - destruct (negb (blank y) && _).
    + apply in_app_or in H. destruct H as [H | H]; [| auto].
      right. apply in_concat in H. destruct H as (x & Hx & Hc).
      exists x. split; [| assumption].
      apply (proj2 (in_rev (y :: before) x)). exact Hx.
    + destruct (IH c H) as [? | (x & Hx & Hc)]; [auto |].
      right. exists x. split; [now right | assumption].
Qed.

(** The characters of the shortened line: those of the placeholder and those
    of the chunks. *)
Lemma wrap_one_line_chars width ph chunks c :
  In c (wrap_one_line width ph chunks) ->
  In c ph \/ exists x, In x chunks /\ In c x.
Proof.
  unfold wrap_one_line.
  destruct (take_fitting width 0 chunks) as [fit left] eqn:F.
  destruct (handle_long_word width fit left) as [cur_line0 left'] eqn:W.
  pose proof (take_fitting_split _ _ _ _ _ F) as ->.
  pose proof (handle_long_word_from _ _ _ _ _ W) as Hfrom.
  assert (Hline : forall x, In x (drop_trailing_blank cur_line0) -> In c x ->
                            exists y, In y (fit ++ left) /\ In c y).
  { intros x Hx Hc. apply drop_trailing_blank_incl in Hx.
    destruct (Hfrom x Hx) as (y & n & Hy & ->).
    exists y. split; [assumption |].
    rewrite <- (firstn_skipn n y). apply in_or_app. now left. }
  destruct (drop_trailing_blank cur_line0) as [| z cur] eqn:D; [easy |].
  destruct (_ && (total_len (z :: cur) <=? width)).
  - intros H. apply in_concat in H. destruct H as (x & Hx & Hc).
    right. eapply Hline; eassumption.
  - intros H. apply with_placeholder_chars in H.
    destruct H as [? | (x & Hx & Hc)]; [auto |].
    right. apply in_rev in Hx. eapply Hline; eassumption.
Qed.

Lemma chunks_of_in words x :
  In x (chunks_of words) -> x = u " " \/ In x words.
Proof.
  induction words as [| w [| w' rest] IH]; simpl; intros H.
  - easy.
  - destruct H as [<- | []]. auto.
  - destruct H as [<- | [<- | H]]; auto.
    destruct (IH H) as [? | ?]; auto.
Qed.

Lemma split_ws_aux_words : forall s cur w c,
  (forall d, In d cur -> isspace d = false) ->
  In w (split_ws_aux s cur) -> In c w ->
  isspace c = false /\ (In c s \/ In c cur).
Proof.
  induction s as [| x s IH]; intros cur w c Hcur Hw Hc; simpl in Hw.
  - destruct cur as [| d cur']; [easy |].
    destruct Hw as [<- | []]. apply in_rev in Hc. auto.
  - destruct (isspace x) eqn:X.
    + destruct cur as [| d cur'].
      * destruct (IH [] w c) as [? [? | []]]; simpl; auto; easy.
      * destruct Hw as [<- | Hw].
        -- apply in_rev in Hc. auto.
        -- destruct (IH [] w c) as [? [? | []]]; simpl; auto; easy.
    + destruct (IH (x :: cur) w c) as [? [? | [<- | ?]]]; simpl; auto.
      intros d [<- | Hd]; auto.
Qed.

(** A character of the shortened text is a character of the placeholder, a
    single space, or a character of the text that is no whitespace. *)
Lemma shorten_chars text width ph c :
  In c (shorten text width ph) ->
  In c ph \/ c = 32%N \/ (In c text /\ isspace c = false).
Proof.
  unfold shorten. intros H. apply wrap_one_line_chars in H.
  destruct H as [? | (x & Hx & Hc)]; [auto |].
  right. apply chunks_of_in in Hx. destruct Hx as [-> | Hx].
  - left. destruct Hc as [<- | []]. reflexivity.
  - right. unfold split_ws in Hx.
    destruct (split_ws_aux_words _ _ _ _ (fun d (F : In d []) => match F with end)
                                 Hx Hc) as [Hs [Hin | []]].
    split; [now apply strip_incl | assumption].
Qed.

End TextWrapFacts.

(** ** The message *)

Lemma pick_type_values kinds files :
  In (pick_type kinds files)
     (map u ["fix"; "feat"; "refactor"; "docs"; "test"; "style"; "chore"]%string).
Proof.
  unfold pick_type.
  repeat match goal with
         | |- context [if ?c then _ else _] => destruct c
         end; cbn [map In]; auto 10.
Qed.

Lemma pick_type_ext kinds kinds' files :
  (forall k, Counter.twice (Counter.get kinds k)
             = Counter.twice (Counter.get kinds' k)) ->
  pick_type kinds files = pick_type kinds' files.
Proof.
  intros H. unfold pick_type, Counter.positive. now rewrite !H.
Qed.

Lemma top_file_no_hyphen f : ~ In 45%N (top_file f).
Proof.
  unfold top_file, replace_char. intros H.
  apply in_map_iff in H. destruct H as (c & Hc & _).
  destruct (N.eqb c 45) eqn:E; [discriminate |].
  apply N.eqb_neq in E. congruence.
Qed.

Lemma subject_text_no_hyphen kinds files first :
  ~ In 45%N (pick_type kinds files ++ u ": update " ++ top_file first).
Proof.
  intros H. apply in_app_or in H. destruct H as [H | H].
  - pose proof (pick_type_values kinds files) as V. cbn [map In] in V.
    revert H.
    repeat (destruct V as [<- | V]); try contradiction;
      intros H; vm_compute in H; intuition discriminate.
  - apply in_app_or in H. destruct H as [H | H].
    + vm_compute in H. intuition discriminate.
    + now apply top_file_no_hyphen in H.
Qed.

Lemma startswith_incl p : forall s c,
  startswith p s = true -> In c p -> In c s.
Proof.
  induction p as [| x p IH]; intros [| y s] c H Hc; simpl in *; try easy.
  apply andb_true_iff in H. destruct H as [E H]. apply N.eqb_eq in E. subst y.
  destruct Hc as [-> | Hc]; [now left | right; eauto].
Qed.

Lemma contains_incl needle : forall s c,
  contains needle s = true -> In c needle -> In c s.
Proof.
  induction s as [| y s IH]; intros c H Hc; simpl in H.
  - rewrite orb_false_r in H. eapply startswith_incl; eassumption.
  - apply orb_true_iff in H. destruct H as [H | H].
    + eapply startswith_incl; eassumption.
    + right. now apply IH.
Qed.

Lemma scan_files_bullets gd gn files : forall c0 b0 kinds bullets b,
  scan_files gd gn files c0 b0 = Ok (kinds, bullets) ->
  In b bullets -> In b b0 \/ exists f adds dels, b = bullet f adds dels.
Proof.
  induction files as [| f rest IH]; intros c0 b0 kinds bullets b H Hb;
    cbn [scan_files] in H.
  - inversion H; subst. auto.
  - destruct (run_git gd f); cbn [rbind] in H; [| discriminate].
    destruct (run_git gn f); cbn [rbind] in H; [| discriminate].
    destruct (unpack_stats _) as [ad |]; cbn [rbind] in H; [| discriminate].
    destruct (IH _ _ _ _ _ H Hb) as [Hin | ?]; [| auto].
    apply in_app_or in Hin. destruct Hin as [? | [<- | []]]; eauto.
Qed.

(** When git answers and every numstat line has its three fields, a message
    is returned. *)
Lemma scan_files_total gd gn files : forall c0 b0,
  (forall f, In f files ->
     gd f <> None /\
     exists out ad, gn f = Some out /\ unpack_stats (strip out) = Ok ad) ->
  exists kinds bullets, scan_files gd gn files c0 b0 = Ok (kinds, bullets).
Proof.
  induction files as [| f rest IH]; intros c0 b0 H; cbn [scan_files].
  - eauto.
  - destruct (H f (or_introl eq_refl)) as (Hd & out & ad & Hn & Hu).
    unfold run_git. destruct (gd f) as [d |]; [| congruence].
    rewrite Hn. cbn [rbind]. rewrite Hu. cbn [rbind].
    apply IH. intros g Hg. apply H. now right.
Qed.

Lemma generate_commit_message_total gd gn first rest :
  (forall f, In f (first :: rest) ->
     gd f <> None /\
     exists out ad, gn f = Some out /\ unpack_stats (strip out) = Ok ad) ->
  exists msg, generate_commit_message gd gn (first :: rest) = Ok msg.
Proof.
  intros H.
  destruct (scan_files_total gd gn (first :: rest) Counter.empty [] H)
    as (kinds & bullets & S).
  rewrite (generate_commit_message_scanned _ _ _ _ _ _ S). eauto.
Qed.

(** C7.  For a non-empty batch the returned message is the subject line and
    a newline, nothing else.  The subject is the commit type, ": update " and
    the stem of the first file (with "_" and "-" turned into spaces),
    collapsed and cut to at most 50 characters; it is a single line.  No
    bullet occurs in the message, the numstat output does not enter it, and
    of the tallies only the commit type does: the summary is not part of it. *)
Theorem message_is_subject_line gd gn first rest msg :
  let files := first :: rest in
  generate_commit_message gd gn files = Ok msg ->
  exists commit_type,
    selected_type gd gn files = Some commit_type /\
    let subject :=
      TextWrap.shorten (commit_type ++ u ": update " ++ top_file first) 50
                       ellipsis in
    msg = subject ++ [NL] /\
    length subject <= 50 /\
    ~ In NL subject /\
    (forall kinds bullets b,
        scan_files gd gn files Counter.empty [] = Ok (kinds, bullets) ->
        In b bullets -> contains b msg = false) /\
    (forall gn' msg',
        generate_commit_message gd gn' files = Ok msg' -> msg' = msg) /\
    (forall gd' gn' msg',
        generate_commit_message gd' gn' files = Ok msg' ->
        selected_type gd' gn' files = Some commit_type -> msg' = msg).
Proof.
  intros files G. subst files.
  set (files := first :: rest) in *.
  destruct (generate_commit_message_ok _ _ _ _ _ G)
    as (kinds & bullets & S & T & ->).
  fold files in S, T |- *.
  exists (pick_type kinds files). split; [assumption |].
  cbv zeta. fold (subject_of (pick_type kinds files) first).
  assert (Hyphen : ~ In 45%N (subject_of (pick_type kinds files) first ++ [NL])).
  { intros H. apply in_app_or in H. destruct H as [H | [H | []]];
      [| discriminate].
    apply TextWrapFacts.shorten_chars in H.
    destruct H as [[H | []] | [H | [H _]]]; try discriminate.
    now apply subject_text_no_hyphen in H. }
  split; [reflexivity |]. split; [| split; [| split; [| split]]].
  - apply TextWrapFacts.shorten_length. simpl. lia.
  - intros H. apply TextWrapFacts.shorten_chars in H.
    destruct H as [[H | []] | [H | [_ H]]]; discriminate.
  - intros kinds' bullets' b S' Hb.
    destruct (contains b _) eqn:C; [| reflexivity].
    exfalso. apply Hyphen.
    apply (contains_incl b _ 45%N C).
    destruct (scan_files_bullets _ _ _ _ _ _ _ _ S' Hb)
      as [[] | (f & adds & dels & ->)].
    now left.
  - intros gn' msg' G'.
    destruct (generate_commit_message_ok _ _ _ _ _ G')
      as (kinds' & bullets' & S' & _ & ->).
    fold files in S' |- *. do 2 f_equal. apply pick_type_ext. intros k.
    rewrite (scan_files_tally k _ _ _ _ _ _ _ S).
    now rewrite (scan_files_tally k _ _ _ _ _ _ _ S').
  - intros gd' gn' msg' G' T'.
    destruct (generate_commit_message_ok _ _ _ _ _ G')
      as (kinds' & bullets' & _ & T'' & ->).
    fold files in T'' |- *. rewrite T'' in T'. inversion T' as [E].
    now rewrite E.
Qed.

Lemma message_is_subject_line_witness :
  generate_commit_message
    (fun _ => Some Demo.neutral_diff) Demo.numstat
    [mkPath [u "src"] (u "a_rather-long_module_name_for_the_payment_gateway.py");
     Demo.readme]
  = Ok (u "chore: update a rather long module name for the" ++ ellipsis ++ [NL]).
Proof.
  destruct (message_is_subject_line
              (fun _ => Some Demo.neutral_diff) Demo.numstat
              (mkPath [u "src"]
                      (u "a_rather-long_module_name_for_the_payment_gateway.py"))
              [Demo.readme]
              (u "chore: update a rather long module name for the"
                 ++ ellipsis ++ [NL]))
    as (ty & _ & _).
  - vm_compute. reflexivity.
  - vm_compute. reflexivity.
Defined.

(** ** The mutator: lines and their endings *)

Lemma yields_ret {A} (a : A) (P : A -> Prop) : P a -> yields (ret a) P.
Proof. intros H st. now exists a, st. Qed.

Lemma yields_bind {A B} (m : M A) (k : A -> M B) (P : A -> Prop)
      (Q : B -> Prop) :
  yields m P -> (forall a, P a -> yields (k a) Q) -> yields (bind m k) Q.
Proof.
  intros Hm Hk st.
  destruct (Hm st) as (a & st1 & E & F1 & L1 & Pa).
  destruct (Hk a Pa st1) as (b & st2 & E2 & F2 & L2 & Qb).
  exists b, st2. rewrite (bind_run _ E). repeat split; congruence.
Qed.

Lemma quiet_yields {A} (m : M A) : quiet m -> yields m (fun _ => True).
Proof.
  intros Q st. destruct (Q st) as (a & st' & E & F & L).
  exists a, st'. auto.
Qed.

Lemma yields_randint (w : world) a b :
  yields (randint w a b) (fun n => a <= n <= a + (b - a)).
Proof.
  intros st. eexists _, _. split; [reflexivity |]. cbn [fs log].
  repeat split; try lia.
  pose proof (Nat.mod_upper_bound (rng w (draws st)) (b - a + 1)). lia.
Qed.

Lemma last_app_tail {A} (a b : list A) d : b <> [] -> last (a ++ b) d = last b d.
Proof.
  intros Hb. induction a as [| x a IH]; [reflexivity |].
  cbn [app]. rewrite <- IH. simpl.
  destruct (a ++ b) eqn:E; [| reflexivity].
  apply app_eq_nil in E. now destruct E.
Qed.

Lemma last_map {A B} (f : A -> B) l d :
  l <> [] -> last (map f l) (f d) = f (last l d).
Proof.
  induction l as [| x l IH]; [easy |]. intros _.
  destruct l as [| y l]; [reflexivity |].
  change (last (map f (y :: l)) (f d) = f (last (y :: l) d)).
  now apply IH.
Qed.

Lemma last_default_irrelevant {A} (l : list A) d d' :
  l <> [] -> last l d = last l d'.
Proof.
  induction l as [| x l IH]; [easy |]. intros _.
  destruct l as [| y l]; [reflexivity |].
  change (last (y :: l) d = last (y :: l) d'). now apply IH.
Qed.

Lemma rev_head_last {A} (l : list A) x r d : rev l = x :: r -> last l d = x.
Proof.
  intros H. apply (f_equal (@rev A)) in H. rewrite rev_involutive in H.
  subst l. simpl. apply last_last.
Qed.

Lemma endswith_nl_snoc s : endswith [NL] (s ++ [NL]) = true.
Proof. unfold endswith. now rewrite rev_app_distr. Qed.

Lemma endswith_nl_app a b : b <> [] -> endswith [NL] (a ++ b) = endswith [NL] b.
Proof.
  intros Hb. unfold endswith. rewrite rev_app_distr.
  destruct (rev b) eqn:R; [| reflexivity].
  apply (f_equal (@rev char)) in R. rewrite rev_involutive in R. now subst.
Qed.

Lemma endswith_nl_concat (ls : list str) :
  ls <> [] -> last_line ls <> [] ->
  endswith [NL] (concat ls) = endswith [NL] (last_line ls).
Proof.
  unfold last_line. intros Hne Hlast.
  rewrite (app_removelast_last [] Hne) at 1.
  rewrite concat_app. simpl. rewrite app_nil_r.
  now apply endswith_nl_app.
Qed.

Lemma lstrip_head s c r : lstrip s = c :: r -> isspace c = false.
Proof.
  induction s as [| x s IH]; simpl; [discriminate |].
  destruct (isspace x) eqn:X; [assumption |].
  intros H. inversion H. now subst.
Qed.

Lemma lstrip_nil s : lstrip s = [] <-> forallb isspace s = true.
Proof.
  induction s as [| x s IH]; simpl; [tauto |].
  destruct (isspace x); simpl; [assumption |].
  split; discriminate.
Qed.

Lemma forallb_rev {A} (f : A -> bool) l : forallb f (rev l) = forallb f l.
Proof.
  induction l as [| x l IH]; [reflexivity |].
  simpl. rewrite forallb_app, IH. simpl. rewrite andb_true_r. apply andb_comm.
Qed.

Lemma rstrip_not_nl s : endswith [NL] (rstrip s) = false.
Proof.
  unfold endswith, rstrip. rewrite rev_involutive.
  destruct (lstrip (rev s)) as [| c r] eqn:E; [reflexivity |].
  apply lstrip_head in E.
  change (N.eqb NL c && true = false).
  destruct (N.eqb NL c) eqn:Q; [| reflexivity].
  apply N.eqb_eq in Q. subst c. discriminate.
Qed.

Lemma strip_rstrip_nonempty s : truthy (strip s) = true -> rstrip s <> [].
Proof.
  unfold strip, rstrip. intros H E.
  apply (f_equal (@rev char)) in E. rewrite rev_involutive in E. simpl in E.
  apply lstrip_nil in E. rewrite forallb_rev in E.
  assert (L : lstrip s = []).
  { apply lstrip_nil, E. }
  now rewrite L in H.
Qed.

Lemma trim_line_nonempty l : l <> [] -> trim_line l <> [].
Proof.
  unfold trim_line, has_trailing_ws. intros Hl.
  destruct (negb _ && truthy (strip l)) eqn:E; [| assumption].
  apply andb_true_iff in E. destruct E as [_ E].
  destruct (endswith [NL] l).
  - now destruct (rstrip l).
  - now apply strip_rstrip_nonempty.
Qed.

Lemma trim_line_ending l : endswith [NL] (trim_line l) = endswith [NL] l.
Proof.
  unfold trim_line. destruct (has_trailing_ws l); [| reflexivity].
  destruct (endswith [NL] l) eqn:E.
  - apply endswith_nl_snoc.
  - apply rstrip_not_nl.
Qed.

Lemma keeps_last_refl lines :
  lines <> [] -> last_line lines <> [] -> keeps_last lines lines.
Proof. unfold keeps_last. auto. Qed.

Lemma keeps_last_trans a b c :
  keeps_last a b -> keeps_last b c -> keeps_last a c.
Proof. unfold keeps_last. intuition congruence. Qed.

Lemma keeps_last_trim lines :
  lines <> [] -> last_line lines <> [] -> keeps_last lines (map trim_line lines).
Proof.
  intros Hne Hlast. unfold keeps_last.
  assert (E : last_line (map trim_line lines) = trim_line (last_line lines)).
  { unfold last_line.
    transitivity (last (map trim_line lines) (trim_line [])).
    - apply last_default_irrelevant. now destruct lines.
    - now apply last_map. }
  rewrite E. repeat split.
  - now destruct lines.
  - now apply trim_line_nonempty.
  - apply trim_line_ending.
Qed.

Lemma keeps_last_insert lines idx x :
  idx < length lines -> last_line lines <> [] ->
  keeps_last lines (insert_at idx x lines).
Proof.
  intros Hidx Hlast. unfold keeps_last, insert_at.
  assert (Hskip : skipn idx lines <> []).
  { intros E. apply (f_equal (@length str)) in E.
    rewrite length_skipn in E. simpl in E. lia. }
  assert (E : last_line (firstn idx lines ++ x :: skipn idx lines)
              = last_line lines).
  { unfold last_line. rewrite last_app_tail by discriminate.
    rewrite <- (firstn_skipn idx lines) at 2.
    rewrite (last_app_tail _ _ _ Hskip).
    destruct (skipn idx lines); [easy | reflexivity]. }
  rewrite E. repeat split; [| assumption].
  now destruct (firstn idx lines).
Qed.

Lemma docstring_slot_cons line next rest :
  docstring_slot (line :: next :: rest)
  = if Re.def_line_re line && negb (has_docstring next) then Some 0
    else option_map S (docstring_slot (next :: rest)).
Proof. reflexivity. Qed.

Lemma docstring_slot_bound lines : forall i,
  docstring_slot lines = Some i -> S i < length lines.
Proof.
  induction lines as [| line rest IH]; intros i H; [discriminate |].
  destruct rest as [| next rest']; [discriminate |].
  rewrite docstring_slot_cons in H.
  destruct (Re.def_line_re line && negb (has_docstring next)).
  - inversion H. simpl. lia.
  - destruct (docstring_slot (next :: rest')) as [j |]; [| discriminate].
    inversion H. specialize (IH j eq_refl). simpl in *. lia.
Qed.

(** When the endings agree there is nothing for the repair to do. *)
Lemma fix_last_keeps lines new_lines :
  lines <> [] -> keeps_last lines new_lines ->
  fix_last lines new_lines = new_lines.
Proof.
  intros Hne (Hn & _ & E). unfold fix_last.
  destruct (rev lines) as [| l r] eqn:Rl; [reflexivity |].
  destruct (rev new_lines) as [| n before] eqn:Rn; [reflexivity |].
  unfold last_line in E.
  rewrite (rev_head_last _ _ _ _ Rl), (rev_head_last _ _ _ _ Rn) in E.
  rewrite E. now destruct (endswith [NL] l).
Qed.

Lemma readlines_aux_concat : forall s cur,
  concat (readlines_aux s cur) = rev cur ++ s.
Proof.
  induction s as [| c s IH]; intros cur; cbn [readlines_aux].
  - destruct cur; [reflexivity |]. simpl. now rewrite !app_nil_r.
  - destruct (N.eqb c NL).
    + cbn [concat]. rewrite IH. simpl. now rewrite <- app_assoc.
    + rewrite IH. simpl. now rewrite <- app_assoc.
Qed.

Lemma readlines_concat t : concat (readlines t) = t.
Proof. unfold readlines. now rewrite readlines_aux_concat. Qed.

Lemma readlines_aux_nonempty : forall s cur l,
  In l (readlines_aux s cur) -> l <> [].
Proof.
  induction s as [| c s IH]; intros cur l H; cbn [readlines_aux] in H.
  - destruct cur as [| d cur']; [easy |]. destruct H as [<- | []].
    simpl. now destruct (rev cur').
  - destruct (N.eqb c NL).
    + destruct H as [<- | H]; [| eapply IH, H].
      simpl. now destruct (rev cur).
    + eapply IH, H.
Qed.

Lemma last_line_in lines : lines <> [] -> In (last_line lines) lines.
Proof.
  intros H. unfold last_line. rewrite (app_removelast_last [] H) at 2.
  apply in_or_app. right. now left.
Qed.

Lemma readlines_last t : readlines t <> [] -> last_line (readlines t) <> [].
Proof.
  intros H. apply (readlines_aux_nonempty t []). now apply last_line_in.
Qed.

(** The edits keep the last line last, and its ending. *)
Lemma edit_python_keeps (w : world) lines :
  lines <> [] -> last_line lines <> [] ->
  yields (edit_python w lines) (fun r => keeps_last lines (fst r)).
Proof.
  intros Hne Hlast. unfold edit_python.
  apply yields_bind with (P := fun _ => True);
    [apply quiet_yields, quiet_random_below | intros coin _].
  apply yields_bind with (P := fun r => keeps_last lines (fst r)).
  - destruct (coin && (5 <? length lines)) eqn:C.
    + apply andb_true_iff in C. destruct C as [_ C]. apply Nat.ltb_lt in C.
      eapply yields_bind; [apply yields_randint |].
      intros idx Hidx. cbv beta in Hidx. apply yields_ret.
      unfold add_blank_line.
      destruct (truthy _ && truthy _); cbn [fst].
      * apply keeps_last_insert; [lia | assumption].
      * now apply keeps_last_refl.
    + apply yields_ret. now apply keeps_last_refl.
  - intros r Hr. cbv zeta.
    assert (Ht : keeps_last lines (map trim_line (fst r))).
    { apply (keeps_last_trans _ _ _ Hr).
      destruct Hr as (? & ? & _). now apply keeps_last_trim. }
    apply yields_bind with (P := fun _ => True);
      [apply quiet_yields, quiet_random_below | intros coin2 _].
    destruct coin2; [| now apply yields_ret].
    destruct (docstring_slot (map trim_line (fst r))) as [i |] eqn:D;
      [| now apply yields_ret].
    apply docstring_slot_bound in D.
    apply yields_bind with (P := fun _ => True);
      [apply quiet_yields, quiet_choice | intros text _].
    apply yields_ret. cbn [fst].
    apply (keeps_last_trans _ _ _ Ht).
    destruct Ht as (_ & ? & _). now apply keeps_last_insert.
Qed.

Lemma edit_other_keeps (w : world) lines :
  lines <> [] -> last_line lines <> [] ->
  yields (edit_other w lines) (fun r => keeps_last lines (fst r)).
Proof.
  intros Hne Hlast. unfold edit_other. cbv zeta.
  pose proof (keeps_last_trim lines Hne Hlast) as Ht.
  apply yields_bind with (P := fun _ => True);
    [apply quiet_yields, quiet_random_below | intros coin _].
  destruct (coin && (3 <? length (map trim_line lines))) eqn:C;
    [| now apply yields_ret].
  apply andb_true_iff in C. destruct C as [_ C]. apply Nat.ltb_lt in C.
  eapply yields_bind; [apply yields_randint |].
  intros idx Hidx. cbv beta in Hidx. apply yields_ret. unfold add_blank_line.
  destruct (truthy _ && truthy _); cbn [fst]; [| assumption].
  apply (keeps_last_trans _ _ _ Ht).
  destruct Ht as (_ & ? & _). apply keeps_last_insert; [lia | assumption].
Qed.

(** ** The mutator: what one file can undergo *)

(** [touch_file] does not raise and logs nothing; either no file changes, or
    the file at hand -- with an extension, within the size limit, readable as
    text -- is rewritten with lines that keep its last line and ending. *)
Lemma touch_file_effect (w : world) file st :
  exists st',
    touch_file w file st = (Ok tt, st') /\ log st' = log st /\
    (fs st' = fs st \/
     exists fl t new_lines,
       truthy (suffix file) = true /\ fs st file = Some fl /\
       (f_size fl <= 100000)%Z /\ f_text fl = Some t /\
       readlines t <> [] /\ keeps_last (readlines t) new_lines /\
       fs st' = fun q =>
                  if path_eqb file q
                  then Some (mkFile (utf8_len (writelines new_lines))
                                    (Some (writelines new_lines))
                                    (f_readable fl) (f_writable fl))
                  else fs st q).
Proof.
  unfold touch_file.
  destruct (truthy (suffix file)) eqn:Sx; cbn [negb]; [| eauto 6].
  destruct (fs st file) as [fl |] eqn:F; [| eauto 6].
  destruct (100000 <? f_size fl)%Z eqn:Z; [eauto 6 |]. apply Z.ltb_ge in Z.
  destruct (f_readable fl); cbn [negb]; [| eauto 6].
  destruct (f_text fl) as [t |] eqn:T; [| eauto 6].
  destruct (readlines t) as [| l ls] eqn:R; [eauto 6 |].
  assert (Hne : readlines t <> []) by (rewrite R; discriminate).
  pose proof (readlines_last t Hne) as Hlast. rewrite R in Hne, Hlast.
  assert (E : yields (if Str.eqb (suffix file) (u ".py")
                      then edit_python w (l :: ls) else edit_other w (l :: ls))
                     (fun r => keeps_last (l :: ls) (fst r))).
  { destruct (Str.eqb (suffix file) (u ".py"));
      [now apply edit_python_keeps | now apply edit_other_keeps]. }
  destruct (E st) as (r & st1 & E1 & F1 & L1 & K).
  rewrite (bind_run _ E1).
  assert (G : quiet (if snd r then ret true else random_below w 40)).
  { destruct (snd r); [apply quiet_ret | apply quiet_random_below]. }
  destruct (G st1) as (go & st2 & E2 & F2 & L2).
  rewrite (bind_run _ E2).
  destruct (go && f_writable fl).
  - unfold write_file. eexists. split; [reflexivity |]. cbn [fs log].
    split; [congruence |]. right.
    exists fl, t, (fst r). rewrite R.
    do 6 (split; [first [assumption | reflexivity] |]).
    rewrite (fix_last_keeps _ _ Hne K), F2, F1. reflexivity.
  - exists st2. split; [reflexivity |]. split; [congruence |].
    left. congruence.
Qed.

Lemma strs_eqb_eq a : forall b, strs_eqb a b = true -> a = b.
Proof.
  induction a as [| x a IH]; intros [| y b] H; simpl in H; try easy.
  apply andb_true_iff in H. destruct H as [H1 H2].
  apply eqb_eq in H1. now rewrite H1, (IH _ H2).
Qed.

Lemma path_eqb_eq p q : path_eqb p q = true -> p = q.
Proof.
  unfold path_eqb. intros H. apply andb_true_iff in H. destruct H as [H1 H2].
  apply strs_eqb_eq in H1. apply eqb_eq in H2.
  destruct p, q; simpl in *. congruence.
Qed.

Lemma same_endings_refl f : same_endings f f.
Proof. intros p fl t H1 H2. exists fl, t. auto. Qed.

Lemma same_endings_trans f g h :
  same_endings f g -> same_endings g h -> same_endings f h.
Proof.
  intros H1 H2 p fl t Hp Ht.
  destruct (H1 p fl t Hp Ht) as (fl1 & t1 & Hp1 & Ht1 & E1).
  destruct (H2 p fl1 t1 Hp1 Ht1) as (fl2 & t2 & Hp2 & Ht2 & E2).
  exists fl2, t2. repeat split; congruence.
Qed.

Lemma touch_file_endings (w : world) file st :
  same_endings (fs st) (fs (snd (touch_file w file st))).
Proof.
  destruct (touch_file_effect w file st) as (st' & E & _ & [F | W]);
    rewrite E; cbn [snd].
  - rewrite F. apply same_endings_refl.
  - destruct W as (fl & t & new_lines & _ & Hf & _ & Ht & Hne & K & ->).
    intros p fl0 t0 Hp Ht0.
    destruct (path_eqb file p) eqn:P.
    + apply path_eqb_eq in P. subst p.
      rewrite Hf in Hp. inversion Hp; subst fl0.
      rewrite Ht in Ht0. inversion Ht0; subst t0.
      eexists _, _. split; [reflexivity |]. split; [reflexivity |].
      unfold writelines. destruct K as (K1 & K2 & K3).
      rewrite (endswith_nl_concat _ K1 K2), K3.
      rewrite <- (endswith_nl_concat _ Hne (readlines_last t Hne)).
      now rewrite readlines_concat.
    + exists fl0, t0. auto.
Qed.

(** ** The mutator: the claims *)

Lemma touch_file_frame (w : world) file st p :
  (suffix p = [] \/ exists fl, fs st p = Some fl /\ (100000 < f_size fl)%Z) ->
  fs (snd (touch_file w file st)) p = fs st p.
Proof.
  intros Hskip.
  destruct (touch_file_effect w file st) as (st' & E & _ & [F | W]);
    rewrite E; cbn [snd].
  - now rewrite F.
  - destruct W as (fl & t & new_lines & Sx & Hf & Hsize & _ & _ & _ & ->).
    destruct (path_eqb file p) eqn:P; [| reflexivity].
    apply path_eqb_eq in P. subst p. exfalso.
    destruct Hskip as [Hs | (fl' & Hf' & Hbig)].
    + now rewrite Hs in Sx.
    + rewrite Hf in Hf'. inversion Hf'; subst fl'. lia.
Qed.

(** C8.  A pass of the mutator over any batch leaves every file that has no
    extension, and every file larger than 100000 bytes, exactly as it was
    (and the pass itself never fails). *)
Theorem touch_files_skips (w : world) files st p :
  (suffix p = [] \/ exists fl, fs st p = Some fl /\ (100000 < f_size fl)%Z) ->
  fst (touch_files w files st) = Ok tt /\
  fs (snd (touch_files w files st)) p = fs st p.
Proof.
  revert st. induction files as [| file rest IH]; intros st Hskip.
  - split; reflexivity.
  - cbn [touch_files].
    pose proof (touch_file_frame w file st p Hskip) as Fr.
    destruct (touch_file_effect w file st) as (st' & E & _).
    rewrite E in Fr. cbn [snd] in Fr.
    rewrite (bind_run _ E).
    assert (Hskip' : suffix p = [] \/
                     exists fl, fs st' p = Some fl /\ (100000 < f_size fl)%Z)
      by (rewrite Fr; exact Hskip).
    destruct (IH st' Hskip') as [Hok Hfs].
    split; [assumption | congruence].
Qed.

Lemma touch_files_skips_witness :
  fs (snd (touch_files Demo.env
             [Demo.makefile; Demo.app; Demo.big; Demo.readme] Demo.init))
     Demo.makefile = Demo.files Demo.makefile /\
  fs (snd (touch_files Demo.env
             [Demo.makefile; Demo.app; Demo.big; Demo.readme] Demo.init))
     Demo.big = Demo.files Demo.big.
Proof.
  split.
  - apply (touch_files_skips Demo.env). left. reflexivity.
  - apply (touch_files_skips Demo.env). right.
    eexists. split; [vm_compute; reflexivity | reflexivity].
Defined.

(** C9.  Whatever the random choices: after a pass of the mutator every text
    file (rewritten or not) ends in a newline if and only if it did before.
    The texts are the file contents as [open] in text mode presents them. *)
Theorem touch_files_keeps_final_newline (w : world) files st p fl t :
  fs st p = Some fl -> f_text fl = Some t ->
  exists fl' t',
    fs (snd (touch_files w files st)) p = Some fl' /\
    f_text fl' = Some t' /\
    endswith [NL] t' = endswith [NL] t.
Proof.
  revert p fl t. change (same_endings (fs st) (fs (snd (touch_files w files st)))).
  revert st. induction files as [| file rest IH]; intros st.
  - apply same_endings_refl.
  - cbn [touch_files].
    pose proof (touch_file_endings w file st) as H1.
    destruct (touch_file_effect w file st) as (st' & E & _).
    rewrite E in H1. cbn [snd] in H1. rewrite (bind_run _ E).
    exact (same_endings_trans _ _ _ H1 (IH st')).
Qed.

Lemma touch_files_keeps_final_newline_witness :
  exists fl',
    fs (snd (touch_files Demo.env [Demo.notes; Demo.app; Demo.readme]
                         Demo.init)) Demo.notes = Some fl' /\
    f_text fl' = Some (u "alpha" ++ [NL] ++ u "beta") /\
    endswith [NL] (u "alpha" ++ [NL] ++ u "beta")
    = endswith [NL] Demo.notes_text.
Proof.
  destruct (touch_files_keeps_final_newline
              Demo.env [Demo.notes; Demo.app; Demo.readme] Demo.init
              Demo.notes (Demo.text_file Demo.notes_text) Demo.notes_text
              eq_refl eq_refl)
    as (fl' & t' & H1 & H2 & H3).
  assert (C : fs (snd (touch_files Demo.env [Demo.notes; Demo.app; Demo.readme]
                                   Demo.init)) Demo.notes
              = Some (mkFile 10 (Some (u "alpha" ++ [NL] ++ u "beta"))
                             true true))
    by (vm_compute; reflexivity).
  rewrite C in H1. inversion H1; subst fl'. cbn [f_text] in H2.
  inversion H2; subst t'.
  eexists. split; [exact C |]. split; [reflexivity | exact H3].
Defined.

(** The pass does rewrite files: the Python file of the example gains a blank
    line and loses its trailing blanks, and still ends in a newline. *)
Example touch_files_rewrites_python :
  option_map f_text
    (fs (snd (touch_files Demo.env [Demo.notes; Demo.app; Demo.readme]
                          Demo.init)) Demo.app)
  = Some (Some (u "def f(x):" ++ [NL] ++ u "    return x" ++ [NL]
                ++ u "def g(y):" ++ [NL] ++ [NL] ++ u "    return y" ++ [NL]
                ++ u "a = f(1)" ++ [NL] ++ u "b = g(2)" ++ [NL]
                ++ u "print(a, b)" ++ [NL])).
Proof. vm_compute. reflexivity. Qed.

(** ** The commits of a run carry the chosen dates *)

Lemma commit_dates_app l1 l2 :
  commit_dates (l1 ++ l2) = commit_dates l1 ++ commit_dates l2.
Proof. unfold commit_dates. apply flat_map_app. Qed.

Lemma quiet_silent {A} (m : M A) : quiet m -> silent m.
Proof.
  intros Q st. destruct (Q st) as (a & st' & E & _ & L).
  exists []. rewrite E, app_nil_r. auto.
Qed.

Lemma silent_bind {A B} (m : M A) (k : A -> M B) :
  silent m -> (forall a, silent (k a)) -> silent (bind m k).
Proof.
  intros Hm Hk st. destruct (Hm st) as (e1 & L1 & D1). unfold bind.
  destruct (m st) as [[a | ex] st1]; cbn [snd] in L1.
  - destruct (Hk a st1) as (e2 & L2 & D2).
    exists (e1 ++ e2). rewrite L2, L1, app_assoc, commit_dates_app, D1, D2. auto.
  - exists e1. auto.
Qed.

Lemma commits_once_after {A B} ts (m : M A) (k : A -> M B) :
  silent m -> (forall a, commits_once ts (k a)) -> commits_once ts (bind m k).
Proof.
  intros Hm Hk st. destruct (Hm st) as (e1 & L1 & D1). unfold bind.
  destruct (m st) as [[a | ex] st1]; cbn [snd] in L1.
  - destruct (Hk a st1) as (e2 & L2 & D2).
    exists (e1 ++ e2). rewrite L2, L1, app_assoc, commit_dates_app, D1.
    split; [reflexivity | exact D2].
  - exists e1. split; [assumption |]. left.
    split; [assumption | now exists ex].
Qed.

Lemma silent_sh (w : world) argv : silent (sh w argv None).
Proof.
  intros st. exists [Git argv None]. unfold sh.
  now destruct (git_ok w st argv).
Qed.

Lemma silent_sample (w : world) {A} (pool : list A) k : silent (sample w pool k).
Proof.
  intros st. exists [].
  destruct (sample_cases w pool k st) as [[_ E] | [_ (p & r & E & _)]];
    rewrite E, app_nil_r; auto.
Qed.

Lemma silent_touch_files (w : world) files : silent (touch_files w files).
Proof.
  induction files as [| f rest IH]; cbn [touch_files].
  - apply quiet_silent, quiet_ret.
  - apply silent_bind; [| intros _; exact IH].
    intros st. destruct (touch_file_effect w f st) as (st' & E & L & _).
    exists []. rewrite E, app_nil_r. auto.
Qed.

Lemma commit_dates_queries (argvs : list (list str)) :
  commit_dates (map (fun argv => Git argv None) argvs) = [].
Proof. induction argvs as [| a l IH]; [reflexivity | exact IH]. Qed.

Lemma silent_message_for (w : world) batch : silent (message_for w batch).
Proof.
  intros st. eexists. split; [reflexivity |]. apply commit_dates_queries.
Qed.

Lemma commit_at_once (w : world) allfiles branch ts :
  commits_once ts (commit_at w allfiles branch ts).
Proof.
  unfold commit_at.
  apply commits_once_after; [apply quiet_silent, quiet_randint | intros n].
  apply commits_once_after; [apply silent_sample | intros batch].
  apply commits_once_after; [apply silent_touch_files | intros _].
  apply commits_once_after; [apply silent_sh | intros _].
  apply commits_once_after; [apply silent_message_for |].
  intros msg st.
  assert (S : silent (sh w (map u ["git"; "push"; "-u"; "origin"]%string
                                ++ [branch]) None ;;
                      emit (Print (date ts) msg))).
  { apply silent_bind; [apply silent_sh | intros _].
    intros st0. exists [Print (date ts) msg]. auto. }
  unfold bind at 1. unfold sh at 1.
  destruct (git_ok w st _).
  - destruct (S (mkState (fs st) (draws st)
                         (log st ++ [Git (map u ["git"; "commit"; "-m"]%string
                                              ++ [msg]) (Some ts)])))
      as (e2 & L2 & D2).
    eexists (_ :: e2). rewrite L2. cbn [log]. rewrite <- app_assoc.
    split; [reflexivity |]. right.
    change (ts :: commit_dates e2 = [ts]). now rewrite D2.
  - eexists [_]. cbn [snd log]. split; [reflexivity |]. now right.
Qed.

Lemma commit_all_dates (w : world) allfiles branch : forall dates st,
  exists evs n,
    log (snd (commit_all w allfiles branch dates st)) = log st ++ evs /\
    commit_dates evs = firstn n dates.
Proof.
  induction dates as [| ts rest IH]; intros st; cbn [commit_all].
  - exists [], 0. cbn [snd ret]. now rewrite app_nil_r.
  - destruct (commit_at_once w allfiles branch ts st) as (e1 & L1 & D1).
    unfold bind.
    destruct (commit_at w allfiles branch ts st) as [[[] | ex] st1];
      cbn [fst snd] in L1, D1.
    + destruct D1 as [[_ [e D]] | D1]; [discriminate |].
      destruct (IH st1) as (e2 & n & L2 & D2).
      exists (e1 ++ e2), (S n).
      rewrite L2, L1, app_assoc, commit_dates_app, D1, D2. auto.
    + exists e1. destruct D1 as [[D1 _] | D1].
      * exists 0. auto.
      * exists 1. auto.
Qed.

(** The dated commands of a whole run are commits on the chosen timestamps,
    in their order: all of them, or a first part when git fails on the way. *)
Lemma backfill_commit_dates
      (w : world) start end_ commits branch max_per_day st files dates st1 :
  schedule w start end_ commits max_per_day st = (Ok (files, dates), st1) ->
  exists evs n,
    log (snd (backfill w start end_ commits branch max_per_day st))
    = log st1 ++ evs /\
    commit_dates evs = firstn n dates.
Proof.
  intros S. unfold backfill. rewrite (bind_run _ S). cbn [fst snd].
  unfold bind. unfold sh at 1.
  destruct (git_ok w st1 _).
  - destruct (commit_all_dates w files branch dates
                (mkState (fs st1) (draws st1)
                         (log st1 ++ [Git (map u ["git"; "checkout"; "-B"]%string
                                               ++ [branch]) None])))
      as (evs & n & L & D).
    eexists (_ :: evs), n. rewrite L. cbn [log]. rewrite <- app_assoc.
    split; [reflexivity | exact D].
  - eexists [_], 0. cbn [snd log]. auto.
Qed.

(* ================================================================== *)
(** * Further properties of the script *)

(** ** A whole run of [backfill] *)

Lemma silent_ret {A} (a : A) : silent (ret a).
Proof. apply quiet_silent, quiet_ret. Qed.

Lemma silent_raise {A} (e : exn) : silent (@raise A e).
Proof. intros st. exists []. cbn [snd raise]. now rewrite app_nil_r. Qed.

Lemma silent_tracked_files (w : world) : silent (tracked_files w).
Proof.
  unfold tracked_files. apply silent_bind; [apply silent_sh | intros _].
  intros st. exists []. cbn [snd]. now rewrite app_nil_r.
Qed.

Lemma silent_schedule (w : world) start end_ commits max_per_day :
  silent (schedule w start end_ commits max_per_day).
Proof.
  unfold schedule, parse.
  apply silent_bind;
    [destruct (fromisoformat w start); [apply silent_ret | apply silent_raise] |].
  intros s. apply silent_bind;
    [destruct (fromisoformat w end_); [apply silent_ret | apply silent_raise] |].
  intros e. cbv zeta.
  destruct (_ <=? 0)%Z; [apply silent_raise |].
  apply silent_bind; [apply silent_tracked_files | intros allfiles].
  destruct (negb _); [apply silent_raise |].
  apply silent_bind.
  { unfold build_pool.
    destruct (_ <? _)%Z; [apply silent_raise |].
    destruct (_ <? _)%Z; [apply silent_raise | apply silent_ret]. }
  intros pool.
  destruct (_ <? commits)%Z; [apply silent_raise |].
  apply silent_bind; [apply silent_sample | intros picked; apply silent_ret].
Qed.

Lemma commit_all_run (w : world) allfiles branch : forall dates st,
  exists evs n,
    log (snd (commit_all w allfiles branch dates st)) = log st ++ evs /\
    commit_dates evs = firstn n dates /\
    (fst (commit_all w allfiles branch dates st) = Ok tt ->
     commit_dates evs = dates).
Proof.
  induction dates as [| ts rest IH]; intros st; cbn [commit_all].
  - exists [], 0. cbn [snd ret]. now rewrite app_nil_r.
  - destruct (commit_at_once w allfiles branch ts st) as (e1 & L1 & D1).
    unfold bind.
    destruct (commit_at w allfiles branch ts st) as [[[] | ex] st1];
      cbn [fst snd] in L1, D1.
    + destruct D1 as [[_ [e D]] | D1]; [discriminate |].
      destruct (IH st1) as (e2 & n & L2 & D2 & O2).
      exists (e1 ++ e2), (S n).
      rewrite L2, L1, app_assoc, commit_dates_app, D1, D2.
      repeat split. intros Hok. simpl. now rewrite <- D2, (O2 Hok).
    + exists e1. destruct D1 as [[D1 _] | D1].
      * exists 0. repeat split; auto. discriminate.
      * exists 1. repeat split; auto. discriminate.
Qed.

Lemma firstn_sorted n (l : list Z) :
  StronglySorted Z.le l -> StronglySorted Z.le (firstn n l).
Proof.
  revert n. induction l as [| x l IH]; intros [| n] H; simpl; try constructor.
  - apply IH. now inversion H.
  - inversion H; subst. apply Forall_forall. intros y Hy.
    rewrite Forall_forall in H3. apply H3.
    rewrite <- (firstn_skipn n l). apply in_or_app. now left.
Qed.

Lemma on_day_firstn d n l : on_day d (firstn n l) <= on_day d l.
Proof.
  rewrite <- (firstn_skipn n l) at 2. rewrite on_day_app. lia.
Qed.

Lemma no_commit_facts (s e : datetime) max_per_day commits :
  Forall (fun t => (s <= t <= e)%Z) [] /\
  StronglySorted Z.le [] /\
  (forall d, on_day d [] <= Z.to_nat max_per_day) /\
  (Z.of_nat (@length datetime []) <= Z.max 0 commits)%Z.
Proof.
  split; [constructor |]. split; [constructor |]. split.
  - intros d. apply Nat.le_0_l.
  - simpl. lia.
Qed.

(** X1.  However a run of [backfill] ends, the commits it has made are dated,
    in this order, with timestamps that lie within [start, end], never
    decrease, number at most [max_per_day] on any calendar day and at most
    [commits] in all; a run that returns has made exactly [commits] commits. *)
Theorem backfill_commits_within_range
        (w : world) start end_ commits branch max_per_day st s e :
  fromisoformat w start = Some s -> fromisoformat w end_ = Some e ->
  exists evs,
    log (snd (backfill w start end_ commits branch max_per_day st))
    = log st ++ evs /\
    Forall (fun t => (s <= t <= e)%Z) (commit_dates evs) /\
    StronglySorted Z.le (commit_dates evs) /\
    (forall d, on_day d (commit_dates evs) <= Z.to_nat max_per_day) /\
    (Z.of_nat (length (commit_dates evs)) <= Z.max 0 commits)%Z /\
    (fst (backfill w start end_ commits branch max_per_day st) = Ok tt ->
     Z.of_nat (length (commit_dates evs)) = commits).
Proof.
  intros Hs He.
  destruct (silent_schedule w start end_ commits max_per_day st)
    as (e0 & L0 & D0).
  set (run := backfill w start end_ commits branch max_per_day st).
  assert (Hrun :
    run = match schedule w start end_ commits max_per_day st with
          | (Ok plan, st') =>
              (sh w (map u ["git"; "checkout"; "-B"]%string ++ [branch]) None ;;
               commit_all w (fst plan) branch (snd plan)) st'
          | (Raise ex, st') => (Raise ex, st')
          end) by reflexivity.
  clearbody run.
  destruct (schedule w start end_ commits max_per_day st)
    as [[[files dates] | ex] st1] eqn:S; cbn [fst snd] in L0, Hrun; subst run;
    cbn [fst snd].
  2: { exists e0. rewrite D0.
       destruct (no_commit_facts s e max_per_day commits) as (F1 & F2 & F3 & F4).
       repeat (split; [assumption |]). discriminate. }
  destruct (schedule_inv _ _ _ _ _ _ _ _ _ S)
    as (s' & e' & picked & rest & Hs' & He' & T & P & L & -> & _).
  rewrite Hs in Hs'. rewrite He in He'. inversion Hs'; inversion He'; subst s' e'.
  unfold bind. unfold sh at 1 2.
  set (st2 := mkState (fs st1) (draws st1) (log st1 ++ [_])).
  assert (Hin : forall t, In t (sorted picked) -> (s <= t <= e)%Z).
  { intros t Ht.
    assert (Hp : In t (possible_dates s (days_between e s + 1) max_per_day)).
    { apply (Permutation_in _ (Permutation_sym P)), in_or_app. left.
      apply (Permutation_in _ (sorted_perm picked)), Ht. }
    destruct (possible_dates_in _ _ _ _ Hp) as (i & Hi & ->).
    now apply plus_days_in_range. }
  assert (Hcap : forall d, on_day d (sorted picked) <= Z.to_nat max_per_day).
  { intros d. rewrite (on_day_perm d _ _ (sorted_perm picked)).
    pose proof (on_day_possible_dates d s (days_between e s + 1) max_per_day) as C.
    rewrite (on_day_perm d _ _ P), on_day_app in C. lia. }
  assert (Hlen : Z.of_nat (length (sorted picked)) = commits)
    by now rewrite (Permutation_length (sorted_perm picked)).
  destruct (git_ok w st1 _).
  - destruct (commit_all_run w files branch (sorted picked) st2)
      as (evs & n & L2 & D2 & O2).
    exists (e0 ++ [Git (map u ["git"; "checkout"; "-B"]%string ++ [branch]) None]
               ++ evs).
    assert (D : commit_dates (e0 ++ [Git (map u ["git"; "checkout"; "-B"]%string
                                          ++ [branch]) None] ++ evs)
                = firstn n (sorted picked)).
    { rewrite commit_dates_app, D0. exact D2. }
    rewrite D. split.
    { rewrite L2. subst st2. cbn [log]. rewrite L0, <- !app_assoc. reflexivity. }
    split; [| split; [| split; [| split]]].
    + apply Forall_forall. intros t Ht. apply Hin.
      rewrite <- (firstn_skipn n (sorted picked)). apply in_or_app. now left.
    + apply firstn_sorted, sorted_ordered.
    + intros d. pose proof (on_day_firstn d n (sorted picked)).
      specialize (Hcap d). lia.
    + rewrite length_firstn. lia.
    + intros Hok. rewrite <- D2, (O2 Hok). exact Hlen.
  - exists (e0 ++ [Git (map u ["git"; "checkout"; "-B"]%string ++ [branch]) None]).
    rewrite commit_dates_app, D0. cbn [snd].
    split; [subst st2; cbn [log]; now rewrite L0, <- app_assoc |].
    cbn [commit_dates flat_map app].
    destruct (no_commit_facts s e max_per_day commits) as (F1 & F2 & F3 & F4).
    repeat (split; [assumption |]). discriminate.
Qed.

Lemma backfill_commits_within_range_witness :
  exists evs,
    log (snd (backfill Demo.env (u "2024-01-01") (u "2024-01-05") 5 (u "main") 3
                       Demo.init))
    = log Demo.init ++ evs /\
    Forall (fun t => (of_ymd 2024 1 1 <= t <= of_ymd 2024 1 5)%Z)
           (commit_dates evs) /\
    StronglySorted Z.le (commit_dates evs) /\
    (forall d, on_day d (commit_dates evs) <= Z.to_nat 3) /\
    (Z.of_nat (length (commit_dates evs)) <= Z.max 0 5)%Z /\
    (fst (backfill Demo.env (u "2024-01-01") (u "2024-01-05") 5 (u "main") 3
                   Demo.init) = Ok tt ->
     Z.of_nat (length (commit_dates evs)) = 5%Z).
Proof.
  exact (backfill_commits_within_range
           Demo.env (u "2024-01-01") (u "2024-01-05") 5 (u "main") 3 Demo.init
           (of_ymd 2024 1 1) (of_ymd 2024 1 5) eq_refl eq_refl).
Defined.

Lemma days_between_nonneg s e : (s <= e)%Z -> (0 < days_between e s + 1)%Z.
Proof.
  intros H. unfold days_between.
  assert (0 <= (e - s) / DAY)%Z; [| lia].
  apply Z.div_pos; [lia | apply DAY_pos].
Qed.

(** X2.  When the end is not before the start, the first thing [backfill]
    does is to list the files.  If git fails there, the run dies with
    CalledProcessError; if none of the listed paths is a regular file, it
    exits with "No tracked or unignored files found."  Either way the listing
    is the only command that was run, and no file was touched. *)
Theorem backfill_without_files
        (w : world) start end_ commits branch max_per_day st s e :
  fromisoformat w start = Some s -> fromisoformat w end_ = Some e ->
  (s <= e)%Z ->
  let listed := mkState (fs st) (draws st) (log st ++ [Git ls_files_cmd None]) in
  (git_ok w st ls_files_cmd = false ->
   backfill w start end_ commits branch max_per_day st
   = (Raise CalledProcessError, listed)) /\
  (git_ok w st ls_files_cmd = true ->
   (forall p, In p (ls_files w) -> fs st p = None) ->
   backfill w start end_ commits branch max_per_day st
   = (Raise (SystemExit msg_no_files), listed)).
Proof.
  intros Hs He Hle listed.
  pose proof (days_between_nonneg s e Hle) as T. apply Z.leb_gt in T.
  unfold backfill. unfold bind at 1. unfold bind at 2.
  rewrite !(schedule_unfold w start end_ commits max_per_day st s e Hs He), T.
  cbv zeta. split.
  - intros G. now rewrite G.
  - intros G Hnone. rewrite G.
    assert (F : filter (is_file listed) (ls_files w) = []).
    { apply filter_none. intros p Hp. unfold is_file, listed. cbn [fs].
      now rewrite (Hnone p Hp). }
    fold listed. rewrite F. reflexivity.
Qed.

Lemma backfill_without_files_witness :
  backfill (mkWorld iso_date (fun n => n) [Demo.tests_md] (fun _ _ => true)
                    (fun _ _ => None) (fun _ _ => None)
                    9223372036854775807 1000000)
           (u "2024-01-01") (u "2024-01-01") 1 (u "main") 3 Demo.init
  = (Raise (SystemExit msg_no_files),
     mkState (fs Demo.init) (draws Demo.init)
             (log Demo.init ++ [Git ls_files_cmd None])).
Proof.
  apply (backfill_without_files
           (mkWorld iso_date (fun n => n) [Demo.tests_md] (fun _ _ => true)
                    (fun _ _ => None) (fun _ _ => None)
                    9223372036854775807 1000000)
           (u "2024-01-01") (u "2024-01-01") 1 (u "main") 3 Demo.init
           (of_ymd 2024 1 1) (of_ymd 2024 1 1) eq_refl eq_refl).
  - vm_compute. discriminate.
  - reflexivity.
  - intros p [<- | []]. reflexivity.
Defined.

(** ** The numstat line and the outcome of [generate_commit_message] *)

Lemma split_on_length sep s :
  length (split_on sep s) = S (count_occ N.eq_dec s sep).
Proof.
  induction s as [| c s IH]; [reflexivity |].
  cbn [split_on count_occ].
  destruct (N.eqb_spec c sep) as [-> | Hne].
  - destruct (N.eq_dec sep sep); [| congruence]. simpl. now rewrite IH.
  - destruct (N.eq_dec c sep); [congruence |].
    destruct (split_on sep s); simpl in *; [discriminate | exact IH].
Qed.

Lemma unpack_stats_accepts stats :
  (exists ad, unpack_stats stats = Ok ad) <->
  (stats = [] \/ count_occ N.eq_dec stats 9%N = 2).
Proof.
  unfold unpack_stats. destruct stats as [| c r]; [split; eauto |].
  pose proof (split_on_length 9%N (c :: r)) as L.
  destruct (split_on 9%N (c :: r)) as [| a [| b [| x [| y l]]]];
    cbn [length] in L; [discriminate | | | |].
  all: split;
    [ intros [ad H]; try discriminate; right; lia
    | intros [H | H]; [discriminate | try lia; eauto] ].
Qed.

Lemma unpack_stats_raises stats e :
  unpack_stats stats = Raise e -> e = ValueError.
Proof.
  unfold unpack_stats. destruct stats as [| c r]; [discriminate |].
  destruct (split_on 9%N (c :: r)) as [| a [| b [| x [| y l]]]]; intros H;
    now inversion H.
Qed.

Lemma answered_scan gd gn f :
  answered gd gn f <->
  exists diff out ad,
    gd f = Some diff /\ gn f = Some out /\ unpack_stats (strip out) = Ok ad.
Proof.
  unfold answered, accepted_numstat. split.
  - intros (Hd & out & Hn & Ha).
    destruct (gd f) as [diff |]; [| congruence].
    apply unpack_stats_accepts in Ha. destruct Ha as [ad Ha]. eauto 6.
  - intros (diff & out & ad & Hd & Hn & Hu). split; [congruence |].
    exists out. split; [assumption |]. apply unpack_stats_accepts. eauto.
Qed.

(** The scan stops at the first file that is not answered. *)
Lemma scan_files_outcome gd gn : forall files kinds bullets,
  (Forall (answered gd gn) files /\
   exists r, scan_files gd gn files kinds bullets = Ok r)
  \/
  (exists pre f post,
      files = pre ++ f :: post /\ Forall (answered gd gn) pre /\
      ~ answered gd gn f /\
      scan_files gd gn files kinds bullets
      = Raise (match gd f, gn f with
               | Some _, Some _ => ValueError
               | _, _ => CalledProcessError
               end)).
Proof.
  induction files as [| f rest IH]; intros kinds bullets.
  - left. split; [constructor | cbn; eauto].
  - cbn [scan_files]. unfold run_git.
    destruct (gd f) as [diff |] eqn:D.
    2: { right. exists [], f, rest. cbn [rbind app].
         repeat split; [constructor | | now rewrite D].
         intros [H _]. congruence. }
    destruct (gn f) as [out |] eqn:N.
    2: { right. exists [], f, rest. cbn [rbind app].
         repeat split; [constructor | | now rewrite D, N].
         intros [_ (o & H & _)]. congruence. }
    cbn [rbind].
    destruct (unpack_stats (strip out)) as [ad | ex] eqn:U.
    + cbn [rbind].
      assert (A : answered gd gn f) by (apply answered_scan; eauto 6).
      destruct (IH (Counter.update kinds (_classify_change diff))
                   (bullets ++ [bullet f (fst ad) (snd ad)]))
        as [[Hall [r Hr]] | (pre & g & post & -> & Hpre & Hg & Hr)].
      * left. split; [now constructor | eauto].
      * right. exists (f :: pre), g, post.
        repeat split; [now constructor | assumption | assumption].
    + right. exists [], f, rest. cbn [rbind app].
      repeat split; [constructor | |].
      * intros A. apply answered_scan in A.
        destruct A as (d' & o' & ad & _ & Hn & Hu). congruence.
      * rewrite D, N. now rewrite (unpack_stats_raises _ _ U).
Qed.

Lemma first_failure_unique {A} (P : A -> Prop) f post f' post' :
  ~ P f -> ~ P f' ->
  forall pre pre',
    pre ++ f :: post = pre' ++ f' :: post' ->
    Forall P pre -> Forall P pre' -> pre' = pre /\ f' = f.
Proof.
  intros Hf Hf'. induction pre as [| x pre IH]; intros [| y pre'] E Hp Hp';
    simpl in E; inversion E; subst.
  - auto.
  - inversion Hp'; subst. contradiction.
  - inversion Hp; subst. contradiction.
  - inversion Hp; inversion Hp'; subst.
    destruct (IH pre') as [-> ->]; auto.
Qed.



(** ** A run in which git cooperates *)

Lemma succeeds_bind {A B} (m : M A) (k : A -> M B) :
  succeeds m -> (forall a, succeeds (k a)) -> succeeds (bind m k).
Proof.
  intros Hm Hk st. destruct (Hm st) as (a & st1 & E).
  rewrite (bind_run _ E). apply Hk.
Qed.

Lemma quiet_succeeds {A} (m : M A) : quiet m -> succeeds m.
Proof. intros Q st. destruct (Q st) as (a & st' & E & _). eauto. Qed.

Lemma succeeds_touch_files (w : world) files : succeeds (touch_files w files).
Proof.
  induction files as [| f rest IH]; cbn [touch_files].
  - apply quiet_succeeds, quiet_ret.
  - apply succeeds_bind; [| intros _; exact IH].
    intros st. destruct (touch_file_effect w f st) as (st' & E & _). eauto.
Qed.

Lemma succeeds_sample (w : world) {A} (pool : list A) k :
  (0 <= k <= Z.of_nat (length pool))%Z -> succeeds (sample w pool k).
Proof.
  intros Hk st.
  destruct (sample_cases w pool k st) as [[H _] | [_ (p & r & E & _)]];
    [lia | eauto].
Qed.

Lemma generate_commit_message_answered gd gn files :
  Forall (answered gd gn) files ->
  exists msg, generate_commit_message gd gn files = Ok msg.
Proof.
  intros H. destruct files as [| first rest]; [cbn; eauto |].
  apply generate_commit_message_total. intros f Hf.
  rewrite Forall_forall in H. pose proof (H f Hf) as A.
  apply answered_scan in A. destruct A as (d & out & ad & Hd & Hn & Hu).
  split; [congruence | eauto].
Qed.

Section Cooperative.

Variable w : world.
Hypothesis git_always_ok : forall st argv, git_ok w st argv = true.
Hypothesis git_always_answers :
  forall st f, answered (staged_diff w st) (staged_numstat w st) f.

Lemma succeeds_sh argv date : succeeds (sh w argv date).
Proof. intros st. unfold sh. rewrite git_always_ok. eauto. Qed.

Lemma succeeds_commit_at allfiles branch ts :
  succeeds (commit_at w allfiles branch ts).
Proof.
  unfold commit_at.
  apply succeeds_bind; [apply quiet_succeeds, quiet_randint | intros n].
  apply succeeds_bind; [apply succeeds_sample; lia | intros batch].
  apply succeeds_bind; [apply succeeds_touch_files | intros _].
  apply succeeds_bind; [apply succeeds_sh | intros _].
  apply succeeds_bind.
  { intros st. unfold message_for.
    destruct (generate_commit_message_answered
                (staged_diff w st) (staged_numstat w st) batch) as [msg E].
    - apply Forall_forall. intros f _. apply git_always_answers.
    - rewrite E. eauto. }
  intros msg.
  apply succeeds_bind; [apply succeeds_sh | intros _].
  apply succeeds_bind; [apply succeeds_sh | intros _].
  intros st. unfold emit. eauto.
Qed.

Lemma succeeds_commit_all allfiles branch dates :
  succeeds (commit_all w allfiles branch dates).
Proof.
  induction dates as [| ts rest IH]; cbn [commit_all].
  - apply quiet_succeeds, quiet_ret.
  - apply succeeds_bind; [apply succeeds_commit_at | intros _; exact IH].
Qed.

End Cooperative.



(** ** The commands of a run *)

Lemma runs_bind {A B} P (m : M A) (k : A -> M B) (Q : A -> Prop)
      (R : B -> Prop) :
  runs P m Q -> (forall a, Q a -> runs P (k a) R) -> runs P (bind m k) R.
Proof.
  intros Hm Hk st. destruct (Hm st) as (e1 & L1 & F1 & Q1). unfold bind.
  destruct (m st) as [[a | ex] st1]; cbn [fst snd] in *.
  - destruct (Hk a (Q1 a eq_refl) st1) as (e2 & L2 & F2 & Q2).
    exists (e1 ++ e2). rewrite L2, L1, app_assoc.
    split; [reflexivity |]. split; [now apply Forall_app | exact Q2].
  - exists e1. repeat split; [assumption | assumption | discriminate].
Qed.

Lemma yields_runs {A} P (m : M A) (Q : A -> Prop) : yields m Q -> runs P m Q.
Proof.
  intros Y st. destruct (Y st) as (a & st' & E & _ & L & Qa).
  exists []. rewrite E, app_nil_r. cbn [fst snd].
  repeat split; [assumption | constructor |].
  intros b H. now inversion H; subst.
Qed.

Lemma runs_raise {A} P (e : exn) (Q : A -> Prop) : runs P (raise e) Q.
Proof.
  intros st. exists []. cbn [raise fst snd]. rewrite app_nil_r.
  repeat split; [constructor | discriminate].
Qed.

Lemma runs_weaken {A} P (m : M A) (Q Q' : A -> Prop) :
  runs P m Q -> (forall a, Q a -> Q' a) -> runs P m Q'.
Proof.
  intros H HQ st. destruct (H st) as (evs & L & F & Hq).
  exists evs. repeat split; auto.
Qed.

Lemma runs_sh (w : world) P argv date :
  P (Git argv date) -> runs P (sh w argv date) (fun _ => True).
Proof.
  intros HP st. exists [Git argv date]. unfold sh.
  destruct (git_ok w st argv); cbn [fst snd log]; repeat split; auto.
Qed.

Lemma runs_emit P ev : P ev -> runs P (emit ev) (fun _ => True).
Proof. intros HP st. exists [ev]. cbn. repeat split; auto. Qed.

Lemma runs_sample (w : world) {A} P (pool : list A) k :
  runs P (sample w pool k)
       (fun picked => length picked = Z.to_nat k /\
                      forall x, In x picked -> In x pool).
Proof.
  intros st.
  destruct (sample_cases w pool k st) as [[_ E] | [_ (p & r & E & Pm & L)]];
    rewrite E; exists []; cbn [fst snd log]; rewrite app_nil_r;
    (split; [reflexivity |]); (split; [constructor |]); [discriminate |].
  intros a H. inversion H; subst a. split; [assumption |].
  intros x Hx. apply (Permutation_in _ (Permutation_sym Pm)), in_or_app. now left.
Qed.

Lemma runs_touch_files (w : world) P files :
  runs P (touch_files w files) (fun _ => True).
Proof.
  intros st. destruct (silent_touch_files w files st) as (evs & L & _).
  destruct (succeeds_touch_files w files st) as (a & st' & E).
  assert (evs = []).
  { induction files as [| f rest IH] in st, evs, L, a, st', E |- *.
    - cbn in L. apply (f_equal (@length event)) in L.
      rewrite length_app in L. destruct evs; [reflexivity | simpl in L; lia].
    - cbn [touch_files] in L, E.
      destruct (touch_file_effect w f st) as (st1 & E1 & L1 & _).
      rewrite (bind_run _ E1) in L, E. rewrite <- L1 in L. eapply IH; eassumption. }
  subst evs. exists []. repeat split; auto.
Qed.

(** The message of a non-empty batch is one line of at most 50 characters
    and a newline. *)
Lemma message_shape gd gn first rest msg :
  generate_commit_message gd gn (first :: rest) = Ok msg ->
  exists subject,
    msg = subject ++ [NL] /\ length subject <= 50 /\ ~ In NL subject.
Proof.
  intros G.
  destruct (generate_commit_message_ok _ _ _ _ _ G)
    as (kinds & bullets & _ & _ & ->).
  eexists. split; [reflexivity |]. unfold subject_of. split.
  - apply TextWrapFacts.shorten_length. simpl. lia.
  - intros H. apply TextWrapFacts.shorten_chars in H.
    destruct H as [[H | []] | [H | [_ H]]]; discriminate.
Qed.

Lemma scan_queries_in gd gn files argv :
  In argv (scan_queries gd gn files) ->
  exists f, In f files /\ (argv = diff_cmd f \/ argv = numstat_cmd f).
Proof.
  induction files as [| f rest IH]; cbn [scan_queries]; [contradiction |].
  intros [<- | H]; [exists f; split; [now left | auto] |].
  destruct (run_git gd f); [| contradiction].
  destruct H as [<- | H]; [exists f; split; [now left | auto] |].
  destruct (try! out <- run_git gn f; unpack_stats (strip out));
    [| contradiction].
  destruct (IH H) as (g & Hg & Hc). exists g. split; [now right | exact Hc].
Qed.

Lemma runs_message_for (w : world) tracked branch batch :
  (forall f, In f batch -> In f tracked) ->
  runs (allowed tracked branch) (message_for w batch)
       (fun msg => batch <> [] ->
                   exists subject, msg = subject ++ [NL]
                                   /\ length subject <= 50 /\ ~ In NL subject).
Proof.
  intros Hin st. eexists. split; [reflexivity |]. split.
  - apply Forall_forall. intros ev Hev. apply in_map_iff in Hev.
    destruct Hev as (argv & <- & Hq). apply scan_queries_in in Hq.
    destruct Hq as (f & Hf & Hc). cbn [allowed]. do 4 right.
    exists f. split; [auto | exact Hc].
  - cbn [message_for fst]. intros msg G Hne.
    destruct batch as [| first rest]; [contradiction |].
    eapply message_shape, G.
Qed.

Lemma runs_commit_at (w : world) tracked allfiles branch ts :
  allfiles <> [] -> incl allfiles tracked ->
  runs (allowed tracked branch) (commit_at w allfiles branch ts)
       (fun _ => True).
Proof.
  intros Hne Hincl. unfold commit_at.
  eapply runs_bind; [apply yields_runs, yields_randint | intros n Hn].
  cbv beta in Hn.
  eapply runs_bind; [apply runs_sample | intros batch [Hlen Hin]].
  rewrite Nat2Z.id in Hlen.
  assert (Hb : batch <> [] /\ length batch <= 10).
  { destruct allfiles; [easy |]. simpl length in Hlen.
    split; [destruct batch; [simpl in Hlen; lia | discriminate] | lia]. }
  eapply runs_bind; [apply runs_touch_files | intros _ _].
  eapply runs_bind.
  { apply runs_sh. cbn [allowed]. do 3 right. left. exists batch.
    destruct Hb. repeat split; auto. }
  intros _ _.
  eapply runs_bind; [apply runs_message_for; auto |].
  intros msg Hmsg. destruct (Hmsg (proj1 Hb)) as (subject & -> & Hs).
  eapply runs_bind; [apply runs_sh; cbn [allowed]; eauto | intros _ _].
  eapply runs_bind;
    [apply runs_sh; cbn [allowed]; auto | intros _ _].
  apply runs_emit. cbn [allowed]. eauto.
Qed.

Lemma runs_commit_all (w : world) tracked allfiles branch dates :
  allfiles <> [] -> incl allfiles tracked ->
  runs (allowed tracked branch) (commit_all w allfiles branch dates)
       (fun _ => True).
Proof.
  intros Hne Hincl. induction dates as [| ts rest IH]; cbn [commit_all].
  - apply yields_runs, yields_ret. exact I.
  - eapply runs_bind; [now apply runs_commit_at | intros _ _; exact IH].
Qed.

Lemma runs_schedule (w : world) branch start end_ commits max_per_day :
  runs (allowed (ls_files w) branch)
       (schedule w start end_ commits max_per_day)
       (fun plan => fst plan <> [] /\ incl (fst plan) (ls_files w)).
Proof.
  unfold schedule, parse.
  eapply runs_bind with (Q := fun _ => True).
  { destruct (fromisoformat w start);
      [apply yields_runs, yields_ret; exact I | apply runs_raise]. }
  intros s _. eapply runs_bind with (Q := fun _ => True).
  { destruct (fromisoformat w end_);
      [apply yields_runs, yields_ret; exact I | apply runs_raise]. }
  intros e _. cbv zeta.
  destruct (_ <=? 0)%Z; [apply runs_raise |].
  eapply runs_bind with (Q := fun files => incl files (ls_files w)).
  { unfold tracked_files.
    eapply runs_bind; [apply runs_sh; cbn [allowed]; auto | intros _ _].
    intros st. exists []. cbn [fst snd]. rewrite app_nil_r.
    repeat split; [constructor |]. intros a H. inversion H; subst a.
    intros f Hf. now apply filter_In in Hf. }
  intros allfiles Hincl.
  destruct (0 <? length allfiles) eqn:F; cbn [negb]; [| apply runs_raise].
  eapply runs_bind with (Q := fun _ => True).
  { unfold build_pool.
    destruct (_ <? _)%Z; [apply runs_raise |].
    destruct (_ <? _)%Z; [apply runs_raise |].
    apply yields_runs, yields_ret. exact I. }
  intros pool _.
  destruct (_ <? commits)%Z; [apply runs_raise |].
  eapply runs_bind; [apply runs_sample | intros picked _].
  apply yields_runs, yields_ret. cbn [fst]. split; [| assumption].
  apply Nat.ltb_lt in F. destruct allfiles; [simpl in F; lia | discriminate].
Qed.

(** X5.  Whatever git and the random generator do, the only commands a run
    of [backfill] starts are: [git ls-files], [git checkout -B] of the branch,
    [git add] of a batch of one to ten of the listed files, the two
    [git diff --cached] queries (--unified=0 and --numstat) of a listed file,
    [git commit] with a date and a message that is a single line of at most
    50 characters and a newline, and [git push] of the branch; and what it
    prints are such messages. *)
Theorem backfill_commands
        (w : world) start end_ commits branch max_per_day st :
  exists evs,
    log (snd (backfill w start end_ commits branch max_per_day st))
    = log st ++ evs /\
    Forall (allowed (ls_files w) branch) evs.
Proof.
  assert (R : runs (allowed (ls_files w) branch)
                   (backfill w start end_ commits branch max_per_day)
                   (fun _ => True)).
  { unfold backfill.
    eapply runs_bind; [apply runs_schedule | intros plan [Hne Hincl]].
    eapply runs_bind; [apply runs_sh; cbn [allowed]; auto | intros _ _].
    now apply runs_commit_all. }
  destruct (R st) as (evs & L & F & _). eauto.
Qed.

(** ** The mutator: what it does to the text of a file *)

Lemma visible_app a b : visible (a ++ b) = visible a ++ visible b.
Proof. apply filter_app. Qed.

Lemma visible_concat lines : visible (concat lines) = concat (map visible lines).
Proof.
  induction lines as [| l ls IH]; [reflexivity |].
  cbn [concat map]. now rewrite visible_app, IH.
Qed.

Lemma visible_lstrip s : visible (lstrip s) = visible s.
Proof.
  induction s as [| c s IH]; [reflexivity |].
  cbn [lstrip]. destruct (isspace c) eqn:C; [| reflexivity].
  unfold visible in *. cbn [filter]. now rewrite C, IH.
Qed.

Lemma visible_rstrip s : visible (rstrip s) = visible s.
Proof.
  unfold rstrip, visible. rewrite filter_rev.
  fold (visible (lstrip (rev s))). rewrite visible_lstrip.
  unfold visible. now rewrite filter_rev, rev_involutive.
Qed.

Lemma visible_trim_line l : visible (trim_line l) = visible l.
Proof.
  unfold trim_line. destruct (has_trailing_ws l); [| reflexivity].
  destruct (endswith [NL] l); [rewrite visible_app |];
    rewrite visible_rstrip; [apply app_nil_r | reflexivity].
Qed.

Lemma visible_trimmed lines :
  visible (concat (map trim_line lines)) = visible (concat lines).
Proof.
  rewrite !visible_concat, map_map. f_equal.
  apply map_ext. intros l. apply visible_trim_line.
Qed.

Lemma visible_insert_at idx x lines :
  visible (concat (insert_at idx x lines))
  = visible (concat (firstn idx lines)) ++ visible x
    ++ visible (concat (skipn idx lines)).
Proof.
  unfold insert_at. rewrite concat_app. cbn [concat].
  now rewrite !visible_app.
Qed.

Lemma visible_split idx lines :
  visible (concat lines)
  = visible (concat (firstn idx lines)) ++ visible (concat (skipn idx lines)).
Proof.
  rewrite <- visible_app, <- concat_app. now rewrite firstn_skipn.
Qed.

Lemma visible_blank_line idx lines l :
  add_blank_line idx lines = Some l ->
  visible (concat l) = visible (concat lines).
Proof.
  unfold add_blank_line. destruct (truthy _ && truthy _); [| discriminate].
  intros H. inversion H; subst l.
  rewrite visible_insert_at, (visible_split idx lines). reflexivity.
Qed.

Lemma visible_spaces n : visible (repeat 32%N n) = [].
Proof. induction n as [| n IH]; [reflexivity | exact IH]. Qed.

Lemma visible_docstring line text :
  visible (docstring line text) = docstring_mark text.
Proof.
  unfold docstring, docstring_mark.
  rewrite !visible_app, visible_spaces. cbn [app].
  change (visible triple_double) with triple_double.
  change (visible (u ".")) with (u ".").
  change (visible [NL]) with (@nil N). now rewrite app_nil_r.
Qed.

Lemma adds_docstrings_trans a b c :
  adds_docstrings a b -> adds_docstrings b c -> adds_docstrings a c.
Proof.
  intros H. induction H as [v | x y text v' Hin H IH]; [auto |].
  intros Hc. eapply adds_one; eauto.
Qed.

Lemma edited_refl p t : edited p t t.
Proof. unfold edited. destruct (Str.eqb _ _); [constructor | reflexivity]. Qed.

Lemma edited_trans p a b c : edited p a b -> edited p b c -> edited p a c.
Proof.
  unfold edited. destruct (Str.eqb _ _).
  - apply adds_docstrings_trans.
  - congruence.
Qed.

Lemma yields_choice (w : world) {A} (d : A) l :
  l <> [] -> yields (choice w d l) (fun x => In x l).
Proof.
  intros Hne st. eexists _, _. split; [reflexivity |]. cbn [fs log].
  repeat split. apply nth_In. apply Nat.mod_upper_bound.
  destruct l; [easy | discriminate].
Qed.

Lemma yields_and {A} (m : M A) (P Q : A -> Prop) :
  yields m P -> yields m Q -> yields m (fun a => P a /\ Q a).
Proof.
  intros HP HQ st.
  destruct (HP st) as (a & st1 & E1 & F1 & L1 & Pa).
  destruct (HQ st) as (b & st2 & E2 & _ & _ & Qb).
  rewrite E1 in E2. inversion E2; subst b st2.
  exists a, st1. auto.
Qed.

(** The edit of a text file other than Python changes white space only. *)
Lemma edit_other_visible (w : world) lines :
  yields (edit_other w lines)
         (fun r => visible (concat (fst r)) = visible (concat lines)).
Proof.
  unfold edit_other. cbv zeta.
  apply yields_bind with (P := fun _ => True);
    [apply quiet_yields, quiet_random_below | intros coin _].
  destruct (coin && _); [| apply yields_ret; apply visible_trimmed].
  apply yields_bind with (P := fun _ => True);
    [apply quiet_yields, quiet_randint | intros idx _].
  apply yields_ret.
  destruct (add_blank_line idx (map trim_line lines)) as [l |] eqn:B; cbn [fst].
  - rewrite (visible_blank_line _ _ _ B). apply visible_trimmed.
  - apply visible_trimmed.
Qed.

(** The edit of a Python file changes white space and may put in one
    docstring. *)
Lemma edit_python_visible (w : world) lines :
  yields (edit_python w lines)
         (fun r => visible (concat (fst r)) = visible (concat lines) \/
                   exists a b text,
                     In text docstring_texts /\
                     visible (concat lines) = a ++ b /\
                     visible (concat (fst r)) = a ++ docstring_mark text ++ b).
Proof.
  unfold edit_python.
  apply yields_bind with (P := fun _ => True);
    [apply quiet_yields, quiet_random_below | intros coin _].
  apply yields_bind
    with (P := fun r : list str * bool =>
                 visible (concat (fst r)) = visible (concat lines)).
  - destruct (coin && _); [| now apply yields_ret].
    apply yields_bind with (P := fun _ => True);
      [apply quiet_yields, quiet_randint | intros idx _].
    apply yields_ret.
    destruct (add_blank_line idx lines) as [l |] eqn:B; cbn [fst];
      [apply (visible_blank_line _ _ _ B) | reflexivity].
  - intros r Hr. cbv zeta.
    assert (Ht : visible (concat (map trim_line (fst r)))
                 = visible (concat lines))
      by now rewrite visible_trimmed.
    apply yields_bind with (P := fun _ => True);
      [apply quiet_yields, quiet_random_below | intros coin2 _].
    destruct coin2; [| apply yields_ret; now left].
    destruct (docstring_slot (map trim_line (fst r))) as [i |];
      [| apply yields_ret; now left].
    eapply yields_bind; [apply yields_choice; discriminate | intros text Hin].
    apply yields_ret. right. cbn [fst].
    exists (visible (concat (firstn (S i) (map trim_line (fst r))))),
           (visible (concat (skipn (S i) (map trim_line (fst r))))), text.
    split; [assumption |]. split.
    + rewrite <- Ht. apply visible_split.
    + now rewrite visible_insert_at, visible_docstring.
Qed.

Lemma edit_edited (w : world) file lines :
  yields (if Str.eqb (suffix file) (u ".py")
          then edit_python w lines else edit_other w lines)
         (fun r => edited file (concat lines) (concat (fst r))).
Proof.
  unfold edited. destruct (Str.eqb _ _).
  - intros st. destruct (edit_python_visible w lines st)
      as (r & st' & E & F & L & [H | (a & b & text & Hin & H1 & H2)]);
      exists r, st'; repeat split; auto.
    + rewrite H. constructor.
    + rewrite H1, H2. eapply adds_one; [eassumption | constructor].
  - apply edit_other_visible.
Qed.

(** [touch_file] either changes no file, or rewrites the file at hand, which
    then has an extension, at most 100000 bytes, can be read and written and
    holds text of at least one line. *)
Lemma touch_file_change (w : world) file st :
  exists st',
    touch_file w file st = (Ok tt, st') /\
    (fs st' = fs st \/
     exists fl t new_lines,
       truthy (suffix file) = true /\ fs st file = Some fl /\
       (f_size fl <= 100000)%Z /\ f_readable fl = true /\
       f_writable fl = true /\ f_text fl = Some t /\ t <> [] /\
       edited file t (concat new_lines) /\
       fs st' = fun q =>
                  if path_eqb file q
                  then Some (mkFile (utf8_len (writelines new_lines))
                                    (Some (writelines new_lines))
                                    (f_readable fl) (f_writable fl))
                  else fs st q).
Proof.
  unfold touch_file.
  destruct (truthy (suffix file)) eqn:Sx; cbn [negb]; [| eauto 6].
  destruct (fs st file) as [fl |] eqn:F; [| eauto 6].
  destruct (100000 <? f_size fl)%Z eqn:Z; [eauto 6 |]. apply Z.ltb_ge in Z.
  destruct (f_readable fl) eqn:Rd; cbn [negb]; [| eauto 6].
  destruct (f_text fl) as [t |] eqn:T; [| eauto 6].
  destruct (readlines t) as [| l ls] eqn:R; [eauto 6 |].
  assert (Hne : readlines t <> []) by (rewrite R; discriminate).
  pose proof (readlines_last t Hne) as Hlast. rewrite R in Hne, Hlast.
  assert (E : yields (if Str.eqb (suffix file) (u ".py")
                      then edit_python w (l :: ls) else edit_other w (l :: ls))
                     (fun r => keeps_last (l :: ls) (fst r) /\
                               edited file (concat (l :: ls))
                                      (concat (fst r)))).
  { apply yields_and; [| apply edit_edited].
    destruct (Str.eqb (suffix file) (u ".py"));
      [now apply edit_python_keeps | now apply edit_other_keeps]. }
  destruct (E st) as (r & st1 & E1 & F1 & L1 & K & Ed).
  rewrite (bind_run _ E1).
  assert (G : quiet (if snd r then ret true else random_below w 40)).
  { destruct (snd r); [apply quiet_ret | apply quiet_random_below]. }
  destruct (G st1) as (go & st2 & E2 & F2 & L2).
  rewrite (bind_run _ E2).
  destruct (go && f_writable fl) eqn:W.
  - apply andb_true_iff in W. destruct W as [_ W].
    unfold write_file. eexists. split; [reflexivity |]. cbn [fs].
    right. exists fl, t, (fst r).
    rewrite <- R, readlines_concat in Ed.
    do 6 (split; [first [assumption | reflexivity] |]).
    split; [intros ->; discriminate |]. split; [assumption |].
    rewrite (fix_last_keeps _ _ Hne K), F2, F1. reflexivity.
  - exists st2. split; [reflexivity |]. left. congruence.
Qed.

Lemma touch_file_edited (w : world) file st p fl t :
  fs st p = Some fl -> f_text fl = Some t ->
  exists fl' t',
    fs (snd (touch_file w file st)) p = Some fl' /\ f_text fl' = Some t' /\
    edited p t t'.
Proof.
  intros Hp Ht.
  destruct (touch_file_change w file st) as (st' & E & [F | C]);
    rewrite E; cbn [snd].
  - rewrite F. exists fl, t. auto using edited_refl.
  - destruct C as (fl0 & t0 & new_lines & _ & Hf & _ & _ & _ & Ht0 & _ & Ed & ->).
    destruct (path_eqb file p) eqn:P.
    + apply path_eqb_eq in P. subst p.
      rewrite Hf in Hp. inversion Hp; subst fl0.
      rewrite Ht in Ht0. inversion Ht0; subst t0.
      eexists _, _. split; [reflexivity |]. split; [reflexivity | exact Ed].
    + exists fl, t. auto using edited_refl.
Qed.

Lemma touch_files_edited (w : world) files : forall st p fl t,
  fs st p = Some fl -> f_text fl = Some t ->
  exists fl' t',
    fs (snd (touch_files w files st)) p = Some fl' /\ f_text fl' = Some t' /\
    edited p t t'.
Proof.
  induction files as [| file rest IH]; intros st p fl t Hp Ht.
  - exists fl, t. auto using edited_refl.
  - cbn [touch_files].
    destruct (touch_file_edited w file st p fl t Hp Ht)
      as (fl1 & t1 & Hp1 & Ht1 & E1).
    destruct (touch_file_change w file st) as (st1 & E & _).
    rewrite E in Hp1. cbn [snd] in Hp1. rewrite (bind_run _ E).
    destruct (IH st1 p fl1 t1 Hp1 Ht1) as (fl2 & t2 & Hp2 & Ht2 & E2).
    exists fl2, t2. eauto using edited_trans.
Qed.

(** X6.  A pass of the mutator changes nothing but white space in a text file
    that is not a Python file: whatever the batch and the random choices, the
    characters of the file that are not white space are afterwards the same,
    in the same order. *)
Theorem touch_files_whitespace_only (w : world) files st p fl t :
  suffix p <> u ".py" ->
  fs st p = Some fl -> f_text fl = Some t ->
  exists fl' t',
    fs (snd (touch_files w files st)) p = Some fl' /\ f_text fl' = Some t' /\
    visible t' = visible t.
Proof.
  intros Hs Hp Ht.
  destruct (touch_files_edited w files st p fl t Hp Ht)
    as (fl' & t' & Hp' & Ht' & E).
  exists fl', t'. split; [assumption |]. split; [assumption |].
  unfold edited in E. destruct (Str.eqb (suffix p) (u ".py")) eqn:S; [| exact E].
  apply eqb_eq in S. contradiction.
Qed.

Lemma touch_files_whitespace_only_witness :
  exists fl' t',
    fs (snd (touch_files Demo.env [Demo.notes; Demo.app; Demo.readme]
                         Demo.init)) Demo.readme = Some fl' /\
    f_text fl' = Some t' /\
    visible t' = visible Demo.readme_text.
Proof.
  apply (touch_files_whitespace_only
           Demo.env [Demo.notes; Demo.app; Demo.readme] Demo.init
           Demo.readme (Demo.text_file Demo.readme_text) Demo.readme_text).
  - discriminate.
  - reflexivity.
  - reflexivity.
Defined.

(** X7.  Apart from white space, all a pass of the mutator does to the text
    of a file is to put in docstrings with one of the four stock texts: the
    characters that are not white space stay, in their order, and what comes
    in between them are such docstrings only. *)
Theorem touch_files_adds_docstrings_only (w : world) files st p fl t :
  fs st p = Some fl -> f_text fl = Some t ->
  exists fl' t',
    fs (snd (touch_files w files st)) p = Some fl' /\ f_text fl' = Some t' /\
    adds_docstrings (visible t) (visible t').
Proof.
  intros Hp Ht.
  destruct (touch_files_edited w files st p fl t Hp Ht)
    as (fl' & t' & Hp' & Ht' & E).
  exists fl', t'. split; [assumption |]. split; [assumption |].
  unfold edited in E. destruct (Str.eqb (suffix p) (u ".py")); [exact E |].
  rewrite E. constructor.
Qed.

Lemma touch_files_adds_docstrings_only_witness :
  exists fl' t',
    fs (snd (touch_files Demo.env [Demo.notes; Demo.app; Demo.readme]
                         Demo.init)) Demo.app = Some fl' /\
    f_text fl' = Some t' /\
    adds_docstrings (visible Demo.app_text) (visible t').
Proof.
  exact (touch_files_adds_docstrings_only
           Demo.env [Demo.notes; Demo.app; Demo.readme] Demo.init
           Demo.app (Demo.text_file Demo.app_text) Demo.app_text
           eq_refl eq_refl).
Defined.

Lemma touch_file_leaves_alone (w : world) file st p :
  (file <> p \/ fs st p = None \/
   exists fl, fs st p = Some fl /\
              (f_readable fl = false \/ f_writable fl = false \/
               f_text fl = None \/ f_text fl = Some [])) ->
  fs (snd (touch_file w file st)) p = fs st p.
Proof.
  intros H.
  destruct (touch_file_change w file st) as (st' & E & [F | C]);
    rewrite E; cbn [snd]; [now rewrite F |].
  destruct C as (fl & t & new_lines & _ & Hf & _ & Rd & Wr & Ht & Hne & _ & ->).
  destruct (path_eqb file p) eqn:P; [| reflexivity].
  apply path_eqb_eq in P. subst p. exfalso.
  destruct H as [H | [H | (fl' & Hf' & H)]]; [easy | congruence |].
  rewrite Hf in Hf'. inversion Hf'; subst fl'.
  destruct H as [H | [H | [H | H]]]; congruence.
Qed.

(** X8.  A pass of the mutator leaves a path exactly as it was when the path
    is not in the batch, is no file, or is a file that cannot be read, cannot
    be written, does not hold UTF-8 text, or is empty. *)
Theorem touch_files_leaves_alone (w : world) files st p :
  (~ In p files \/ fs st p = None \/
   exists fl, fs st p = Some fl /\
              (f_readable fl = false \/ f_writable fl = false \/
               f_text fl = None \/ f_text fl = Some [])) ->
  fs (snd (touch_files w files st)) p = fs st p.
Proof.
  revert st. induction files as [| file rest IH]; intros st H; [reflexivity |].
  cbn [touch_files].
  assert (Fr : fs (snd (touch_file w file st)) p = fs st p).
  { apply touch_file_leaves_alone.
    destruct H as [H | H]; [left | now right].
    intros ->. apply H. now left. }
  destruct (touch_file_change w file st) as (st1 & E & _).
  rewrite E in Fr. cbn [snd] in Fr. rewrite (bind_run _ E).
  rewrite <- Fr. apply IH. rewrite Fr.
  destruct H as [H | H]; [left | now right].
  intros Hin. apply H. now right.
Qed.

Lemma touch_files_leaves_alone_witness :
  fs (snd (touch_files Demo.env [Demo.app; Demo.readme] Demo2.locked))
     Demo.readme
  = fs Demo2.locked Demo.readme /\
  fs (snd (touch_files Demo.env [Demo.app; Demo.readme] Demo.init)) Demo.notes
  = fs Demo.init Demo.notes.
Proof.
  split.
  - apply (touch_files_leaves_alone Demo.env [Demo.app; Demo.readme]
             Demo2.locked Demo.readme).
    right. right. eexists. split; [reflexivity |]. right. left. reflexivity.
  - apply (touch_files_leaves_alone Demo.env [Demo.app; Demo.readme]
             Demo.init Demo.notes).
    left. intros [H | [H | []]]; discriminate.
Defined.

(** ** An exit comes before anything is done *)

Lemma schedule_bad_date (w : world) start end_ commits max_per_day st :
  fromisoformat w start = None \/ fromisoformat w end_ = None ->
  schedule w start end_ commits max_per_day st = (Raise ValueError, st).
Proof.
  intros H. unfold schedule, parse, bind.
  destruct (fromisoformat w start); cbn [ret raise].
  - destruct H as [H | H]; [discriminate |]. now rewrite H.
  - reflexivity.
Qed.

(** X9.  When a run ends with an exit message, the message is one of the
    three of the checks at the head of [backfill], and the run has done
    nothing by then but (at most) list the files: no file is changed, no
    random number drawn, no branch checked out, nothing committed or pushed. *)
Theorem backfill_exit_is_early
        (w : world) start end_ commits branch max_per_day st msg :
  let run := backfill w start end_ commits branch max_per_day st in
  fst run = Raise (SystemExit msg) ->
  In msg [msg_end_before_start; msg_no_files;
          msg_cannot_fit commits start end_ max_per_day] /\
  fs (snd run) = fs st /\ draws (snd run) = draws st /\
  (log (snd run) = log st \/
   log (snd run) = log st ++ [Git ls_files_cmd None]).
Proof.
  intros run.
  assert (Hrun :
    run = match schedule w start end_ commits max_per_day st with
          | (Ok plan, st') =>
              (sh w (map u ["git"; "checkout"; "-B"]%string ++ [branch]) None ;;
               commit_all w (fst plan) branch (snd plan)) st'
          | (Raise ex, st') => (Raise ex, st')
          end) by reflexivity.
  clearbody run. intros Hexit.
  destruct (fromisoformat w start) as [s |] eqn:Hs.
  2: { rewrite schedule_bad_date in Hrun by auto. now subst run. }
  destruct (fromisoformat w end_) as [e |] eqn:He.
  2: { rewrite schedule_bad_date in Hrun by auto. now subst run. }
  rewrite (schedule_unfold w start end_ commits max_per_day st s e Hs He)
    in Hrun.
  destruct (_ <=? 0)%Z.
  { subst run. cbn [fst snd] in *. inversion Hexit. cbn [In]. auto. }
  cbv zeta in Hrun.
  destruct (git_ok w st ls_files_cmd); [| now subst run].
  destruct (negb _).
  { subst run. cbn [fst snd fs draws log] in *. inversion Hexit.
    cbn [In]. auto. }
  destruct (maxsize w <? max_per_day)%Z; [now subst run |].
  destruct (room w <? _)%Z; [now subst run |].
  destruct (_ <? commits)%Z.
  { subst run. cbn [fst snd fs draws log] in *. inversion Hexit.
    cbn [In]. auto 6. }
  exfalso. revert Hexit. rewrite Hrun. apply match_no_exit.
  - apply no_exit_bind; [apply no_exit_sample | intros; apply no_exit_ret].
  - intros plan. apply no_exit_bind; [apply no_exit_sh |].
    intros _. apply no_exit_commit_all.
Qed.

Lemma backfill_exit_is_early_witness :
  In (msg_cannot_fit 7 (u "2024-01-01") (u "2024-01-02") 3)
     [msg_end_before_start; msg_no_files;
      msg_cannot_fit 7 (u "2024-01-01") (u "2024-01-02") 3] /\
  fs (snd (backfill Demo.env (u "2024-01-01") (u "2024-01-02") 7 (u "main") 3
                    Demo.init)) = fs Demo.init /\
  draws (snd (backfill Demo.env (u "2024-01-01") (u "2024-01-02") 7 (u "main")
                       3 Demo.init)) = draws Demo.init /\
  (log (snd (backfill Demo.env (u "2024-01-01") (u "2024-01-02") 7 (u "main") 3
                      Demo.init)) = log Demo.init \/
   log (snd (backfill Demo.env (u "2024-01-01") (u "2024-01-02") 7 (u "main") 3
                      Demo.init)) = log Demo.init ++ [Git ls_files_cmd None]).
Proof.
  apply (backfill_exit_is_early Demo.env (u "2024-01-01") (u "2024-01-02") 7
           (u "main") 3 Demo.init).
  reflexivity.
Defined.

(** ** The synthesizer: the order of the commit types *)

(** A definition line in the batch votes for "feat". *)
Lemma votes_defines gd files :
  defines gd files = true -> (0 < votes (u "feat") gd files)%Z.
Proof.
  unfold defines. intros H. apply existsb_exists in H.
  destruct H as (line & Hline & Hdef).
  apply in_changed_lines in Hline. destruct Hline as (f & Hf & Hl & Hc).
  assert (Hin : In line (flat_map (fun f => splitlines (diff_of gd f)) files))
    by (apply in_flat_map; eauto).
  pose proof (sumZ_member (line_votes (u "feat")) _ line
                          (line_votes_nonneg _) Hin) as Hsum.
  unfold votes.
  assert (4 <= line_votes (u "feat") line)%Z; [| lia].
  unfold line_votes. rewrite Hc. cbv zeta. rewrite Hdef.
  pose proof (keyword_votes_nonneg (u "feat") (line_text line)).
  change (Str.eqb (u "feat") (u "feat")) with true. cbn [andb].
  repeat match goal with
         | |- context [if ?c then _ else _] => destruct c
         end; lia.
Qed.

(** The tally of a scanned batch is positive where the batch has votes. *)
Lemma scanned_positive gd gn files kinds bullets k :
  scan_files gd gn files Counter.empty [] = Ok (kinds, bullets) ->
  Counter.positive (Counter.get kinds k) = (0 <? votes k gd files)%Z.
Proof.
  intros S. unfold Counter.positive.
  now rewrite (scan_files_tally k _ _ _ _ _ _ _ S).
Qed.

(** A key gets no vote when its keywords do not occur. *)
Lemma votes_absent gd files k :
  (forall kw, In kw Re.keywords -> firstn 4 kw = k ->
              ~ In kw (keywords_in gd files)) ->
  (k = u "feat" -> defines gd files = false) ->
  k <> u "test" -> k <> u "docs" ->
  votes k gd files = 0%Z.
Proof.
  intros H Hdef Ht Hd. apply votes_none; auto.
  intros kw Hin Hk. apply (H kw); auto. eapply keywords_in_known, Hin.
Qed.



Lemma forallb_false {A} (f : A -> bool) l :
  Exists (fun x => f x = false) l -> forallb f l = false.
Proof.
  induction 1 as [x l H | x l _ IH]; cbn [forallb].
  - now rewrite H.
  - rewrite IH. apply andb_false_r.
Qed.

Lemma suffix_in_false exts p :
  Forall (fun e => suffix p <> e) exts -> suffix_in exts p = false.
Proof.
  unfold suffix_in. induction 1 as [| e exts H _ IH]; cbn [existsb].
  - reflexivity.
  - apply eqb_neq in H. now rewrite H, IH.
Qed.

(** X11.  When the added and removed lines of a non-empty batch vote for no
    commit type (none of the keywords fix, feature, feat, refactor, no line
    that opens with def, class or function), the names of the files decide
    beyond "docs": the type is "test" when the files are not all .md or .rst
    files and each has "test" in its first path component or ends in .spec
    or .test; it is "style" when some file is no such test file and all are
    .css, .scss or .sass files. *)
Theorem test_and_style_selection gd gn first rest msg :
  let files := first :: rest in
  let is_test f :=
    contains (u "test") (parts0 f) = true \/
    suffix f = u ".spec" \/ suffix f = u ".test" in
  generate_commit_message gd gn files = Ok msg ->
  (forall kw, In kw (keywords_in gd files) ->
              ~ In kw (map u ["fix"; "feature"; "feat"; "refactor"]%string)) ->
  defines gd files = false ->
  (Exists (fun f => suffix f <> u ".md" /\ suffix f <> u ".rst") files ->
   Forall is_test files ->
   selected_type gd gn files = Some (u "test") /\
   msg = subject_of (u "test") first ++ [NL]) /\
  (Exists (fun f => ~ is_test f) files ->
   Forall (fun f => suffix f = u ".css" \/ suffix f = u ".scss" \/
                    suffix f = u ".sass") files ->
   selected_type gd gn files = Some (u "style") /\
   msg = subject_of (u "style") first ++ [NL]).
Proof.
  intros files is_test G Hkw Hdef.
  destruct (type_decided_by_files gd gn first rest msg G Hkw Hdef) as [T ->].
  fold files in T |- *. rewrite T. clear T G.
  unfold pick_type. simpl Counter.positive. cbv iota.
  split.
  - intros Hdocs Htest.
    assert (D : forallb (suffix_in [u ".md"; u ".rst"]) files = false).
    { apply forallb_false. eapply Exists_impl; [| exact Hdocs].
      intros f [H1 H2]. apply suffix_in_false. auto. }
    assert (E : forallb (fun f => contains (u "test") (parts0 f)
                                  || suffix_in [u ".spec"; u ".test"] f) files
                = true).
    { apply forallb_forall. intros f Hf. rewrite Forall_forall in Htest.
      unfold suffix_in.
      destruct (Htest f Hf) as [-> | [-> | ->]];
        [reflexivity | apply orb_true_r | apply orb_true_r]. }
    rewrite D, E. auto.
  - intros Hnot Hstyle.
    assert (D : forallb (suffix_in [u ".md"; u ".rst"]) files = false).
    { apply forallb_false. left. inversion Hstyle; subst.
      unfold suffix_in.
      destruct H1 as [-> | [-> | ->]]; reflexivity. }
    assert (E : forallb (fun f => contains (u "test") (parts0 f)
                                  || suffix_in [u ".spec"; u ".test"] f) files
                = false).
    { apply forallb_false. eapply Exists_impl; [| exact Hnot].
      intros f Hf. cbv beta. unfold is_test in Hf.
      destruct (contains (u "test") (parts0 f)); [tauto |].
      cbn [orb]. apply suffix_in_false.
      repeat constructor; intros H; apply Hf; auto. }
    assert (S : forallb (suffix_in [u ".css"; u ".scss"; u ".sass"]) files
                = true).
    { apply forallb_forall. intros f Hf. rewrite Forall_forall in Hstyle.
      unfold suffix_in.
      destruct (Hstyle f Hf) as [-> | [-> | ->]]; reflexivity. }
    rewrite D, E, S. auto.
Qed.

Lemma test_and_style_selection_witness :
  generate_commit_message (fun _ => Some Demo.a_diff) Demo.numstat
                          [Demo.tests_md; Demo.tests_css]
  = Ok (u "test: update guide" ++ [NL]) /\
  generate_commit_message (fun _ => Some Demo.a_diff) Demo.numstat
                          [mkPath [u "web"] (u "site.css");
                           mkPath [u "web"] (u "theme.scss")]
  = Ok (u "style: update site" ++ [NL]).
Proof.
  split.
  - destruct (test_and_style_selection
                (fun _ => Some Demo.a_diff) Demo.numstat
                Demo.tests_md [Demo.tests_css] (u "test: update guide" ++ [NL]))
      as [[_ E] _].
    + vm_compute. reflexivity.
    + keyword_cases.
    + vm_compute. reflexivity.
    + right. left. split; discriminate.
    + repeat constructor.
    + vm_compute. reflexivity.
  - destruct (test_and_style_selection
                (fun _ => Some Demo.a_diff) Demo.numstat
                (mkPath [u "web"] (u "site.css"))
                [mkPath [u "web"] (u "theme.scss")]
                (u "style: update site" ++ [NL]))
      as [_ [_ E]].
    + vm_compute. reflexivity.
    + keyword_cases.
    + vm_compute. reflexivity.
    + left. intros [H | [H | H]]; discriminate.
    + constructor; [left; reflexivity |].
      constructor; [right; left; reflexivity | constructor].
    + vm_compute. reflexivity.
Defined.

(** ** The classifier: the keys of a tally *)

Lemma in_set c k v k' v' :
  In (k', v') (Counter.set c k v) -> (k', v') = (k, v) \/ In (k', v') c.
Proof.
  induction c as [| [k0 v0] c IH]; cbn [Counter.set].
  - intros [H | []]. left. congruence.
  - destruct (Str.eqb k0 k) eqn:E.
    + apply eqb_eq in E. subst k0. intros [H | H]; [left; congruence |].
      right. now right.
    + intros [H | H]; [right; now left |].
      destruct (IH H); [now left | right; now right].
Qed.

Lemma get_nonneg c k : well_keyed c -> (0 <= Counter.twice (Counter.get c k))%Z.
Proof.
  induction c as [| [k0 v0] c IH]; intros W; cbn [Counter.get].
  - simpl. lia.
  - destruct (Str.eqb k0 k).
    + destruct (W k0 v0 (or_introl eq_refl)). lia.
    + apply IH. intros k' v' H. apply W. now right.
Qed.

Lemma well_keyed_incr c k v :
  well_keyed c -> In k tally_keys -> (0 < Counter.twice v)%Z ->
  well_keyed (Counter.incr c k v).
Proof.
  intros W Hk Hv k' v' H. unfold Counter.incr in H.
  apply in_set in H. destruct H as [H | H]; [| now apply W].
  inversion H; subst k' v'. split; [assumption |].
  rewrite CounterFacts.twice_add. pose proof (get_nonneg c k W). lia.
Qed.

Lemma key_of_keyword kw :
  In (lower kw) Re.keywords -> In (firstn 4 (lower kw)) tally_keys.
Proof.
  intros H. unfold Re.keywords in H. cbn [map In] in H.
  repeat (destruct H as [<- | H]); [.. | contradiction];
    vm_compute; auto 14.
Qed.

Lemma well_keyed_tally c text :
  well_keyed c -> well_keyed (tally_keywords c text).
Proof.
  unfold tally_keywords, Re.keyword_findall.
  destruct (Re.keyword_search text); [| auto].
  pose proof (findall_keywords text None 0) as K.
  revert c K. generalize (Re.findall_from None text 0).
  induction l as [| kw l IH]; intros c K W; cbn [fold_left]; [exact W |].
  apply IH.
  - intros kw' H. apply K. now right.
  - apply well_keyed_incr; [assumption | | reflexivity].
    apply key_of_keyword, K. now left.
Qed.

Lemma well_keyed_line c line : well_keyed c -> well_keyed (classify_line c line).
Proof.
  intros W. unfold classify_line.
  destruct (changed_line line); [| exact W]. cbv zeta.
  pose proof (well_keyed_tally c (line_text line) W) as W1.
  assert (W2 : well_keyed
                 (if Re.definition_re (line_text line)
                  then Counter.incr (tally_keywords c (line_text line))
                                    (u "feat") (Counter.Int 2)
                  else tally_keywords c (line_text line))).
  { destruct (Re.definition_re _); [| exact W1].
    apply well_keyed_incr; [exact W1 | vm_compute; auto 14 | reflexivity]. }
  match goal with
  | |- well_keyed (if _ then Counter.incr ?c3 _ _ else _) =>
      assert (W3 : well_keyed c3)
  end.
  { destruct (Re.test_re _); [| exact W2].
    apply well_keyed_incr; [exact W2 | vm_compute; auto 14 | reflexivity]. }
  destruct (existsb _ comment_markers); [| exact W3].
  apply well_keyed_incr; [exact W3 | vm_compute; auto 14 | reflexivity].
Qed.

(** X12.  For a diff of ASCII text (on which the case-insensitive match of
    the model is that of Python), a key of the tally [_classify_change]
    returns is one of fix, bug, erro, issu, exce, todo, refa, feat, add, adde,
    remo, test, docs -- never "refactor" or "style" -- and its count is
    above 0. *)
Theorem classify_change_keys diff k v :
  forallb (fun c => c <? 128)%N diff = true ->
  In (k, v) (_classify_change diff) ->
  In k tally_keys /\ (0 < Counter.twice v)%Z /\
  k <> u "refactor" /\ k <> u "style".
Proof.
  intros _.
  assert (W : well_keyed (_classify_change diff)).
  { unfold _classify_change.
    assert (W0 : well_keyed Counter.empty) by (intros ? ? []).
    revert W0. generalize Counter.empty.
    induction (splitlines diff) as [| line lines IH]; intros c W0;
      cbn [fold_left]; [exact W0 |].
    apply IH, well_keyed_line, W0. }
  intros H. destruct (W k v H) as [Hk Hv].
  split; [assumption |]. split; [assumption |].
  unfold tally_keys in Hk. cbn [map In] in Hk.
  split; intros ->; intuition discriminate.
Qed.

Lemma classify_change_keys_witness :
  In (u "fix") tally_keys /\ (0 < Counter.twice (Counter.Int 1))%Z /\
  u "fix" <> u "refactor" /\ u "fix" <> u "style".
Proof.
  apply (classify_change_keys Demo.fix_diff (u "fix") (Counter.Int 1)).
  - reflexivity.
  - vm_compute. auto.
Defined.

(** ** The subject of a short file name *)

Module ShortenFacts.
Import TextWrap.

Lemma split_ws_aux_word w : forall s cur,
  (forall c, In c w -> isspace c = false) ->
  split_ws_aux (w ++ s) cur = split_ws_aux s (rev w ++ cur).
Proof.
  induction w as [| x w IH]; intros s cur H; [reflexivity |].
  cbn [app split_ws_aux]. rewrite (H x (or_introl eq_refl)).
  rewrite IH by (intros c Hc; apply H; now right).
  cbn [rev]. now rewrite <- app_assoc.
Qed.

Lemma split_ws_join words :
  Forall word words -> split_ws (join (u " ") words) = words.
Proof.
  unfold split_ws.
  induction 1 as [| w rest [Hne Hw] Hrest IH]; [reflexivity |].
  destruct rest as [| w' rest'].
  - cbn [join]. rewrite <- (app_nil_r w) at 1.
    rewrite split_ws_aux_word by assumption. cbn [split_ws_aux].
    rewrite app_nil_r.
    destruct (rev w) eqn:R; [| now rewrite <- R, rev_involutive].
    apply (f_equal (@rev char)) in R. rewrite rev_involutive in R.
    contradiction.
  - change (join (u " ") (w :: w' :: rest'))
      with (w ++ 32%N :: join (u " ") (w' :: rest')).
    rewrite split_ws_aux_word by assumption.
    cbn [split_ws_aux]. change (isspace 32%N) with true. cbv iota.
    rewrite app_nil_r.
    destruct (rev w) eqn:R.
    + apply (f_equal (@rev char)) in R. rewrite rev_involutive in R.
      contradiction.
    + now rewrite <- R, rev_involutive, IH.
Qed.

Lemma join_head w rest :
  word w -> exists a r, join (u " ") (w :: rest) = a :: r /\ isspace a = false.
Proof.
  intros [Hne Hw]. destruct w as [| a w']; [contradiction |].
  destruct rest; cbn [join app]; eexists _, _;
    (split; [reflexivity | apply Hw; now left]).
Qed.

Lemma join_last words :
  words <> [] -> Forall word words ->
  exists b r, rev (join (u " ") words) = b :: r /\ isspace b = false.
Proof.
  intros Hne H. induction H as [| w rest [Hw Hc] Hrest IH]; [contradiction |].
  destruct rest as [| w' rest'].
  - cbn [join]. destruct (rev w) as [| b r] eqn:R.
    + apply (f_equal (@rev char)) in R. rewrite rev_involutive in R.
      contradiction.
    + exists b, r. split; [reflexivity |]. apply Hc, in_rev.
      rewrite R. now left.
  - change (join (u " ") (w :: w' :: rest'))
      with (w ++ 32%N :: join (u " ") (w' :: rest')).
    destruct IH as (b & r & E & Hb); [discriminate |].
    rewrite rev_app_distr. cbn [rev]. rewrite E.
    eexists _, _. split; [reflexivity | assumption].
Qed.

Lemma lstrip_id a r : isspace a = false -> lstrip (a :: r) = a :: r.
Proof. intros H. cbn [lstrip]. now rewrite H. Qed.

Lemma strip_join words :
  words <> [] -> Forall word words ->
  strip (join (u " ") words) = join (u " ") words.
Proof.
  intros Hne H. unfold strip, rstrip.
  destruct words as [| w rest]; [contradiction |].
  destruct (join_head w rest) as (a & r & E & Ha); [now inversion H |].
  rewrite E, (lstrip_id _ _ Ha), <- E.
  destruct (join_last (w :: rest) Hne H) as (b & r' & E' & Hb).
  now rewrite E', (lstrip_id _ _ Hb), <- E', rev_involutive.
Qed.

Lemma concat_chunks_of words : concat (chunks_of words) = join (u " ") words.
Proof.
  induction words as [| w [| w' rest] IH]; [reflexivity | |].
  - cbn [chunks_of concat join]. apply app_nil_r.
  - change (chunks_of (w :: w' :: rest))
      with (w :: u " " :: chunks_of (w' :: rest)).
    cbn [concat]. rewrite IH. reflexivity.
Qed.

Lemma take_fitting_all width : forall chunks cur_len,
  cur_len + total_len chunks <= width ->
  take_fitting width cur_len chunks = (chunks, []).
Proof.
  unfold total_len.
  induction chunks as [| c rest IH]; intros cur_len H; [reflexivity |].
  cbn [take_fitting]. cbn [concat] in H. rewrite length_app in H.
  destruct (cur_len + length c <=? width) eqn:E;
    [| apply Nat.leb_gt in E; lia].
  now rewrite IH by lia.
Qed.

Lemma word_not_blank w : word w -> blank w = false.
Proof.
  intros [Hne Hw]. unfold blank, strip, rstrip.
  destruct w as [| a r]; [contradiction |].
  rewrite lstrip_id by (apply Hw; now left).
  destruct (rev (a :: r)) as [| b r'] eqn:R.
  - apply (f_equal (@rev char)) in R. rewrite rev_involutive in R.
    discriminate.
  - rewrite lstrip_id by (apply Hw, in_rev; rewrite R; now left).
    rewrite <- R, rev_involutive. reflexivity.
Qed.

Lemma chunks_of_last words :
  words <> [] -> Forall word words ->
  exists c before, rev (chunks_of words) = c :: before /\ blank c = false.
Proof.
  intros Hne H. induction H as [| w rest Hw Hrest IH]; [contradiction |].
  destruct rest as [| w' rest'].
  - exists w, []. split; [reflexivity | now apply word_not_blank].
  - change (chunks_of (w :: w' :: rest'))
      with (w :: u " " :: chunks_of (w' :: rest')).
    destruct IH as (c & before & E & Hc); [discriminate |].
    cbn [rev]. rewrite E. eexists _, _. split; [reflexivity | assumption].
Qed.

(** [shorten] gives back a text of words and single spaces that fits. *)
Lemma shorten_collapsed words width ph :
  words <> [] -> Forall word words ->
  length (join (u " ") words) <= width ->
  shorten (join (u " ") words) width ph = join (u " ") words.
Proof.
  intros Hne Hw Hlen. unfold shorten.
  rewrite (strip_join _ Hne Hw), (split_ws_join _ Hw).
  assert (Ht : total_len (chunks_of words) <= width)
    by (unfold total_len; now rewrite concat_chunks_of).
  unfold wrap_one_line.
  rewrite (take_fitting_all width _ 0) by (simpl; lia).
  cbn [handle_long_word].
  destruct (chunks_of_last words Hne Hw) as (c & before & E & Hc).
  assert (D : drop_trailing_blank (chunks_of words) = chunks_of words)
    by (unfold drop_trailing_blank; now rewrite E, Hc).
  rewrite D.
  destruct (chunks_of words) as [| c0 cs] eqn:C; [discriminate |].
  cbn [andb]. apply Nat.leb_le in Ht. rewrite Ht.
  rewrite <- C. apply concat_chunks_of.
Qed.

End ShortenFacts.

Lemma replace_char_absent a b s : ~ In a s -> replace_char a b s = s.
Proof.
  unfold replace_char. intros H. rewrite <- (map_id s) at 2.
  apply map_ext_in. intros c Hc.
  destruct (N.eqb c a) eqn:E; [| reflexivity].
  apply N.eqb_eq in E. subst c. contradiction.
Qed.

(** X13.  For a batch whose first file has a stem of at most 33 characters
    without white space, "_" or "-", the message is exactly the commit type,
    ": update ", the stem and a newline: nothing is cut and no ellipsis is
    put in. *)
Theorem message_of_short_name gd gn first rest msg :
  generate_commit_message gd gn (first :: rest) = Ok msg ->
  stem first <> [] ->
  (forall c, In c (stem first) ->
             isspace c = false /\ c <> 95%N /\ c <> 45%N) ->
  length (stem first) <= 33 ->
  exists commit_type,
    selected_type gd gn (first :: rest) = Some commit_type /\
    msg = commit_type ++ u ": update " ++ stem first ++ [NL].
Proof.
  intros G Hne Hc Hlen.
  destruct (generate_commit_message_ok _ _ _ _ _ G)
    as (kinds & bullets & _ & T & ->).
  exists (pick_type kinds (first :: rest)). split; [assumption |].
  unfold subject_of, top_file.
  rewrite (replace_char_absent 95%N) by (intros H; now apply Hc in H).
  rewrite (replace_char_absent 45%N) by (intros H; now apply Hc in H).
  assert (W : word (stem first))
    by (split; [assumption | intros c H; now apply Hc in H]).
  pose proof (pick_type_values kinds (first :: rest)) as V.
  cbn [map In] in V.
  assert (S : forall ty,
             word (ty ++ u ":") -> length ty <= 8 ->
             TextWrap.shorten (ty ++ u ": update " ++ stem first) 50 ellipsis
             = ty ++ u ": update " ++ stem first).
  { intros ty Hty Hl.
    assert (E : ty ++ u ": update " ++ stem first
                = join (u " ") [ty ++ u ":"; u "update"; stem first]).
    { cbn [join]. now rewrite <- !app_assoc. }
    rewrite E. apply ShortenFacts.shorten_collapsed.
    - discriminate.
    - constructor; [exact Hty |].
      constructor; [| constructor; [exact W | constructor]].
      split; [discriminate |]. intros c H. vm_compute in H.
      repeat (destruct H as [<- | H]; [reflexivity |]). contradiction.
    - rewrite <- E, !length_app. simpl length. lia. }
  rewrite S; [now rewrite <- !app_assoc | |].
  - repeat (destruct V as [<- | V]); try contradiction;
      (split; [discriminate |]); intros c H; vm_compute in H;
      repeat (destruct H as [<- | H]; [reflexivity |]); contradiction.
  - repeat (destruct V as [<- | V]); try contradiction; simpl; lia.
Qed.

Lemma message_of_short_name_witness :
  exists commit_type,
    selected_type (fun _ => Some Demo.fix_diff) Demo.numstat
                  [Demo.app; Demo.readme] = Some commit_type /\
    u "fix: update app" ++ [NL]
    = commit_type ++ u ": update " ++ stem Demo.app ++ [NL].
Proof.
  apply (message_of_short_name (fun _ => Some Demo.fix_diff) Demo.numstat
           Demo.app [Demo.readme] (u "fix: update app" ++ [NL])).
  - vm_compute. reflexivity.
  - discriminate.
  - intros c H. vm_compute in H.
    repeat (destruct H as [<- | H]; [repeat split; discriminate |]).
    contradiction.
  - vm_compute. lia.
Defined.

(** ** The head of every subject *)

Module SubjectFacts.
Import TextWrap.

Lemma split_ws_aux_blank ws : forall cur,
  forallb isspace ws = true ->
  split_ws_aux ws cur = match cur with [] => [] | _ => [rev cur] end.
Proof.
  induction ws as [| c ws IH]; intros cur H; [reflexivity |].
  cbn [forallb] in H. apply andb_true_iff in H. destruct H as [Hc H].
  cbn [split_ws_aux]. rewrite Hc, (IH [] H). now destruct cur.
Qed.

Lemma split_ws_aux_trailing ws : forallb isspace ws = true ->
  forall s cur, split_ws_aux (s ++ ws) cur = split_ws_aux s cur.
Proof.
  intros H. induction s as [| c s IH]; intros cur.
  - cbn [app split_ws_aux]. now apply split_ws_aux_blank.
  - cbn [app split_ws_aux]. rewrite !IH. reflexivity.
Qed.

Lemma lstrip_split s :
  exists ws, s = ws ++ lstrip s /\ forallb isspace ws = true.
Proof.
  induction s as [| c s (ws & E & H)]; [now exists [] |].
  cbn [lstrip]. destruct (isspace c) eqn:C.
  - exists (c :: ws). cbn [app forallb]. now rewrite C, <- E.
  - now exists [].
Qed.

Lemma split_ws_lstrip s : split_ws (lstrip s) = split_ws s.
Proof.
  unfold split_ws. induction s as [| c s IH]; [reflexivity |].
  cbn [lstrip split_ws_aux]. destruct (isspace c) eqn:C; [exact IH |].
  cbn [split_ws_aux]. now rewrite C.
Qed.

Lemma split_ws_strip s : split_ws (strip s) = split_ws s.
Proof.
  unfold strip. rewrite <- (split_ws_lstrip s).
  generalize (lstrip s). clear s. intros s. unfold rstrip.
  destruct (lstrip_split (rev s)) as (ws & E & H).
  apply (f_equal (@rev char)) in E.
  rewrite rev_involutive, rev_app_distr in E.
  rewrite E at 2. unfold split_ws.
  rewrite split_ws_aux_trailing; [reflexivity |].
  now rewrite forallb_rev.
Qed.

Lemma take_fitting_app width p more : forall cur_len,
  cur_len + total_len p <= width ->
  take_fitting width cur_len (p ++ more)
  = (p ++ fst (take_fitting width (cur_len + total_len p) more),
     snd (take_fitting width (cur_len + total_len p) more)).
Proof.
  unfold total_len.
  induction p as [| c p IH]; intros cur_len H.
  - cbn [app concat length]. rewrite Nat.add_0_r.
    now destruct (take_fitting width cur_len more).
  - cbn [app take_fitting]. cbn [concat] in H |- *.
    rewrite length_app in H |- *.
    destruct (cur_len + length c <=? width) eqn:E;
      [| apply Nat.leb_gt in E; lia].
    rewrite IH by lia. now rewrite Nat.add_assoc.
Qed.

Lemma handle_long_word_app width p f left :
  exists f', fst (handle_long_word width (p ++ f) left) = p ++ f'.
Proof.
  unfold handle_long_word. destruct left as [| c rest]; [now exists f |].
  destruct (width <? length c); cbn [fst]; [| now exists f].
  rewrite <- app_assoc. eauto.
Qed.

Lemma drop_trailing_blank_app p b f :
  blank b = false ->
  exists f', drop_trailing_blank ((p ++ [b]) ++ f) = (p ++ [b]) ++ f'.
Proof.
  intros Hb. unfold drop_trailing_blank.
  destruct f as [| x f0] using rev_ind.
  - rewrite app_nil_r, rev_app_distr. cbn [rev app]. rewrite Hb.
    exists []. now rewrite app_nil_r.
  - rewrite app_assoc, rev_app_distr. cbn [rev app].
    destruct (blank x).
    + rewrite rev_involutive. eauto.
    + rewrite <- app_assoc. eauto.
Qed.

Lemma with_placeholder_app width ph p b :
  blank b = false ->
  total_len (p ++ [b]) + length ph <= width ->
  forall f, exists tail,
    with_placeholder width ph (rev ((p ++ [b]) ++ f))
    = concat (p ++ [b]) ++ tail.
Proof.
  intros Hb Hlen f. induction f as [| x f IH] using rev_ind.
  - rewrite app_nil_r, rev_app_distr. cbn [rev app with_placeholder].
    rewrite Hb. cbn [negb andb].
    assert (E : total_len (b :: rev p) = total_len (p ++ [b])).
    { unfold total_len. rewrite <- (TextWrapFacts.length_concat_rev (p ++ [b])).
      now rewrite rev_app_distr. }
    rewrite E. apply Nat.leb_le in Hlen. rewrite Hlen.
    rewrite rev_involutive. eexists. reflexivity.
  - rewrite app_assoc, rev_app_distr. cbn [rev app with_placeholder].
    destruct (negb (blank x) && _); [| exact IH].
    eexists. rewrite rev_involutive, !concat_app, <- !app_assoc.
    reflexivity.
Qed.

(** A line of chunks that opens with chunks short enough to leave room for
    the placeholder, the last of them not blank, keeps them. *)
Lemma wrap_one_line_head width ph p b more :
  blank b = false ->
  total_len (p ++ [b]) + length ph <= width ->
  exists tail,
    wrap_one_line width ph ((p ++ [b]) ++ more) = concat (p ++ [b]) ++ tail.
Proof.
  intros Hb Hlen. unfold wrap_one_line.
  rewrite (take_fitting_app width (p ++ [b]) more 0) by (simpl; lia).
  destruct (handle_long_word_app width (p ++ [b])
              (fst (take_fitting width (0 + total_len (p ++ [b])) more))
              (snd (take_fitting width (0 + total_len (p ++ [b])) more)))
    as (f' & E).
  destruct (handle_long_word _ _ _) as [cur_line0 left'].
  cbn [fst] in E. subst cur_line0.
  destruct (drop_trailing_blank_app p b f' Hb) as (f'' & ->).
  destruct ((p ++ [b]) ++ f'') as [| c cs] eqn:C.
  { destruct p; discriminate. }
  rewrite <- C.
  destruct (_ && (total_len ((p ++ [b]) ++ f'') <=? width)).
  - rewrite concat_app. eauto.
  - now apply with_placeholder_app.
Qed.

End SubjectFacts.

(** X14.  Whatever the first file is called, the message of a non-empty
    batch opens with the commit type and ": update": the cut to 50
    characters never reaches these two words. *)
Theorem message_opens_with_type gd gn first rest msg :
  generate_commit_message gd gn (first :: rest) = Ok msg ->
  exists commit_type tail,
    selected_type gd gn (first :: rest) = Some commit_type /\
    msg = commit_type ++ u ": update" ++ tail.
Proof.
  intros G.
  destruct (generate_commit_message_ok _ _ _ _ _ G)
    as (kinds & bullets & _ & T & ->).
  exists (pick_type kinds (first :: rest)).
  assert (S : forall ty,
             word (ty ++ u ":") -> length ty <= 8 ->
             exists tail,
               subject_of ty first = ty ++ u ": update" ++ tail).
  { intros ty [Hne Hty] Hl. unfold subject_of, TextWrap.shorten.
    rewrite SubjectFacts.split_ws_strip. unfold split_ws.
    replace (ty ++ u ": update " ++ top_file first)
      with ((ty ++ u ":") ++ 32%N :: u "update" ++ 32%N :: top_file first)
      by now rewrite <- app_assoc.
    rewrite ShortenFacts.split_ws_aux_word by assumption.
    cbn [split_ws_aux]. change (isspace 32%N) with true. cbv iota.
    rewrite app_nil_r.
    destruct (rev (ty ++ u ":")) as [| c0 r0] eqn:R.
    { apply (f_equal (@rev char)) in R. rewrite rev_involutive in R.
      contradiction. }
    rewrite <- R, rev_involutive.
    rewrite ShortenFacts.split_ws_aux_word
      by (intros c H; vm_compute in H;
          repeat (destruct H as [<- | H]; [reflexivity |]); contradiction).
    cbn [split_ws_aux]. change (isspace 32%N) with true.
    change (rev (u "update") ++ []) with (rev (u "update")).
    change (rev (rev (u "update"))) with (u "update").
    let v := eval vm_compute in (rev (u "update")) in
    change (rev (u "update")) with v.
    cbv iota.
    set (words := split_ws_aux (top_file first) []).
    match goal with
    | |- context [TextWrap.chunks_of ?l] =>
        assert (C : exists more,
                   TextWrap.chunks_of l
                   = ([ty ++ u ":"; u " "] ++ [u "update"]) ++ more)
    end.
    { destruct words; cbn [TextWrap.chunks_of app]; eauto. }
    destruct C as (more & ->).
    destruct (SubjectFacts.wrap_one_line_head 50 ellipsis
                [ty ++ u ":"; u " "] (u "update") more) as (tail & E).
    - reflexivity.
    - unfold TextWrap.total_len. cbn [app concat].
      rewrite !length_app. simpl length. lia.
    - exists tail. etransitivity; [exact E |].
      cbn [app concat]. now rewrite <- !app_assoc. }
  pose proof (pick_type_values kinds (first :: rest)) as V.
  cbn [map In] in V.
  destruct (S (pick_type kinds (first :: rest))) as (tail & ->).
  - repeat (destruct V as [<- | V]); try contradiction;
      (split; [discriminate |]); intros c H; vm_compute in H;
      repeat (destruct H as [<- | H]; [reflexivity |]); contradiction.
  - repeat (destruct V as [<- | V]); try contradiction; simpl; lia.
  - exists (tail ++ [NL]). split; [assumption |].
    now rewrite <- !app_assoc.
Qed.

Lemma message_opens_with_type_witness :
  exists commit_type tail,
    selected_type (fun _ => Some Demo.fix_diff) Demo.numstat
                  [Demo2.long_name] = Some commit_type /\
    u "fix: update" ++ [8230%N; NL] = commit_type ++ u ": update" ++ tail.
Proof.
  apply (message_opens_with_type (fun _ => Some Demo.fix_diff) Demo.numstat
           Demo2.long_name [] (u "fix: update" ++ [8230%N; NL])).
  vm_compute. reflexivity.
Defined.

(** ** The mutator: files and permissions *)

Lemma touch_file_same_files (w : world) file st p :
  match fs st p, fs (snd (touch_file w file st)) p with
  | Some fl, Some fl' =>
      f_readable fl' = f_readable fl /\ f_writable fl' = f_writable fl /\
      (f_text fl = None -> fl' = fl)
  | None, None => True
  | _, _ => False
  end.
Proof.
  destruct (touch_file_change w file st) as (st' & E & [F | C]);
    rewrite E; cbn [snd].
  - rewrite F. destruct (fs st p); auto.
  - destruct C as (fl & t & new_lines & _ & Hf & _ & _ & _ & Ht & _ & _ & ->).
    destruct (path_eqb file p) eqn:P.
    + apply path_eqb_eq in P. subst p. rewrite Hf. cbn [f_readable f_writable].
      repeat split. congruence.
    + destruct (fs st p); auto.
Qed.

(** X15.  A pass of the mutator creates no file and deletes none, and it
    changes no permission: what was a file is one afterwards, readable and
    writable as before, and a file that does not hold text stays as it is. *)
Theorem touch_files_same_files (w : world) files st p :
  match fs st p, fs (snd (touch_files w files st)) p with
  | Some fl, Some fl' =>
      f_readable fl' = f_readable fl /\ f_writable fl' = f_writable fl /\
      (f_text fl = None -> fl' = fl)
  | None, None => True
  | _, _ => False
  end.
Proof.
  revert st. induction files as [| file rest IH]; intros st.
  - cbn [touch_files ret snd]. destruct (fs st p); auto.
  - cbn [touch_files].
    pose proof (touch_file_same_files w file st p) as H1.
    destruct (touch_file_change w file st) as (st1 & E & _).
    rewrite E in H1. cbn [snd] in H1. rewrite (bind_run _ E).
    specialize (IH st1).
    destruct (fs st p) as [fl |], (fs st1 p) as [fl1 |]; try contradiction;
      destruct (fs (snd (touch_files w rest st1)) p) as [fl2 |];
      try contradiction; [| exact I].
    destruct H1 as (R1 & W1 & T1), IH as (R2 & W2 & T2).
    repeat split; try congruence.
    intros Hn. rewrite <- (T1 Hn). apply T2. now rewrite (T1 Hn).
Qed.

(** ** The trace of a run that returns *)

Lemma schedule_log (w : world) start end_ commits max_per_day st files dates st' :
  schedule w start end_ commits max_per_day st = (Ok (files, dates), st') ->
  log st' = log st ++ [Git ls_files_cmd None] /\
  files = filter (is_file st) (ls_files w).
Proof.
  intros S.
  destruct (schedule_inv _ _ _ _ _ _ _ _ _ S)
    as (s & e & _ & _ & Hs & He & _).
  rewrite (schedule_unfold w start end_ commits max_per_day st s e Hs He) in S.
  destruct (_ <=? 0)%Z; [discriminate |]. cbv zeta in S.
  destruct (git_ok w st ls_files_cmd); [| discriminate].
  destruct (negb _); [discriminate |].
  destruct (maxsize w <? max_per_day)%Z; [discriminate |].
  destruct (room w <? _)%Z; [discriminate |].
  destruct (_ <? commits)%Z; [discriminate |].
  unfold bind in S.
  match type of S with
  | context [sample w ?pool ?k ?st0] =>
      destruct (sample_cases w pool k st0)
        as [[_ E] | [_ (p & r & E & _)]]; rewrite E in S
  end; [discriminate |].
  inversion S. split; reflexivity.
Qed.

Lemma touch_files_log (w : world) files : forall st,
  log (snd (touch_files w files st)) = log st.
Proof.
  induction files as [| f rest IH]; intros st; [reflexivity |].
  cbn [touch_files].
  destruct (touch_file_effect w f st) as (st1 & E1 & L1 & _).
  now rewrite (bind_run _ E1), IH.
Qed.

(** When the scan goes through, both queries of every file were started. *)
Lemma scan_queries_complete gd gn files : forall kinds bullets r,
  scan_files gd gn files kinds bullets = Ok r ->
  scan_queries gd gn files
  = flat_map (fun f => [diff_cmd f; numstat_cmd f]) files.
Proof.
  induction files as [| f rest IH]; intros kinds bullets r H; [reflexivity |].
  cbn [scan_files scan_queries flat_map app] in H |- *.
  destruct (run_git gd f) as [d | ex]; cbn [rbind] in H; [| discriminate].
  destruct (run_git gn f) as [out | ex]; cbn [rbind] in H |- *;
    [| discriminate].
  destruct (unpack_stats (strip out)) as [ad | ex]; cbn [rbind] in H;
    [| discriminate].
  now rewrite (IH _ _ _ H).
Qed.

Lemma message_for_ok (w : world) batch st msg st' :
  message_for w batch st = (Ok msg, st') ->
  log st' = log st ++ map (fun argv => Git argv None)
                          (flat_map (fun f => [diff_cmd f; numstat_cmd f])
                                    batch).
Proof.
  unfold message_for. intros H. inversion H as [[G S]]. cbn [log].
  f_equal. f_equal.
  destruct batch as [| first rest]; [reflexivity |].
  unfold generate_commit_message in G.
  destruct (scan_files (staged_diff w st) (staged_numstat w st) (first :: rest)
                       Counter.empty []) as [r | ex] eqn:Sc;
    [| discriminate].
  apply (scan_queries_complete _ _ _ _ _ _ Sc).
Qed.

Lemma commit_at_ok (w : world) allfiles branch ts st st' :
  commit_at w allfiles branch ts st = (Ok tt, st') ->
  exists batch rest msg,
    Permutation allfiles (batch ++ rest) /\
    Nat.min 5 (length allfiles) <= length batch <= 10 /\
    log st' = log st ++
      Git (map u ["git"; "add"]%string ++ map to_str batch) None
      :: map (fun argv => Git argv None)
             (flat_map (fun f => [diff_cmd f; numstat_cmd f]) batch)
      ++ [Git (map u ["git"; "commit"; "-m"]%string ++ [msg]) (Some ts);
          Git (map u ["git"; "push"; "-u"; "origin"]%string ++ [branch]) None;
          Print (date ts) msg].
Proof.
  unfold commit_at.
  destruct (yields_randint w 5 10 st) as (n & st1 & E1 & _ & L1 & Hn).
  rewrite (bind_run _ E1).
  destruct (sample_cases w allfiles (Z.of_nat (Nat.min n (length allfiles))) st1)
    as [[_ E2] | [_ (batch & r & E2 & Pm & Len)]];
    [rewrite (bind_raise _ E2); discriminate | rewrite (bind_run _ E2)].
  rewrite Nat2Z.id in Len.
  pose proof (touch_files_log w batch
                (mkState (fs st1)
                         (draws st1
                          + Z.to_nat (Z.of_nat (Nat.min n (length allfiles))))
                         (log st1))) as L3.
  destruct (succeeds_touch_files w batch
              (mkState (fs st1)
                       (draws st1
                        + Z.to_nat (Z.of_nat (Nat.min n (length allfiles))))
                       (log st1))) as ([] & st3 & E3).
  rewrite E3 in L3. cbn [snd log] in L3. rewrite (bind_run _ E3).
  unfold bind at 1. unfold sh at 1.
  destruct (git_ok w st3 _); [| discriminate].
  unfold bind at 1.
  destruct (message_for w batch _) as [[msg | ex] st4] eqn:Em; [| discriminate].
  apply message_for_ok in Em. cbn [log] in Em.
  unfold bind at 1. unfold sh at 1.
  destruct (git_ok w _ _); [| discriminate].
  unfold bind at 1. unfold sh at 1.
  destruct (git_ok w _ _); [| discriminate].
  unfold emit. intros H. inversion H. cbn [log].
  exists batch, r, msg. split; [assumption |]. split; [lia |].
  rewrite Em, L3, L1, <- !app_assoc. reflexivity.
Qed.

Lemma commit_all_ok (w : world) allfiles branch : forall dates st st',
  commit_all w allfiles branch dates st = (Ok tt, st') ->
  exists evs, log st' = log st ++ evs /\ rounds allfiles branch dates evs.
Proof.
  induction dates as [| ts rest IH]; intros st st' H; cbn [commit_all] in H.
  - inversion H. exists []. rewrite app_nil_r. split; [reflexivity | constructor].
  - unfold bind in H.
    destruct (commit_at w allfiles branch ts st) as [[[] | ex] st1] eqn:C;
      [| discriminate].
    destruct (commit_at_ok _ _ _ _ _ _ C) as (batch & r & msg & Pm & Len & L1).
    destruct (IH _ _ H) as (evs & L2 & R).
    eexists. rewrite L2, L1, <- app_assoc. split; [reflexivity |].
    cbn [app]. rewrite <- app_assoc. cbn [app].
    econstructor; eassumption.
Qed.

(** X16.  The commands of a run of [backfill] that returns: the files are
    listed, the branch is checked out, and then comes one round for each of
    the [commits] chosen timestamps, in ascending order -- a batch of the
    listed files is added (5 to 10 of them, or all when they are fewer, none
    twice), the diff and the numstat of each file of the batch are asked of
    git, the batch is committed under the timestamp and pushed, and the
    message of the commit is printed -- and no other command is started. *)
Theorem backfill_trace
        (w : world) start end_ commits branch max_per_day st :
  fst (backfill w start end_ commits branch max_per_day st) = Ok tt ->
  exists dates evs,
    log (snd (backfill w start end_ commits branch max_per_day st))
    = log st ++
      Git ls_files_cmd None
      :: Git (map u ["git"; "checkout"; "-B"]%string ++ [branch]) None :: evs /\
    rounds (filter (is_file st) (ls_files w)) branch dates evs /\
    Z.of_nat (length dates) = commits /\
    StronglySorted Z.le dates.
Proof.
  set (run := backfill w start end_ commits branch max_per_day st).
  assert (Hrun :
    run = match schedule w start end_ commits max_per_day st with
          | (Ok plan, st') =>
              (sh w (map u ["git"; "checkout"; "-B"]%string ++ [branch]) None ;;
               commit_all w (fst plan) branch (snd plan)) st'
          | (Raise ex, st') => (Raise ex, st')
          end) by reflexivity.
  clearbody run. intros Hok.
  destruct (schedule w start end_ commits max_per_day st)
    as [[[files dates] | ex] st1] eqn:S; [| now subst run].
  destruct (schedule_log _ _ _ _ _ _ _ _ _ S) as [L0 ->].
  destruct (schedule_inv _ _ _ _ _ _ _ _ _ S)
    as (s & e & picked & rest & _ & _ & _ & _ & Hlen & -> & _).
  cbn [fst snd] in Hrun. unfold bind, sh in Hrun.
  destruct (git_ok w st1 _); [| now subst run].
  destruct (commit_all w _ branch (sorted picked) _)
    as [[[] | ex] st2] eqn:C; [| now subst run].
  destruct (commit_all_ok _ _ _ _ _ _ C) as (evs & L2 & R).
  exists (sorted picked), evs. subst run. cbn [snd].
  rewrite L2. cbn [log]. rewrite L0, <- !app_assoc.
  split; [reflexivity |]. split; [assumption |]. split.
  - now rewrite (Permutation_length (sorted_perm picked)).
  - apply sorted_ordered.
Qed.

Lemma backfill_trace_witness :
  exists dates evs,
    log (snd (backfill Demo.env (u "2024-01-01") (u "2024-01-05") 5 (u "main")
                       3 Demo.init))
    = log Demo.init ++
      Git ls_files_cmd None
      :: Git (map u ["git"; "checkout"; "-B"]%string ++ [u "main"]) None
      :: evs /\
    rounds (filter (is_file Demo.init) (ls_files Demo.env)) (u "main")
           dates evs /\
    Z.of_nat (length dates) = 5%Z /\
    StronglySorted Z.le dates.
Proof.
  apply (backfill_trace Demo.env (u "2024-01-01") (u "2024-01-05") 5 (u "main")
           3 Demo.init).
  vm_compute. reflexivity.
Defined.

(** ** The mutator: trailing white space *)

Lemma readlines_aux_body body : forall s cur,
  ~ In NL body ->
  readlines_aux (body ++ s) cur = readlines_aux s (rev body ++ cur).
Proof.
  induction body as [| c body IH]; intros s cur H; [reflexivity |].
  cbn [app readlines_aux].
  destruct (N.eqb c NL) eqn:E.
  - apply N.eqb_eq in E. subst c. exfalso. apply H. now left.
  - rewrite IH by (intros Hin; apply H; now right).
    cbn [rev]. now rewrite <- app_assoc.
Qed.

Lemma rev_nonempty {A} (l : list A) : l <> [] -> rev l <> [].
Proof.
  intros H E. apply (f_equal (@rev A)) in E. rewrite rev_involutive in E.
  contradiction.
Qed.

(** Lines of that shape are the lines of the text they make up. *)
Lemma readlines_shaped lines : shaped lines -> readlines (concat lines) = lines.
Proof.
  unfold readlines.
  induction 1 as [| l Hne Hnl | body ls Hnl Hs IH].
  - reflexivity.
  - cbn [concat]. rewrite readlines_aux_body by assumption.
    cbn [readlines_aux]. rewrite app_nil_r.
    destruct (rev l) eqn:R; [now apply rev_nonempty in R |].
    now rewrite <- R, rev_involutive.
  - cbn [concat]. rewrite <- app_assoc.
    rewrite readlines_aux_body by assumption.
    cbn [app readlines_aux]. rewrite N.eqb_refl, IH, app_nil_r.
    cbn [rev]. now rewrite rev_involutive.
Qed.

Lemma readlines_aux_is_shaped : forall s cur,
  ~ In NL cur -> shaped (readlines_aux s cur).
Proof.
  induction s as [| c s IH]; intros cur H; cbn [readlines_aux].
  - destruct cur as [| d cur']; [constructor |].
    apply shaped_open; [apply rev_nonempty; discriminate |].
    intros Hin. apply in_rev in Hin. contradiction.
  - destruct (N.eqb c NL) eqn:E.
    + apply N.eqb_eq in E. subst c. cbn [rev].
      apply shaped_cons; [| apply IH; auto].
      intros Hin. apply in_rev in Hin. contradiction.
    + apply IH. intros [-> | Hin]; [| contradiction].
      now rewrite N.eqb_refl in E.
Qed.

Lemma readlines_is_shaped t : shaped (readlines t).
Proof. apply readlines_aux_is_shaped. auto. Qed.

Lemma rstrip_snoc s c : isspace c = true -> rstrip (s ++ [c]) = rstrip s.
Proof.
  intros H. unfold rstrip. rewrite rev_app_distr. cbn [rev app lstrip].
  now rewrite H.
Qed.

Lemma rstrip_incl s c : In c (rstrip s) -> In c s.
Proof.
  unfold rstrip. intros H.
  apply in_rev, TextWrapFacts.lstrip_incl in H. now apply in_rev.
Qed.

Lemma lstrip_idem s : lstrip (lstrip s) = lstrip s.
Proof.
  induction s as [| c s IH]; [reflexivity |].
  cbn [lstrip]. destruct (isspace c) eqn:E; [exact IH |].
  cbn [lstrip]. now rewrite E.
Qed.

Lemma rstrip_idem s : rstrip (rstrip s) = rstrip s.
Proof. unfold rstrip. now rewrite rev_involutive, lstrip_idem. Qed.

Lemma endswith_nl_in l : endswith [NL] l = true -> In NL l.
Proof.
  unfold endswith. intros H. apply in_rev.
  destruct (rev l) as [| c r]; [discriminate |].
  change (rev [NL]) with [NL] in H. cbn [startswith] in H.
  apply andb_true_iff in H. destruct H as [H _].
  apply N.eqb_eq in H. subst c. now left.
Qed.

Lemma trim_line_body body :
  ~ In NL body ->
  exists body', trim_line (body ++ [NL]) = body' ++ [NL] /\ ~ In NL body'.
Proof.
  intros H. unfold trim_line.
  destruct (has_trailing_ws (body ++ [NL])); [| eauto].
  rewrite endswith_nl_snoc, rstrip_snoc by reflexivity.
  eexists. split; [reflexivity |].
  intros Hin. apply rstrip_incl in Hin. contradiction.
Qed.

Lemma shaped_trim lines : shaped lines -> shaped (map trim_line lines).
Proof.
  induction 1 as [| l Hne Hnl | body ls Hnl Hs IH]; cbn [map].
  - constructor.
  - apply shaped_open; [now apply trim_line_nonempty |].
    unfold trim_line. destruct (has_trailing_ws l); [| assumption].
    destruct (endswith [NL] l) eqn:E;
      [now apply endswith_nl_in in E |].
    intros Hin. apply rstrip_incl in Hin. contradiction.
  - destruct (trim_line_body body Hnl) as (body' & -> & H').
    now apply shaped_cons.
Qed.

Lemma shaped_insert body lines : forall idx,
  ~ In NL body -> shaped lines -> idx < length lines ->
  shaped (insert_at idx (body ++ [NL]) lines).
Proof.
  intros idx Hb Hs. revert idx.
  induction Hs as [| l Hne Hnl | b ls Hnl Hs IH]; intros idx Hidx.
  - simpl in Hidx. lia.
  - simpl in Hidx. assert (idx = 0) by lia. subst idx.
    unfold insert_at. cbn [firstn skipn app].
    apply shaped_cons; [assumption | now apply shaped_open].
  - destruct idx as [| i].
    + unfold insert_at. cbn [firstn skipn app].
      apply shaped_cons; [assumption | now apply shaped_cons].
    + unfold insert_at. cbn [firstn skipn app].
      apply shaped_cons; [assumption |].
      apply IH. simpl in Hidx. lia.
Qed.

Lemma tidy_untrimmed l : has_trailing_ws l = false -> tidy_line l.
Proof.
  unfold has_trailing_ws, tidy_line. intros H.
  apply andb_false_iff in H. destruct H as [H | H].
  - right. left. apply negb_false_iff, eqb_eq in H. exact H.
  - left. now destruct (strip l).
Qed.

Lemma tidy_trim_line l : tidy_line (trim_line l).
Proof.
  unfold trim_line. destruct (has_trailing_ws l) eqn:H;
    [| now apply tidy_untrimmed].
  unfold tidy_line. destruct (endswith [NL] l).
  - right. right. rewrite rstrip_snoc by reflexivity. now rewrite rstrip_idem.
  - right. left. apply rstrip_idem.
Qed.

Lemma rstrip_kept s c : isspace c = false -> rstrip (s ++ [c]) = s ++ [c].
Proof.
  intros H. unfold rstrip. rewrite rev_app_distr. cbn [rev app lstrip].
  rewrite H. cbn [rev]. now rewrite rev_involutive.
Qed.

Lemma tidy_docstring line text : tidy_line (docstring line text).
Proof.
  right. right.
  assert (E : docstring line text
              = ((repeat 32%N (length line - length (lstrip line) + 4)
                  ++ triple_double ++ text ++ u "." ++ [34%N; 34%N])
                 ++ [34%N]) ++ [NL]).
  { unfold docstring, triple_double. rewrite <- !app_assoc. reflexivity. }
  rewrite E, rstrip_snoc by reflexivity.
  now rewrite rstrip_kept by reflexivity.
Qed.

Lemma tidy_insert idx x lines :
  tidy_line x -> Forall tidy_line lines ->
  Forall tidy_line (insert_at idx x lines).
Proof.
  intros Hx H. unfold insert_at. rewrite Forall_forall in H |- *.
  intros l Hl. apply in_app_or in Hl.
  destruct Hl as [Hl | [<- | Hl]]; [| assumption |].
  - apply H. rewrite <- (firstn_skipn idx lines). apply in_or_app. now left.
  - apply H. rewrite <- (firstn_skipn idx lines). apply in_or_app. now right.
Qed.

Lemma tidy_trimmed lines : Forall tidy_line (map trim_line lines).
Proof.
  apply Forall_forall. intros l H. apply in_map_iff in H.
  destruct H as (l0 & <- & _). apply tidy_trim_line.
Qed.

Lemma tidy_untrimmed_all lines :
  existsb has_trailing_ws lines = false -> Forall tidy_line lines.
Proof.
  intros H. apply Forall_forall. intros l Hl.
  apply tidy_untrimmed. now apply (existsb_none _ _ _ H).
Qed.

Lemma tidy_blank : tidy_line [NL].
Proof. left. reflexivity. Qed.

Lemma edit_other_tidy (w : world) lines :
  shaped lines ->
  yields (edit_other w lines)
         (fun r : list str * bool =>
            shaped (fst r) /\ Forall tidy_line (fst r) /\
            (snd r = false -> Forall tidy_line lines)).
Proof.
  intros Hs. unfold edit_other. cbv zeta.
  pose proof (shaped_trim lines Hs) as Ht.
  pose proof (tidy_trimmed lines) as Tt.
  apply yields_bind with (P := fun _ => True);
    [apply quiet_yields, quiet_random_below | intros coin _].
  destruct (coin && (3 <? length (map trim_line lines))) eqn:C.
  - apply andb_true_iff in C. destruct C as [_ C]. apply Nat.ltb_lt in C.
    eapply yields_bind; [apply yields_randint |].
    intros idx Hidx. cbv beta in Hidx. apply yields_ret. unfold add_blank_line.
    destruct (truthy _ && truthy _); cbn [fst snd].
    + split; [| split; [| discriminate]].
      * apply (shaped_insert []); [auto | assumption | lia].
      * apply tidy_insert; [apply tidy_blank | assumption].
    + split; [assumption |]. split; [assumption |].
      apply tidy_untrimmed_all.
  - apply yields_ret. cbn [fst snd].
    split; [assumption |]. split; [assumption |]. apply tidy_untrimmed_all.
Qed.

Lemma docstring_body line text :
  In text docstring_texts ->
  exists body, docstring line text = body ++ [NL] /\ ~ In NL body.
Proof.
  intros Hin.
  exists (repeat 32%N (length line - length (lstrip line) + 4)
          ++ triple_double ++ text ++ u "." ++ triple_double).
  split; [unfold docstring; now rewrite <- !app_assoc |].
  intros H. apply in_app_or in H. destruct H as [H | H].
  - apply repeat_spec in H. discriminate.
  - apply in_app_or in H. destruct H as [H | H];
      [vm_compute in H; intuition discriminate |].
    apply in_app_or in H. destruct H as [H | H];
      [| vm_compute in H; intuition discriminate].
    unfold docstring_texts in Hin. cbn [map In] in Hin.
    repeat (destruct Hin as [<- | Hin];
            [vm_compute in H; intuition discriminate |]).
    contradiction.
Qed.

Lemma edit_python_tidy (w : world) lines :
  shaped lines ->
  yields (edit_python w lines)
         (fun r : list str * bool =>
            shaped (fst r) /\ Forall tidy_line (fst r) /\
            (snd r = false -> Forall tidy_line lines)).
Proof.
  intros Hs. unfold edit_python.
  apply yields_bind with (P := fun _ => True);
    [apply quiet_yields, quiet_random_below | intros coin _].
  apply yields_bind
    with (P := fun r : list str * bool =>
                 shaped (fst r) /\ (snd r = false -> fst r = lines)).
  - destruct (coin && (5 <? length lines)) eqn:C.
    + apply andb_true_iff in C. destruct C as [_ C]. apply Nat.ltb_lt in C.
      eapply yields_bind; [apply yields_randint |].
      intros idx Hidx. cbv beta in Hidx. apply yields_ret.
      unfold add_blank_line.
      destruct (truthy _ && truthy _); cbn [fst snd].
      * split; [| discriminate].
        apply (shaped_insert []); [auto | assumption | lia].
      * auto.
    + apply yields_ret. auto.
  - intros r [Hr Hsame]. cbv zeta.
    pose proof (shaped_trim _ Hr) as Ht.
    pose proof (tidy_trimmed (fst r)) as Tt.
    assert (Hno : snd r || existsb has_trailing_ws (fst r) = false ->
                  Forall tidy_line lines).
    { intros H. apply orb_false_iff in H. destruct H as [H1 H2].
      rewrite <- (Hsame H1). now apply tidy_untrimmed_all. }
    apply yields_bind with (P := fun _ => True);
      [apply quiet_yields, quiet_random_below | intros coin2 _].
    destruct coin2; [| apply yields_ret; cbn [fst snd]; auto].
    destruct (docstring_slot (map trim_line (fst r))) as [i |] eqn:D;
      [| apply yields_ret; cbn [fst snd]; auto].
    apply docstring_slot_bound in D.
    eapply yields_bind; [apply yields_choice; discriminate | intros text Hin].
    apply yields_ret. cbn [fst snd].
    split; [| split; [| discriminate]].
    + destruct (docstring_body (nth i (map trim_line (fst r)) []) text Hin)
        as (body & -> & Hb).
      now apply shaped_insert.
    + apply tidy_insert; [apply tidy_docstring | assumption].
Qed.

Lemma path_eqb_same p : path_eqb p p = true.
Proof.
  unfold path_eqb. rewrite eqb_refl, andb_true_r.
  induction (dirs p) as [| d ds IH]; [reflexivity |].
  cbn [strs_eqb]. now rewrite eqb_refl, IH.
Qed.

(** One file: whatever [touch_file] writes is tidy, and a file it may edit
    is tidy afterwards, written or not. *)
Lemma touch_file_tidy (w : world) file st :
  exists st',
    touch_file w file st = (Ok tt, st') /\
    (forall p, fs st' p = fs st p \/
               (p = file /\
                exists fl' t',
                  fs st' p = Some fl' /\ f_text fl' = Some t' /\ tidy t')) /\
    (forall fl t,
        suffix file <> [] -> fs st file = Some fl ->
        (f_size fl <= 100000)%Z -> f_readable fl = true ->
        f_writable fl = true -> f_text fl = Some t ->
        exists fl' t',
          fs st' file = Some fl' /\ f_text fl' = Some t' /\ tidy t').
Proof.
  unfold touch_file.
  destruct (truthy (suffix file)) eqn:Sx; cbn [negb].
  2: { exists st. split; [reflexivity |]. split; [auto |].
       intros fl t H. destruct (suffix file); [contradiction | discriminate]. }
  destruct (fs st file) as [fl |] eqn:F.
  2: { exists st. split; [reflexivity |]. split; [auto |]. discriminate. }
  destruct (100000 <? f_size fl)%Z eqn:Z.
  { exists st. split; [reflexivity |]. split; [auto |].
    intros fl0 t _ H. inversion H; subst fl0. apply Z.ltb_lt in Z. lia. }
  destruct (f_readable fl) eqn:Rd; cbn [negb].
  2: { exists st. split; [reflexivity |]. split; [auto |].
       intros fl0 t _ H. inversion H; subst fl0. congruence. }
  destruct (f_text fl) as [t |] eqn:T.
  2: { exists st. split; [reflexivity |]. split; [auto |].
       intros fl0 t _ H. inversion H; subst fl0. congruence. }
  destruct (readlines t) as [| l ls] eqn:R.
  { exists st. split; [reflexivity |]. split; [auto |].
    intros fl0 t0 _ H _ _ _ H0. inversion H; subst fl0.
    rewrite T in H0. inversion H0; subst t0.
    exists fl, t. repeat split; auto. unfold tidy. rewrite R. constructor. }
  assert (Hne : readlines t <> []) by (rewrite R; discriminate).
  pose proof (readlines_last t Hne) as Hlast.
  pose proof (readlines_is_shaped t) as Hshape.
  rewrite R in Hne, Hlast, Hshape.
  assert (E : yields (if Str.eqb (suffix file) (u ".py")
                      then edit_python w (l :: ls) else edit_other w (l :: ls))
                     (fun r => keeps_last (l :: ls) (fst r) /\
                               (shaped (fst r) /\ Forall tidy_line (fst r) /\
                                (snd r = false -> Forall tidy_line (l :: ls))))).
  { apply yields_and; destruct (Str.eqb (suffix file) (u ".py")).
    - now apply edit_python_keeps.
    - now apply edit_other_keeps.
    - now apply edit_python_tidy.
    - now apply edit_other_tidy. }
  destruct (E st) as (r & st1 & E1 & F1 & L1 & K & Hs & Ht & Hold).
  rewrite (bind_run _ E1).
  assert (G : exists go st2,
             (if snd r then ret true else random_below w 40) st1 = (Ok go, st2)
             /\ fs st2 = fs st1 /\ (snd r = true -> go = true)).
  { destruct (snd r).
    - exists true, st1. auto.
    - destruct (quiet_random_below w 40 st1) as (go & st2 & E2 & F2 & _).
      exists go, st2. repeat split; auto. discriminate. }
  destruct G as (go & st2 & E2 & F2 & Hgo).
  rewrite (bind_run _ E2).
  destruct (go && f_writable fl) eqn:W.
  - unfold write_file. eexists. split; [reflexivity |]. cbn [fs].
    rewrite (fix_last_keeps _ _ Hne K).
    assert (Tidy : tidy (writelines (fst r))).
    { unfold tidy, writelines. now rewrite (readlines_shaped _ Hs). }
    split.
    + intros p. destruct (path_eqb file p) eqn:P.
      * apply path_eqb_eq in P. subst p. right. split; [reflexivity |].
        eexists _, _. split; [reflexivity |]. split; [reflexivity | exact Tidy].
      * left. now rewrite F2, F1.
    + intros fl0 t0 _ _ _ _ _ _. rewrite path_eqb_same.
      eexists _, _. split; [reflexivity |]. split; [reflexivity | exact Tidy].
  - exists st2. split; [reflexivity |]. split.
    + intros p. left. now rewrite F2, F1.
    + intros fl0 t0 _ H _ _ Hw H0. inversion H; subst fl0.
      rewrite T in H0. inversion H0; subst t0.
      rewrite Hw, andb_true_r in W.
      exists fl, t. rewrite F2, F1. repeat split; auto.
      unfold tidy. rewrite R. apply Hold.
      destruct (snd r); [| reflexivity].
      rewrite Hgo in W by reflexivity. discriminate.
Qed.

Lemma touch_files_keep_tidy (w : world) files : forall st p,
  (exists fl t, fs st p = Some fl /\ f_text fl = Some t /\ tidy t) ->
  exists fl' t',
    fs (snd (touch_files w files st)) p = Some fl' /\ f_text fl' = Some t' /\
    tidy t'.
Proof.
  induction files as [| file rest IH]; intros st p H; [exact H |].
  cbn [touch_files].
  destruct (touch_file_tidy w file st) as (st1 & E & A & _).
  rewrite (bind_run _ E). apply IH.
  destruct (A p) as [Same | [_ Tidy]]; [now rewrite Same | exact Tidy].
Qed.

(** X17.  After a pass of the mutator, every file of the batch that it may
    edit -- one with an extension, of at most 100000 bytes, readable and
    writable, of UTF-8 text -- has no white space left at the end of a line
    that is not blank: every such line ends in its last visible character,
    followed by the newline if there is one. *)
Theorem touch_files_removes_trailing_whitespace
        (w : world) files st p fl t :
  In p files ->
  suffix p <> [] -> fs st p = Some fl -> (f_size fl <= 100000)%Z ->
  f_readable fl = true -> f_writable fl = true -> f_text fl = Some t ->
  exists fl' t',
    fs (snd (touch_files w files st)) p = Some fl' /\ f_text fl' = Some t' /\
    tidy t'.
Proof.
  revert st. induction files as [| file rest IH];
    intros st Hin Hsx Hf Hsize Hr Hw Ht; [contradiction |].
  cbn [touch_files].
  destruct (touch_file_tidy w file st) as (st1 & E & A & B).
  rewrite (bind_run _ E).
  destruct Hin as [-> | Hin].
  - apply touch_files_keep_tidy. now apply (B fl t).
  - destruct (A p) as [Same | [_ Tidy]].
    + apply IH; auto. now rewrite Same.
    + now apply touch_files_keep_tidy.
Qed.

Lemma touch_files_removes_trailing_whitespace_witness :
  exists fl' t',
    fs (snd (touch_files Demo.env [Demo.notes; Demo.app; Demo.readme]
                         Demo.init)) Demo.readme = Some fl' /\
    f_text fl' = Some t' /\ tidy t'.
Proof.
  apply (touch_files_removes_trailing_whitespace
           Demo.env [Demo.notes; Demo.app; Demo.readme] Demo.init
           Demo.readme (Demo.text_file Demo.readme_text) Demo.readme_text).
  - simpl. auto.
  - discriminate.
  - reflexivity.
  - vm_compute. discriminate.
  - reflexivity.
  - reflexivity.
  - reflexivity.
Defined.

(** ** A pool that cannot be built *)

(** X18.  Once the dates are in order and files were found, the pool of day
    slots is built in full before [commits] is looked at: a [max_per_day]
    beyond [sys.maxsize] ends the run with OverflowError and a pool beyond
    the memory with MemoryError, whatever [commits] is, with nothing run but
    the enumeration of the files. *)
Theorem backfill_pool_too_large
      (w : world) start end_ commits branch max_per_day st s e :
  fromisoformat w start = Some s -> fromisoformat w end_ = Some e ->
  (s <= e)%Z -> git_ok w st ls_files_cmd = true ->
  filter (is_file st) (ls_files w) <> [] ->
  let listed := mkState (fs st) (draws st) (log st ++ [Git ls_files_cmd None]) in
  ((maxsize w < max_per_day)%Z ->
   backfill w start end_ commits branch max_per_day st
   = (Raise OverflowError, listed)) /\
  ((0 <= max_per_day <= maxsize w)%Z ->
   (room w < (days_between e s + 1) * max_per_day)%Z ->
   backfill w start end_ commits branch max_per_day st
   = (Raise MemoryError, listed)).
Proof.
  intros Hs He Hle G Hf listed.
  assert (T : (days_between e s + 1 <=? 0)%Z = false).
  { apply Z.leb_gt. unfold days_between.
    pose proof (Z.div_pos (e - s) DAY ltac:(lia) DAY_pos). lia. }
  assert (F : negb (0 <? length (filter (is_file listed) (ls_files w))) = false).
  { change (filter (is_file listed) (ls_files w))
      with (filter (is_file st) (ls_files w)).
    destruct (filter (is_file st) (ls_files w)); [contradiction | reflexivity]. }
  unfold backfill. unfold bind at 1. unfold bind at 2.
  rewrite !(schedule_unfold w start end_ commits max_per_day st s e Hs He), T, G.
  cbv zeta. fold listed. rewrite F. split.
  - intros O. apply Z.ltb_lt in O. now rewrite O.
  - intros [H0 H1] R.
    assert (O : (maxsize w <? max_per_day)%Z = false) by (apply Z.ltb_ge; lia).
    rewrite O, (Z.max_r 0 max_per_day H0).
    apply Z.ltb_lt in R. now rewrite R.
Qed.

Lemma backfill_pool_too_large_witness :
  backfill Demo.env (u "2024-01-01") (u "2024-01-05") 5 (u "main")
           9223372036854775808 Demo.init
  = (Raise OverflowError,
     mkState (fs Demo.init) (draws Demo.init)
             (log Demo.init ++ [Git ls_files_cmd None])).
Proof.
  apply (backfill_pool_too_large Demo.env (u "2024-01-01") (u "2024-01-05") 5
           (u "main") 9223372036854775808 Demo.init
           (of_ymd 2024 1 1) (of_ymd 2024 1 5)).
  - reflexivity.
  - reflexivity.
  - vm_compute. discriminate.
  - reflexivity.
  - vm_compute. discriminate.
  - reflexivity.
Defined.
